(** * Memory management simulator: page tables, frame pool and page replacement

    A shallow embedding of [page_table.cpp], [process.cpp] and
    [simulation.cpp], followed by the properties of victim selection, the
    resident-set bound, frame accounting, fatal faults, the fault rate, the
    frame pool, the verbose report and the summary.

    Conventions of the embedding.
    - A [std::vector] is a [list], indexed with stdpp's lookup and insert; an
      index outside the vector is undefined behaviour and is written out.
    - [std::map<int, Process*>] is a [gmap Z Process.t]: every key owns its
      own heap object, so two keys never alias.
    - The headers are not among the sources, so the widths of the integer
      members are not known.  Page indices, frame numbers and counters are
      [nat], the clock and the timestamps are [Z], none of them wraps.  The
      scans of [page_table.cpp] keep their running minimum in an [int]
      initialised to [INT_MAX]; that constant is written out.  The theorems
      about runs ask for the clock to stay at or below [INT_MAX], the range
      in which this agrees with any C integer type of 32 bits or more.
    - [double] is Rocq's primitive binary64 float.
    - Member functions that mutate [*this] take the object and return the
      updated one.  [exit(0)] and behaviour that C++ leaves undefined are the
      two extra results of [Simulation.outcome].
    - What is written to [std::cout] by the engine is kept as a list of
      [Simulation.output]; what [print_summary] writes is kept apart, as a
      list of [summary_output].  The functions that read the input files
      are left out. *)

From stdpp Require Import base gmap list fin_maps sorting.
From Stdlib Require Import ZArith Lia PrimFloat FloatOps FloatAxioms SpecFloat.
From Stdlib Require Uint63.

(** [<limits.h>]: the largest value of a 32-bit [int]. *)
Definition INT_MAX : Z := 2147483647.

(* ===================================================================== *)
(** ** page_table/page_table.cpp *)
(* ===================================================================== *)

Module PageTable.

(** A row of the table ([PageTable::Row], declared in page_table.h). *)
Record Row : Type := {
  present : bool;
  frame : nat;
  loaded_at : Z;
  last_accessed_at : Z;
}.

Record t : Type := { rows : list Row }.

(** Body of the loop of [get_present_page_count]:
    [if (rows[i].present) present++]. *)
Fixpoint present_loop (rest : list Row) (present_acc : nat) : nat :=
  match rest with
  | [] => present_acc
  | r :: rest' =>
      present_loop rest' (if present r then S present_acc else present_acc)
  end.

Definition get_present_page_count (pt : t) : nat :=
  present_loop (rows pt) 0.

(** Loop of [get_oldest_page]; [rest] is [rows[i..]], and
    [index_of_oldest] and [time] are the two locals. *)
Fixpoint oldest_loop (rest : list Row) (i index_of_oldest : nat) (time : Z)
  : nat :=
  match rest with
  | [] => index_of_oldest
  | r :: rest' =>
      if (loaded_at r <? time)%Z && present r
      then oldest_loop rest' (S i) i (loaded_at r)
      else oldest_loop rest' (S i) index_of_oldest time
  end.

Definition get_oldest_page (pt : t) : nat :=
  oldest_loop (rows pt) 0 0 INT_MAX.

(** Loop of [get_least_recently_used_page]. *)
Fixpoint lru_loop (rest : list Row) (i index_of_last_used : nat) (time : Z)
  : nat :=
  match rest with
  | [] => index_of_last_used
  | r :: rest' =>
      if (last_accessed_at r <? time)%Z && present r
      then lru_loop rest' (S i) i (last_accessed_at r)
      else lru_loop rest' (S i) index_of_last_used time
  end.

Definition get_least_recently_used_page (pt : t) : nat :=
  lru_loop (rows pt) 0 0 INT_MAX.

End PageTable.

(* ===================================================================== *)
(** ** process/process.cpp *)
(* ===================================================================== *)

Module Page.

(** Modelled from the spec: page.h and page.cpp are not among the sources.
    A page is known here by its number of bytes ([Page::size]), and an
    offset is valid when it lies inside the page's byte range
    ([Page::is_valid_offset]). *)
Record t : Type := { size : nat }.

Definition is_valid_offset (pg : t) (offset : nat) : bool :=
  offset <? size pg.

End Page.

Module Process.

Record t : Type := {
  num_bytes : nat;
  pages : list Page.t;
  page_table : PageTable.t;
  memory_accesses : nat;
  page_faults : nat;
}.

Definition set_page_table (pt : PageTable.t) (p : t) : t :=
  {| num_bytes := num_bytes p; pages := pages p; page_table := pt;
     memory_accesses := memory_accesses p; page_faults := page_faults p |}.

Definition set_memory_accesses (n : nat) (p : t) : t :=
  {| num_bytes := num_bytes p; pages := pages p;
     page_table := page_table p;
     memory_accesses := n; page_faults := page_faults p |}.

Definition set_page_faults (n : nat) (p : t) : t :=
  {| num_bytes := num_bytes p; pages := pages p;
     page_table := page_table p;
     memory_accesses := memory_accesses p; page_faults := n |}.

Definition size (p : t) : nat := num_bytes p.

(** [index >= 0 && index < page_table.rows.size()] on a [size_t]. *)
Definition is_valid_page (p : t) (index : nat) : bool :=
  if (0 <=? index) && (index <? length (PageTable.rows (page_table p)))
  then true
  else false.

Definition get_rss (p : t) : nat :=
  PageTable.get_present_page_count (page_table p).

(** The conversion [(double)n] of a counter.  It agrees with C++ for every
    counter below [2^63]. *)
Definition to_double (n : nat) : float :=
  PrimFloat.of_uint63 (Uint63.of_Z (Z.of_nat n)).

(** [((double)page_faults / (double)memory_accesses) * 100.0], in IEEE 754
    binary64 arithmetic. *)
Definition get_fault_percent (p : t) : float :=
  if negb (memory_accesses p =? 0)
  then PrimFloat.mul
         (PrimFloat.div (to_double (page_faults p))
                        (to_double (memory_accesses p)))
         100%float
  else 0%float.

End Process.

(* ===================================================================== *)
(** ** simulation/simulation.cpp *)
(* ===================================================================== *)

Module Simulation.

Inductive ReplacementStrategy : Type := FIFO | LRU.

(** The fields of [FlagOptions] (flag_parser.h) that the engine reads.
    [max_frames] is compared with the [size_t] returned by [get_rss]. *)
Record FlagOptions : Type := {
  verbose : bool;
  strategy : ReplacementStrategy;
  max_frames : nat;
}.

Record VirtualAddress : Type := {
  process_id : Z;
  page : nat;
  offset : nat;
}.

Record PhysicalAddress : Type := {
  physical_frame : nat;
  physical_offset : nat;
}.

(** What [Frame::set_page(process, page)] records. *)
Record Frame : Type := {
  frame_process : Z;
  frame_page : nat;
}.

(** One constructor per [std::cout << ...] statement of the engine. *)
Inductive output : Type :=
| OutVirtualAddress (va : VirtualAddress)
| OutInMemory
| OutPageFault
| OutPhysicalAddress (p : PhysicalAddress)
| OutRSS (rss : nat)
| OutSegfaultInvalidPage
| OutSegfaultInvalidOffset.

Record t : Type := {
  flags : FlagOptions;
  processes : gmap Z Process.t;
  virtual_addresses : list VirtualAddress;
  frames : list Frame;
  free_frames : list nat;
  time : Z;
  page_faults : nat;
  cout : list output;
}.

Definition set_processes (m : gmap Z Process.t) (s : t) : t :=
  {| flags := flags s; processes := m;
     virtual_addresses := virtual_addresses s; frames := frames s;
     free_frames := free_frames s; time := time s;
     page_faults := page_faults s; cout := cout s |}.

Definition set_frames (fs : list Frame) (s : t) : t :=
  {| flags := flags s; processes := processes s;
     virtual_addresses := virtual_addresses s; frames := fs;
     free_frames := free_frames s; time := time s;
     page_faults := page_faults s; cout := cout s |}.

Definition set_free_frames (ff : list nat) (s : t) : t :=
  {| flags := flags s; processes := processes s;
     virtual_addresses := virtual_addresses s; frames := frames s;
     free_frames := ff; time := time s;
     page_faults := page_faults s; cout := cout s |}.

Definition set_time (n : Z) (s : t) : t :=
  {| flags := flags s; processes := processes s;
     virtual_addresses := virtual_addresses s; frames := frames s;
     free_frames := free_frames s; time := n;
     page_faults := page_faults s; cout := cout s |}.

Definition set_page_faults (n : nat) (s : t) : t :=
  {| flags := flags s; processes := processes s;
     virtual_addresses := virtual_addresses s; frames := frames s;
     free_frames := free_frames s; time := time s;
     page_faults := n; cout := cout s |}.

Definition set_flags (f : FlagOptions) (s : t) : t :=
  {| flags := f; processes := processes s;
     virtual_addresses := virtual_addresses s; frames := frames s;
     free_frames := free_frames s; time := time s;
     page_faults := page_faults s; cout := cout s |}.

(** [std::cout << o]. *)
Definition print (o : output) (s : t) : t :=
  {| flags := flags s; processes := processes s;
     virtual_addresses := virtual_addresses s; frames := frames s;
     free_frames := free_frames s; time := time s;
     page_faults := page_faults s; cout := cout s ++ [o] |}.

(** [if (this->flags.verbose) std::cout << o]. *)
Definition print_verbose (o : output) (s : t) : t :=
  if verbose (flags s) then print o s else s.

(** A write through the [Process*] held for key [pid]. *)
Definition store_process (pid : Z) (proc : Process.t) (s : t) : t :=
  set_processes (<[pid := proc]> (processes s)) s.

(** [rows[i].present = b]. *)
Definition assign_present (b : bool) (r : PageTable.Row) : PageTable.Row :=
  {| PageTable.present := b; PageTable.frame := PageTable.frame r;
     PageTable.loaded_at := PageTable.loaded_at r;
     PageTable.last_accessed_at := PageTable.last_accessed_at r |}.

(** [rows[i].last_accessed_at = time]. *)
Definition assign_last_accessed_at (n : Z) (r : PageTable.Row)
  : PageTable.Row :=
  {| PageTable.present := PageTable.present r;
     PageTable.frame := PageTable.frame r;
     PageTable.loaded_at := PageTable.loaded_at r;
     PageTable.last_accessed_at := n |}.

(** The four assignments that end every branch of [handle_page_fault]:
    [frame = frame_index; present = true; loaded_at = time;
    last_accessed_at = time].  They overwrite every field of the row. *)
Definition loaded_row (frame_index : nat) (now : Z) : PageTable.Row :=
  {| PageTable.present := true; PageTable.frame := frame_index;
     PageTable.loaded_at := now; PageTable.last_accessed_at := now |}.

(** [rows[i] = f(rows[i])]; indexing a vector out of range is undefined. *)
Definition update_row (i : nat) (f : PageTable.Row → PageTable.Row)
    (pt : PageTable.t) : option PageTable.t :=
  r ← PageTable.rows pt !! i;
  Some {| PageTable.rows := <[i := f r]> (PageTable.rows pt) |}.

(** [handle_page_fault(process, page)], where [process] is the pointer
    stored under [pid].  [None] is undefined behaviour: [front()] of an
    empty list, or an index outside [rows]. *)
Definition handle_page_fault (s : t) (pid : Z) (page : nat) : option t :=
  process ← processes s !! pid;
  let s := set_page_faults (S (page_faults s)) s in
  let process :=
    Process.set_page_faults (S (Process.page_faults process)) process in
  let s := print_verbose OutPageFault s in
  if Process.get_rss process <? max_frames (flags s) then
    frame_index ← head (free_frames s);
    let s :=
      set_free_frames (filter (λ x, x ≠ frame_index) (free_frames s)) s in
    let s :=
      set_frames
        (frames s ++ [{| frame_process := pid; frame_page := page |}]) s in
    pt ← update_row page (λ _, loaded_row frame_index (time s))
           (Process.page_table process);
    Some (store_process pid (Process.set_page_table pt process) s)
  else
    match strategy (flags s) with
    | FIFO =>
        let page_index :=
          PageTable.get_oldest_page (Process.page_table process) in
        pt ← update_row page_index (assign_present false)
               (Process.page_table process);
        r ← PageTable.rows pt !! page_index;
        let frame_index := PageTable.frame r in
        let s :=
          set_frames
            (frames s ++ [{| frame_process := pid; frame_page := page |}])
            s in
        pt ← update_row page (λ _, loaded_row frame_index (time s)) pt;
        Some (store_process pid (Process.set_page_table pt process) s)
    | LRU =>
        let page_index :=
          PageTable.get_least_recently_used_page
            (Process.page_table process) in
        pt ← update_row page_index (assign_present false)
               (Process.page_table process);
        r ← PageTable.rows pt !! page_index;
        let frame_index := PageTable.frame r in
        let s :=
          set_frames
            (frames s ++ [{| frame_process := pid; frame_page := page |}])
            s in
        pt ← update_row page (λ _, loaded_row frame_index (time s)) pt;
        Some (store_process pid (Process.set_page_table pt process) s)
    end.

(** How a call of [perform_memory_access] ends. *)
Inductive outcome : Type :=
| Returned (s : t)   (** [return 0] *)
| Exited (s : t)     (** [exit(0)], with the simulation in state [s] *)
| Undefined.         (** behaviour that C++ leaves undefined *)

Definition perform_memory_access (s : t) (virtual_address : VirtualAddress)
  : outcome :=
  let s := print_verbose (OutVirtualAddress virtual_address) s in
  let pid := process_id virtual_address in
  match processes s !! pid with
  | None => Undefined  (* [operator[]] yields a null pointer *)
  | Some proc =>
      let proc :=
        Process.set_memory_accesses (S (Process.memory_accesses proc)) proc
      in
      let s := store_process pid proc s in
      if negb (Process.is_valid_page proc (page virtual_address)) then
        Exited (print OutSegfaultInvalidPage s)
      else
        match PageTable.rows (Process.page_table proc)
                !! page virtual_address with
        | None => Undefined
        | Some row =>
            let after :=
              if PageTable.present row then
                let s := print_verbose OutInMemory s in
                pt ← update_row (page virtual_address)
                       (assign_last_accessed_at (time s))
                       (Process.page_table proc);
                Some (store_process pid (Process.set_page_table pt proc) s)
              else handle_page_fault s pid (page virtual_address)
            in
            match after with
            | None => Undefined
            | Some s =>
                match processes s !! pid with
                | None => Undefined
                | Some proc =>
                    match PageTable.rows (Process.page_table proc)
                            !! page virtual_address with
                    | None => Undefined
                    | Some row =>
                        let p :=
                          {| physical_frame := PageTable.frame row;
                             physical_offset := offset virtual_address |}
                        in
                        if verbose (flags s) then
                          let s := print (OutPhysicalAddress p) s in
                          match Process.pages proc
                                  !! page virtual_address with
                          | None => Undefined
                          | Some pg =>
                              if negb (Page.is_valid_offset pg
                                         (offset virtual_address))
                              then Exited (print OutSegfaultInvalidOffset s)
                              else
                                Returned
                                  (print (OutRSS (Process.get_rss proc)) s)
                          end
                        else Returned s
                    end
                end
            end
        end
  end.

(** The loop of [run]:
    [for (va : virtual_addresses) { perform_memory_access(va); time++; }]. *)
Fixpoint access_loop (s : t) (trace : list VirtualAddress) : outcome :=
  match trace with
  | [] => Returned s
  | virtual_address :: rest =>
      match perform_memory_access s virtual_address with
      | Returned s' => access_loop (set_time (time s' + 1)%Z s') rest
      | Exited s' => Exited s'
      | Undefined => Undefined
      end
  end.

(** Modelled from the spec: [NUM_FRAMES] is declared in simulation.h, which
    is not among the sources.  It is the number of frames of the pool; [run]
    writes the same number as a literal. *)
Definition NUM_FRAMES : nat := 512.

(** [for (int i = 0; i < 512; i++) free_frames.push_back(i)]. *)
Definition initialize_free_frames (s : t) : t :=
  set_free_frames (free_frames s ++ seq 0 512) s.

(** [run], up to the summary, which only reads the final state. *)
Definition run (s : t) : outcome :=
  access_loop (initialize_free_frames s) (virtual_addresses s).

End Simulation.

(* ===================================================================== *)
(** ** Vocabulary of the specification *)
(* ===================================================================== *)

(** The scan shared by [get_oldest_page] and [get_least_recently_used_page],
    over an arbitrary timestamp [key]; the two loops are instances of it
    ([oldest_loop_scan], [lru_loop_scan]). *)
Fixpoint min_scan (key : PageTable.Row → Z) (rest : list PageTable.Row)
    (i index : nat) (time : Z) : nat :=
  match rest with
  | [] => index
  | r :: rest' =>
      if (key r <? time)%Z && PageTable.present r
      then min_scan key rest' (S i) i (key r)
      else min_scan key rest' (S i) index time
  end.

(** Row [i] of [rows] is resident. *)
Definition resident (rows : list PageTable.Row) (i : nat) : Prop :=
  ∃ r, rows !! i = Some r ∧ PageTable.present r = true.

(** [v] is resident, no resident row has a smaller [key], and no resident
    row with the same [key] has a smaller index. *)
Definition first_minimum (key : PageTable.Row → Z)
    (rows : list PageTable.Row) (v : nat) : Prop :=
  ∃ rv, rows !! v = Some rv ∧ PageTable.present rv = true ∧
    ∀ k rk, rows !! k = Some rk → PageTable.present rk = true →
      (key rv ≤ key rk)%Z ∧ (key rk = key rv → v ≤ k).

(** Number of resident rows, by structural recursion. *)
Fixpoint count_present (rows : list PageTable.Row) : nat :=
  match rows with
  | [] => 0
  | r :: rest => (if PageTable.present r then 1 else 0) + count_present rest
  end.

(** The victim that [handle_page_fault] asks for under each strategy. *)
Definition select_victim (strategy : Simulation.ReplacementStrategy)
    (pt : PageTable.t) : nat :=
  match strategy with
  | Simulation.FIFO => PageTable.get_oldest_page pt
  | Simulation.LRU => PageTable.get_least_recently_used_page pt
  end.

(** The path an access with a valid page index takes: the page is in memory,
    or it faults and takes a free frame ([Fault None]), or it faults and
    takes the frame of the page [v] it evicts ([Fault (Some v)]). *)
Inductive access_kind : Type :=
| Hit
| Fault (evicted : option nat).

(** The path [perform_memory_access] takes from state [s], read off the
    tests it makes: [rows[page].present], then
    [get_rss() < flags.max_frames]. *)
Definition classify (s : Simulation.t) (va : Simulation.VirtualAddress)
  : option access_kind :=
  proc ← Simulation.processes s !! Simulation.process_id va;
  row ← PageTable.rows (Process.page_table proc) !! Simulation.page va;
  if PageTable.present row then Some Hit
  else if Process.get_rss proc <? Simulation.max_frames (Simulation.flags s)
  then Some (Fault None)
  else Some (Fault (Some (select_victim
                            (Simulation.strategy (Simulation.flags s))
                            (Process.page_table proc)))).

(** The paths taken along a trace, for as long as accesses are processed. *)
Fixpoint access_log (s : Simulation.t)
    (trace : list Simulation.VirtualAddress) : list access_kind :=
  match trace with
  | [] => []
  | va :: rest =>
      match classify s va, Simulation.perform_memory_access s va with
      | Some k, Simulation.Returned s' =>
          k :: access_log (Simulation.set_time (Simulation.time s' + 1)%Z s')
                 rest
      | Some k, Simulation.Exited _ => [k]
      | _, _ => []
      end
  end.

(** What an access with a valid page index does to the rows of its process
    and to the free list, with the path taken.  [None] is undefined
    behaviour: [front()] of an empty list or an index outside [rows]. *)
Definition table_step (fl : Simulation.FlagOptions) (now : Z) (page : nat)
    (rows : list PageTable.Row) (free : list nat)
  : option (access_kind * list PageTable.Row * list nat) :=
  r ← rows !! page;
  if PageTable.present r then
    Some (Hit, <[page := Simulation.assign_last_accessed_at now r]> rows, free)
  else if count_present rows <? Simulation.max_frames fl then
    f ← head free;
    Some (Fault None, <[page := Simulation.loaded_row f now]> rows,
          filter (λ x, x ≠ f) free)
  else
    let v :=
      select_victim (Simulation.strategy fl) {| PageTable.rows := rows |} in
    rv ← rows !! v;
    Some (Fault (Some v),
          <[page := Simulation.loaded_row (PageTable.frame rv) now]>
            (<[v := Simulation.assign_present false rv]> rows),
          free).

Definition is_hit (k : access_kind) : bool :=
  match k with Hit => true | Fault _ => false end.

(** The process after an access of kind [k] that left its rows as [rows']. *)
Definition process_after (proc : Process.t) (k : access_kind)
    (rows' : list PageTable.Row) : Process.t :=
  {| Process.num_bytes := Process.num_bytes proc;
     Process.pages := Process.pages proc;
     Process.page_table := {| PageTable.rows := rows' |};
     Process.memory_accesses := S (Process.memory_accesses proc);
     Process.page_faults :=
       if is_hit k then Process.page_faults proc
       else S (Process.page_faults proc) |}.

(** The simulation after the page-table update of an access, before the
    physical address is formed. *)
Definition state_after (s : Simulation.t) (va : Simulation.VirtualAddress)
    (proc : Process.t) (k : access_kind) (rows' : list PageTable.Row)
    (free' : list nat) : Simulation.t :=
  {| Simulation.flags := Simulation.flags s;
     Simulation.processes :=
       <[Simulation.process_id va := process_after proc k rows']>
         (Simulation.processes s);
     Simulation.virtual_addresses := Simulation.virtual_addresses s;
     Simulation.frames :=
       if is_hit k then Simulation.frames s
       else Simulation.frames s
              ++ [{| Simulation.frame_process := Simulation.process_id va;
                     Simulation.frame_page := Simulation.page va |}];
     Simulation.free_frames := free';
     Simulation.time := Simulation.time s;
     Simulation.page_faults :=
       if is_hit k then Simulation.page_faults s
       else S (Simulation.page_faults s);
     Simulation.cout :=
       if Simulation.verbose (Simulation.flags s)
       then (Simulation.cout s ++ [Simulation.OutVirtualAddress va])
            ++ [if is_hit k then Simulation.OutInMemory
                else Simulation.OutPageFault]
       else Simulation.cout s |}.

(** The end of [perform_memory_access]: the physical address, and in verbose
    mode its report and the offset check. *)
Definition conclude (s : Simulation.t) (proc : Process.t)
    (row : PageTable.Row) (va : Simulation.VirtualAddress)
  : Simulation.outcome :=
  let p := {| Simulation.physical_frame := PageTable.frame row;
              Simulation.physical_offset := Simulation.offset va |} in
  if Simulation.verbose (Simulation.flags s) then
    let s := Simulation.print (Simulation.OutPhysicalAddress p) s in
    match Process.pages proc !! Simulation.page va with
    | None => Simulation.Undefined
    | Some pg =>
        if negb (Page.is_valid_offset pg (Simulation.offset va))
        then Simulation.Exited
               (Simulation.print Simulation.OutSegfaultInvalidOffset s)
        else Simulation.Returned
               (Simulation.print (Simulation.OutRSS (Process.get_rss proc)) s)
    end
  else Simulation.Returned s.

(** The state in which an access to a page outside the table exits. *)
Definition state_invalid_page (s : Simulation.t)
    (va : Simulation.VirtualAddress) (proc : Process.t) : Simulation.t :=
  Simulation.print Simulation.OutSegfaultInvalidPage
    (Simulation.store_process (Simulation.process_id va)
       (Process.set_memory_accesses (S (Process.memory_accesses proc)) proc)
       (Simulation.print_verbose (Simulation.OutVirtualAddress va) s)).

(** The state a call ended in, when its behaviour is defined. *)
Definition state_of (o : Simulation.outcome) : option Simulation.t :=
  match o with
  | Simulation.Returned s | Simulation.Exited s => Some s
  | Simulation.Undefined => None
  end.

(** Sum over all processes of their resident-set sizes. *)
Definition total_present (s : Simulation.t) : nat :=
  map_fold (λ _ proc acc, Process.get_rss proc + acc) 0
    (Simulation.processes s).

(** All rows of all processes satisfy [P]. *)
Definition all_rows (P : PageTable.Row → Prop) (s : Simulation.t) : Prop :=
  map_Forall
    (λ _ proc, Forall P (PageTable.rows (Process.page_table proc)))
    (Simulation.processes s).

(** Modelled from the spec: the constructor of [Process] is declared in
    process.h, which is not among the sources.  A page-table entry is created
    non-present. *)
Definition absent (r : PageTable.Row) : Prop := PageTable.present r = false.

(** Timestamps of resident rows lie before [now]. *)
Definition stamped_before (now : Z) (r : PageTable.Row) : Prop :=
  PageTable.present r = true →
  (PageTable.loaded_at r < now)%Z ∧ (PageTable.last_accessed_at r < now)%Z.

Definition ordered (r : PageTable.Row) : Prop :=
  (PageTable.loaded_at r ≤ PageTable.last_accessed_at r)%Z.

(** Every process is within the frame budget. *)
Definition within_budget (s : Simulation.t) : Prop :=
  map_Forall
    (λ _ proc,
       Process.get_rss proc ≤ Simulation.max_frames (Simulation.flags s))
    (Simulation.processes s).

(** The same simulation under another replacement strategy. *)
Definition with_strategy (st : Simulation.ReplacementStrategy)
    (s : Simulation.t) : Simulation.t :=
  Simulation.set_flags
    {| Simulation.verbose := Simulation.verbose (Simulation.flags s);
       Simulation.strategy := st;
       Simulation.max_frames := Simulation.max_frames (Simulation.flags s) |}
    s.

Definition outcome_map (f : Simulation.t → Simulation.t)
    (o : Simulation.outcome) : Simulation.outcome :=
  match o with
  | Simulation.Returned s => Simulation.Returned (f s)
  | Simulation.Exited s => Simulation.Exited (f s)
  | Simulation.Undefined => Simulation.Undefined
  end.

(** The timestamp each strategy minimises. *)
Definition victim_key (st : Simulation.ReplacementStrategy)
  : PageTable.Row → Z :=
  match st with
  | Simulation.FIFO => PageTable.loaded_at
  | Simulation.LRU => PageTable.last_accessed_at
  end.

(** How the access [va], made in state [s] and ending in state [s'], changes
    the resident set of its process, by the path it takes ([None]: the page
    index is outside the table). *)
Definition resident_change (s : Simulation.t)
    (va : Simulation.VirtualAddress) (s' : Simulation.t) : Prop :=
  ∃ proc proc',
    Simulation.processes s !! Simulation.process_id va = Some proc ∧
    Simulation.processes s' !! Simulation.process_id va = Some proc' ∧
    match classify s va with
    | Some Hit | None => Process.get_rss proc' = Process.get_rss proc
    | Some (Fault None) =>
        Process.get_rss proc < Simulation.max_frames (Simulation.flags s) ∧
        Process.get_rss proc' = S (Process.get_rss proc)
    | Some (Fault (Some v)) =>
        Simulation.max_frames (Simulation.flags s) ≤ Process.get_rss proc ∧
        Process.get_rss proc' = Process.get_rss proc ∧
        resident (PageTable.rows (Process.page_table proc)) v ∧
        ¬ resident (PageTable.rows (Process.page_table proc')) v
    end.

(** How the same access changes the free list and the number of resident
    pages of the whole simulation. *)
Definition frame_change (s : Simulation.t)
    (va : Simulation.VirtualAddress) (s' : Simulation.t) : Prop :=
  match classify s va with
  | Some (Fault None) =>
      (∃ f, Simulation.free_frames s = f :: Simulation.free_frames s') ∧
      total_present s' = S (total_present s)
  | Some (Fault (Some _)) | Some Hit | None =>
      Simulation.free_frames s' = Simulation.free_frames s ∧
      total_present s' = total_present s
  end.

(** What holds before an access when [n] accesses remain: resident rows are
    stamped before the clock, every process is within a budget of at least
    one frame, and the clock stays at or below [INT_MAX] until the end. *)
Definition run_invariant (n : nat) (s : Simulation.t) : Prop :=
  all_rows (stamped_before (Simulation.time s)) s ∧
  within_budget s ∧
  1 ≤ Simulation.max_frames (Simulation.flags s) ∧
  (Simulation.time s + Z.of_nat n ≤ INT_MAX)%Z.

(** The free list has no duplicates and, with the resident pages, accounts
    for every frame. *)
Definition frames_accounted (s : Simulation.t) : Prop :=
  NoDup (Simulation.free_frames s) ∧
  total_present s + length (Simulation.free_frames s) = Simulation.NUM_FRAMES.

(** The process of an access sees the same victim under [st'] as under the
    strategy of [s]. *)
Definition same_victim (st' : Simulation.ReplacementStrategy)
    (s : Simulation.t) (va : Simulation.VirtualAddress) : Prop :=
  ∀ proc,
    Simulation.processes s !! Simulation.process_id va = Some proc →
    Simulation.max_frames (Simulation.flags s)
    ≤ count_present (PageTable.rows (Process.page_table proc)) →
    select_victim st'
      {| PageTable.rows := PageTable.rows (Process.page_table proc) |}
    = select_victim (Simulation.strategy (Simulation.flags s))
        {| PageTable.rows := PageTable.rows (Process.page_table proc) |}.

(* ===================================================================== *)
(** ** Concrete inputs of the examples *)
(* ===================================================================== *)

(** A row that has never been loaded. *)
Definition example_row : PageTable.Row :=
  {| PageTable.present := false; PageTable.frame := 0;
     PageTable.loaded_at := -1; PageTable.last_accessed_at := -1 |}.

(** A resident row loaded and last used at [INT_MAX]. *)
Definition example_row_at_int_max : PageTable.Row :=
  {| PageTable.present := true; PageTable.frame := 0;
     PageTable.loaded_at := INT_MAX; PageTable.last_accessed_at := INT_MAX |}.

Definition example_table_at_int_max : PageTable.t :=
  {| PageTable.rows := [example_row; example_row_at_int_max] |}.

(** A resident row loaded and last used at the given times. *)
Definition example_resident_row (loaded used : Z) : PageTable.Row :=
  {| PageTable.present := true; PageTable.frame := 0;
     PageTable.loaded_at := loaded; PageTable.last_accessed_at := used |}.

(** Page 1 was loaded before page 2 and used after it. *)
Definition example_table : PageTable.t :=
  {| PageTable.rows :=
       [example_row; example_resident_row 3 8; example_resident_row 5 6] |}.

(** A process of [n] pages of 64 bytes, none of them resident. *)
Definition example_process (n : nat) : Process.t :=
  {| Process.num_bytes := 64 * n;
     Process.pages := repeat {| Page.size := 64 |} n;
     Process.page_table := {| PageTable.rows := repeat example_row n |};
     Process.memory_accesses := 0;
     Process.page_faults := 0 |}.

(** A simulation of one process, number 7, of three pages, before [run]. *)
Definition example_simulation (vb : bool)
    (st : Simulation.ReplacementStrategy) (mf : nat) : Simulation.t :=
  {| Simulation.flags :=
       {| Simulation.verbose := vb; Simulation.strategy := st;
          Simulation.max_frames := mf |};
     Simulation.processes := {[ 7%Z := example_process 3 ]};
     Simulation.virtual_addresses := [];
     Simulation.frames := [];
     Simulation.free_frames := [];
     Simulation.time := 0;
     Simulation.page_faults := 0;
     Simulation.cout := [] |}.

Definition example_access (page offset : nat) : Simulation.VirtualAddress :=
  {| Simulation.process_id := 7; Simulation.page := page;
     Simulation.offset := offset |}.

(** A process known only by its counters. *)
Definition example_counters (faults accesses : nat) : Process.t :=
  {| Process.num_bytes := 0; Process.pages := [];
     Process.page_table := {| PageTable.rows := [] |};
     Process.memory_accesses := accesses;
     Process.page_faults := faults |}.

(** The double [f] is finite and its value, [m * 2^e] with the sign, is the
    rational number [100 * faults / accesses]. *)
Definition exact_percent (f : float) (faults accesses : nat) : Prop :=
  match Prim2SF f with
  | S754_zero _ => faults = 0
  | S754_finite sign m e =>
      ((if sign then Z.neg m else Z.pos m) * 2 ^ Z.max e 0
       * Z.of_nat accesses
       = 100 * Z.of_nat faults * 2 ^ Z.max (- e) 0)%Z
  | _ => False
  end.

(** The state after [n] hits of [va] in a row, made from state [s] in quiet
    mode, when [row] is the resident row that [va] addresses in [proc]. *)
Definition after_hits (s : Simulation.t) (va : Simulation.VirtualAddress)
    (proc : Process.t) (row : PageTable.Row) (n : nat) : Simulation.t :=
  match n with
  | 0 => s
  | S m =>
      {| Simulation.flags := Simulation.flags s;
         Simulation.processes :=
           <[Simulation.process_id va :=
               {| Process.num_bytes := Process.num_bytes proc;
                  Process.pages := Process.pages proc;
                  Process.page_table :=
                    {| PageTable.rows :=
                         <[Simulation.page va :=
                             Simulation.assign_last_accessed_at
                               (Simulation.time s + Z.of_nat m)%Z row]>
                           (PageTable.rows (Process.page_table proc)) |};
                  Process.memory_accesses :=
                    n + Process.memory_accesses proc;
                  Process.page_faults := Process.page_faults proc |}]>
             (Simulation.processes s);
         Simulation.virtual_addresses := Simulation.virtual_addresses s;
         Simulation.frames := Simulation.frames s;
         Simulation.free_frames := Simulation.free_frames s;
         Simulation.time := (Simulation.time s + Z.of_nat n)%Z;
         Simulation.page_faults := Simulation.page_faults s;
         Simulation.cout := Simulation.cout s |}
  end.

(** The example simulation in quiet mode with one frame per process, after
    [run] has filled the free list and page 1 has been accessed once. *)
Definition example_after_first_access (st : Simulation.ReplacementStrategy)
  : Simulation.t :=
  {| Simulation.flags :=
       {| Simulation.verbose := false; Simulation.strategy := st;
          Simulation.max_frames := 1 |};
     Simulation.processes :=
       {[ 7%Z :=
            {| Process.num_bytes := 192;
               Process.pages := repeat {| Page.size := 64 |} 3;
               Process.page_table :=
                 {| PageTable.rows :=
                      [example_row; example_resident_row 0 0; example_row] |};
               Process.memory_accesses := 1;
               Process.page_faults := 1 |} ]};
     Simulation.virtual_addresses := [];
     Simulation.frames :=
       [{| Simulation.frame_process := 7; Simulation.frame_page := 1 |}];
     Simulation.free_frames := seq 1 511;
     Simulation.time := 1;
     Simulation.page_faults := 1;
     Simulation.cout := [] |}.

(** Page 1 is loaded at time 0 and accessed again at every time up to
    [INT_MAX]; then page 2 is accessed. *)
Definition example_long_trace : list Simulation.VirtualAddress :=
  example_access 1 0
  :: repeat (example_access 1 0) (Z.to_nat INT_MAX) ++ [example_access 2 0].

(** The same simulation once page 1, loaded at time 0, has been accessed at
    every time up to [INT_MAX], [n] times in all after the first. *)
Definition example_at_int_max (st : Simulation.ReplacementStrategy) (n : nat)
  : Simulation.t :=
  {| Simulation.flags :=
       {| Simulation.verbose := false; Simulation.strategy := st;
          Simulation.max_frames := 1 |};
     Simulation.processes :=
       {[ 7%Z :=
            {| Process.num_bytes := 192;
               Process.pages := repeat {| Page.size := 64 |} 3;
               Process.page_table :=
                 {| PageTable.rows :=
                      [example_row; example_resident_row 0 INT_MAX;
                       example_row] |};
               Process.memory_accesses := n + 1;
               Process.page_faults := 1 |} ]};
     Simulation.virtual_addresses := [];
     Simulation.frames :=
       [{| Simulation.frame_process := 7; Simulation.frame_page := 1 |}];
     Simulation.free_frames := seq 1 511;
     Simulation.time := INT_MAX + 1;
     Simulation.page_faults := 1;
     Simulation.cout := [] |}.

(** A configuration under which the run is defined: every access names a
    process of the simulation, every process has a page for each row of its
    table, and [max_frames] frames for each process fit in the pool. *)
Definition well_configured (s : Simulation.t)
    (trace : list Simulation.VirtualAddress) : Prop :=
  Forall
    (λ va, is_Some (Simulation.processes s !! Simulation.process_id va))
    trace ∧
  map_Forall
    (λ _ proc,
       length (Process.pages proc)
       = length (PageTable.rows (Process.page_table proc)))
    (Simulation.processes s) ∧
  size (Simulation.processes s) * Simulation.max_frames (Simulation.flags s)
  ≤ Simulation.NUM_FRAMES.

(** The double [f] is finite and within [2^-45] of the rational number
    [100 * faults / accesses]. *)
Definition close_percent (f : float) (faults accesses : nat) : bool :=
  match Prim2SF f with
  | S754_zero _ => faults =? 0
  | S754_finite sign m e =>
      (Z.abs ((if sign then Z.neg m else Z.pos m) * 2 ^ Z.max e 0
              * Z.of_nat accesses
              - 100 * Z.of_nat faults * 2 ^ Z.max (- e) 0)
       * 2 ^ 45
       <=? Z.of_nat accesses * 2 ^ Z.max (- e) 0)%Z
  | _ => false
  end.

(** For process 7 in the state a run ended in: which pages are present, in
    page order, and the two counters. *)
Definition example_summary (o : Simulation.outcome)
  : option (list bool * nat * nat) :=
  s ← state_of o;
  proc ← Simulation.processes s !! 7%Z;
  Some (map PageTable.present (PageTable.rows (Process.page_table proc)),
        Process.memory_accesses proc, Process.page_faults proc).

(** The double [f] is the integer [n], exactly: it is finite, not negative,
    and its value [m * 2^e] is [n]. *)
Definition double_is (f : float) (n : nat) : Prop :=
  match Prim2SF f with
  | S754_zero false => n = 0
  | S754_finite false m e =>
      (Z.pos m * 2 ^ Z.max e 0 = Z.of_nat n * 2 ^ Z.max (- e) 0)%Z
  | _ => False
  end.

(** The double [f] is finite, not negative, and its value [m * 2^e] lies
    within the relative distance [2^-51] of the rational number
    [100 * faults / accesses]:
    [|m * 2^e - 100 * faults / accesses| <= 2^-51 * (100 * faults / accesses)],
    with the denominators [accesses] and [2^-e] multiplied out. *)
Definition near_percent (f : float) (faults accesses : nat) : Prop :=
  match Prim2SF f with
  | S754_zero false => faults = 0
  | S754_finite false m e =>
      (2 ^ 51
       * Z.abs (Z.pos m * 2 ^ Z.max e 0 * Z.of_nat accesses
                - 100 * Z.of_nat faults * 2 ^ Z.max (- e) 0)
       ≤ 100 * Z.of_nat faults * 2 ^ Z.max (- e) 0)%Z
  | _ => False
  end.

(** The record [mrs] of a right shift stands for the rational number
    [X / B]: its mantissa is the integer part, its round bit tells whether
    the fractional part is at least one half, and its sticky bit whether the
    fractional part is neither zero nor one half. *)
Definition shr_inv (mrs : shr_record) (X B : Z) : Prop :=
  shr_m mrs = (X / B)%Z ∧
  (shr_r mrs = true ↔ (B ≤ 2 * (X mod B))%Z) ∧
  (shr_s mrs = true ↔ ((2 * X) mod B)%Z ≠ 0%Z).

(** The location [l] tells where the fraction [a / b] lies in [0, 1). *)
Definition loc_describes (a b : Z) (l : location) : Prop :=
  l = if (a =? 0)%Z then loc_Exact else loc_Inexact (2 * a ?= b)%Z.

(* ===================================================================== *)
(** ** Vocabulary of the further properties *)
(* ===================================================================== *)

(** Sum over all processes of a counter. *)
Definition map_sum (g : Process.t → nat) (m : gmap Z Process.t) : nat :=
  map_fold (λ _ proc acc, g proc + acc) 0 m.

(** Row [i] of [rows] is resident in frame [f]. *)
Definition row_owns (rows : list PageTable.Row) (i f : nat) : Prop :=
  ∃ r, rows !! i = Some r ∧ PageTable.present r = true ∧
       PageTable.frame r = f.

(** Page [i] of process [pid] is resident in frame [f]. *)
Definition owns (s : Simulation.t) (pid : Z) (i f : nat) : Prop :=
  ∃ proc,
    Simulation.processes s !! pid = Some proc ∧
    row_owns (PageTable.rows (Process.page_table proc)) i f.

(** The free list is what is left of [0..NUM_FRAMES-1] after its first [k]
    frames were handed out. *)
Definition free_from (k : nat) (s : Simulation.t) : Prop :=
  k ≤ Simulation.NUM_FRAMES ∧
  Simulation.free_frames s = seq k (Simulation.NUM_FRAMES - k).

(** Every resident page sits in a frame that was handed out, and no two
    resident pages, of the same or of different processes, share a frame. *)
Definition frames_exclusive (k : nat) (s : Simulation.t) : Prop :=
  (∀ pid i f, owns s pid i f → f < k) ∧
  (∀ pid i pid' i' f,
     owns s pid i f → owns s pid' i' f → pid = pid' ∧ i = i').

(** Two states that differ at most in what was printed. *)
Definition same_but_cout (s s' : Simulation.t) : Prop :=
  Simulation.flags s' = Simulation.flags s ∧
  Simulation.processes s' = Simulation.processes s ∧
  Simulation.virtual_addresses s' = Simulation.virtual_addresses s ∧
  Simulation.frames s' = Simulation.frames s ∧
  Simulation.free_frames s' = Simulation.free_frames s ∧
  Simulation.time s' = Simulation.time s ∧
  Simulation.page_faults s' = Simulation.page_faults s.

(** What the run has kept of process [proc0]: its size, its pages and the
    length of its page table. *)
Definition same_shape (proc0 proc : Process.t) : Prop :=
  Process.num_bytes proc = Process.num_bytes proc0 ∧
  Process.pages proc = Process.pages proc0 ∧
  length (PageTable.rows (Process.page_table proc))
  = length (PageTable.rows (Process.page_table proc0)).

(** The same simulation with the verbose flag set to [vb]. *)
Definition with_verbose (vb : bool) (s : Simulation.t) : Simulation.t :=
  Simulation.set_flags
    {| Simulation.verbose := vb;
       Simulation.strategy := Simulation.strategy (Simulation.flags s);
       Simulation.max_frames := Simulation.max_frames (Simulation.flags s) |}
    s.

(** Two states that differ at most in the verbose flag and in what was
    printed. *)
Definition same_data (s s' : Simulation.t) : Prop :=
  Simulation.strategy (Simulation.flags s')
  = Simulation.strategy (Simulation.flags s) ∧
  Simulation.max_frames (Simulation.flags s')
  = Simulation.max_frames (Simulation.flags s) ∧
  Simulation.processes s' = Simulation.processes s ∧
  Simulation.virtual_addresses s' = Simulation.virtual_addresses s ∧
  Simulation.frames s' = Simulation.frames s ∧
  Simulation.free_frames s' = Simulation.free_frames s ∧
  Simulation.time s' = Simulation.time s ∧
  Simulation.page_faults s' = Simulation.page_faults s.

(** The output [o] is the report of a page fault. *)
Definition is_fault_report (o : Simulation.output) : bool :=
  match o with Simulation.OutPageFault => true | _ => false end.

(** The number of page faults that a piece of output reports. *)
Definition reported_faults (out : list Simulation.output) : nat :=
  length (filter (λ o, is_fault_report o = true) out).

(** An access that [perform_memory_access] carries out without a fatal
    report: its process exists, [is_valid_page] holds for its page and, when
    the verbose flag is set, [is_valid_offset] holds for its offset. *)
Definition valid_access (s : Simulation.t) (va : Simulation.VirtualAddress)
  : Prop :=
  ∃ proc,
    Simulation.processes s !! Simulation.process_id va = Some proc ∧
    Process.is_valid_page proc (Simulation.page va) = true ∧
    (Simulation.verbose (Simulation.flags s) = true →
     ∃ pg, Process.pages proc !! Simulation.page va = Some pg ∧
           Page.is_valid_offset pg (Simulation.offset va) = true).

(* ===================================================================== *)
(** ** [Simulation::print_summary] *)
(* ===================================================================== *)

(** What [print_summary] writes to [std::cout]: a value of this type is one
    use of a [boost::format] with the values given to it, in order; [csv]
    tells which of the two formats of the function it is.  The text of the
    formats is not modelled. *)
Inductive summary_output : Type :=
| OutProcessLine (csv : bool) (pid : Z) (memory_accesses page_faults : nat)
    (fault_percent : float) (rss : nat)
| OutTotals (csv : bool) (total_accesses total_faults free_remaining : nat).

(** [for (auto entry : this->processes)]: a [std::map] is visited in
    ascending order of its keys. *)
Definition pid_le (a b : Z * Process.t) : Prop := (a.1 ≤ b.1)%Z.

Definition pid_le_dec (a b : Z * Process.t) : Decision (pid_le a b) :=
  decide_rel Z.le a.1 b.1.

Definition entries (m : gmap Z Process.t) : list (Z * Process.t) :=
  @merge_sort _ pid_le pid_le_dec (map_to_list m).

(** [std::cout << process_fmt % entry.first % ... % entry.second->get_rss()]. *)
Definition process_line (csv : bool) (entry : Z * Process.t)
  : summary_output :=
  OutProcessLine csv entry.1
    (Process.memory_accesses entry.2)
    (Process.page_faults entry.2)
    (Process.get_fault_percent entry.2)
    (Process.get_rss entry.2).

(** One of the two blocks of [print_summary]: the loop over the processes,
    then the statistics. *)
Definition summary_block (csv : bool) (s : Simulation.t)
  : list summary_output :=
  (process_line csv <$> entries (Simulation.processes s))
  ++ [OutTotals csv
        (length (Simulation.virtual_addresses s))
        (Simulation.page_faults s)
        (length (Simulation.free_frames s))].

(** Modelled from the spec: the field [csv] of [FlagOptions] is declared in
    flag_parser.h, which is not among the sources; it is the argument [csv]
    here.  The function tests [!flags.csv] and then [flags.csv]. *)
Definition print_summary (csv : bool) (s : Simulation.t)
  : list summary_output :=
  (if negb csv then summary_block false s else [])
  ++ (if csv then summary_block true s else []).

(** [Simulation::run] with its last statement: the summary is printed when
    the loop over the trace has returned. *)
Definition run_and_print (csv : bool) (s : Simulation.t)
  : Simulation.outcome * list summary_output :=
  match Simulation.run s with
  | Simulation.Returned s' => (Simulation.Returned s', print_summary csv s')
  | o => (o, [])
  end.

(** The columns of a process line. *)
Definition line_pid (o : summary_output) : option Z :=
  match o with OutProcessLine _ pid _ _ _ _ => Some pid | _ => None end.

Definition line_accesses (o : summary_output) : nat :=
  match o with OutProcessLine _ _ n _ _ _ => n | _ => 0 end.

Definition line_faults (o : summary_output) : nat :=
  match o with OutProcessLine _ _ _ n _ _ => n | _ => 0 end.

Definition line_rss (o : summary_output) : nat :=
  match o with OutProcessLine _ _ _ _ _ n => n | _ => 0 end.

(** A simulation of two processes, 7 of three pages and 3 of two, with its
    trace, before [run]. *)
Definition example_two_processes : Simulation.t :=
  {| Simulation.flags :=
       {| Simulation.verbose := false; Simulation.strategy := Simulation.LRU;
          Simulation.max_frames := 2 |};
     Simulation.processes :=
       {[ 7%Z := example_process 3; 3%Z := example_process 2 ]};
     Simulation.virtual_addresses :=
       [example_access 0 0;
        {| Simulation.process_id := 3; Simulation.page := 1;
           Simulation.offset := 0 |};
        example_access 0 8; example_access 2 0; example_access 1 0];
     Simulation.frames := [];
     Simulation.free_frames := [];
     Simulation.time := 0;
     Simulation.page_faults := 0;
     Simulation.cout := [] |}.

(** Row [r] is the entry of page [i] of process [pid], and is resident. *)
Definition resident_at (s : Simulation.t) (pid : Z) (i : nat)
    (r : PageTable.Row) : Prop :=
  ∃ proc,
    Simulation.processes s !! pid = Some proc ∧
    PageTable.rows (Process.page_table proc) !! i = Some r ∧
    PageTable.present r = true.

(** No two resident pages of the simulation carry the same time stamp
    [key]. *)
Definition stamps_distinct (key : PageTable.Row → Z) (s : Simulation.t)
  : Prop :=
  ∀ pid i r pid' i' r',
    resident_at s pid i r → resident_at s pid' i' r' →
    key r = key r' → pid = pid' ∧ i = i'.

(* ===================================================================== *)
(** ** What one access has done *)
(* ===================================================================== *)



(** How the access [va], made in state [s] and ending in state [s'], stamps
    the rows of its process: the row of the page gets the clock as
    [last_accessed_at], and as [loaded_at] too when the access is a fault; a
    hit keeps [loaded_at], which lies before the clock; no other row changes
    a time stamp.  An access outside the table stamps nothing. *)
Definition stamp_change (s : Simulation.t) (va : Simulation.VirtualAddress)
    (s' : Simulation.t) : Prop :=
  ∃ proc proc',
    Simulation.processes s !! Simulation.process_id va = Some proc ∧
    Simulation.processes s' !! Simulation.process_id va = Some proc' ∧
    match classify s va with
    | None =>
        PageTable.rows (Process.page_table proc')
        = PageTable.rows (Process.page_table proc)
    | Some k =>
        ∃ r r',
          PageTable.rows (Process.page_table proc) !! Simulation.page va
          = Some r ∧
          PageTable.rows (Process.page_table proc') !! Simulation.page va
          = Some r' ∧
          PageTable.last_accessed_at r' = Simulation.time s ∧
          (if is_hit k
           then PageTable.loaded_at r' = PageTable.loaded_at r ∧
                (PageTable.loaded_at r < Simulation.time s)%Z
           else PageTable.loaded_at r' = Simulation.time s) ∧
          ∀ i x',
            i ≠ Simulation.page va →
            PageTable.rows (Process.page_table proc') !! i = Some x' →
            ∃ x,
              PageTable.rows (Process.page_table proc) !! i = Some x ∧
              PageTable.loaded_at x' = PageTable.loaded_at x ∧
              PageTable.last_accessed_at x' = PageTable.last_accessed_at x
    end.

(* ===================================================================== *)
(** ** Victim selection *)
(* ===================================================================== *)

Section VictimSelection.

Lemma oldest_loop_scan rest i index time :
  PageTable.oldest_loop rest i index time
  = min_scan PageTable.loaded_at rest i index time.
Proof.
  revert i index time.
  induction rest as [|r rest IH]; intros i index time; simpl; [done|].
  by rewrite !IH.
Qed.

Lemma lru_loop_scan rest i index time :
  PageTable.lru_loop rest i index time
  = min_scan PageTable.last_accessed_at rest i index time.
Proof.
  revert i index time.
  induction rest as [|r rest IH]; intros i index time; simpl; [done|].
  by rewrite !IH.
Qed.

Variable key : PageTable.Row → Z.

(** The scan either keeps its initial candidate, when no resident row is
    below the initial bound, or ends on the first resident row of least
    key. *)
Lemma min_scan_spec rest i index time :
  (min_scan key rest i index time = index ∧
   ∀ k r, rest !! k = Some r → PageTable.present r = true →
          (time ≤ key r)%Z)
  ∨ (∃ k r, min_scan key rest i index time = i + k ∧
       rest !! k = Some r ∧ PageTable.present r = true ∧
       (key r < time)%Z ∧
       ∀ k' r', rest !! k' = Some r' → PageTable.present r' = true →
                (key r ≤ key r')%Z ∧ (key r' = key r → k ≤ k')).
Proof.
  revert i index time.
  induction rest as [|r rest IH]; intros i index time; simpl.
  { left. split; [done|]. intros k r' Hk. by rewrite lookup_nil in Hk. }
  destruct ((key r <? time)%Z && PageTable.present r) eqn:Hc.
  - apply andb_true_iff in Hc as [Hlt%Z.ltb_lt Hp].
    destruct (IH (S i) i (key r))
      as [[Hv Hall]|(k & r1 & Hv & Hk & Hp1 & Hlt1 & Hmin)].
    + right. exists 0, r. rewrite Hv, Nat.add_0_r.
      split_and!; try done.
      intros [|k'] r' Hk' Hp'; simpl in Hk'.
      * injection Hk' as <-. split; [lia|done].
      * split; [by apply (Hall k')|lia].
    + right. exists (S k), r1. rewrite Hv.
      split_and!; try done; try lia.
      intros [|k'] r' Hk' Hp'; simpl in Hk'.
      * injection Hk' as <-. split; lia.
      * destruct (Hmin k' r' Hk' Hp') as [Hle Htie].
        split; [done|]. intros Heq. apply Htie in Heq. lia.
  - assert (PageTable.present r = true → (time ≤ key r)%Z) as Hr.
    { intros Hp. rewrite Hp, andb_true_r in Hc. by apply Z.ltb_ge. }
    destruct (IH (S i) index time)
      as [[Hv Hall]|(k & r1 & Hv & Hk & Hp1 & Hlt1 & Hmin)].
    + left. split; [done|].
      intros [|k'] r' Hk' Hp'; simpl in Hk'.
      * injection Hk' as <-. by apply Hr.
      * by apply (Hall k').
    + right. exists (S k), r1. rewrite Hv.
      split_and!; try done; try lia.
      intros [|k'] r' Hk' Hp'; simpl in Hk'.
      * injection Hk' as <-. specialize (Hr Hp'). split; lia.
      * destruct (Hmin k' r' Hk' Hp') as [Hle Htie].
        split; [done|]. intros Heq. apply Htie in Heq. lia.
Qed.

(** A resident row below the initial bound makes the scan end on the first
    minimum. *)
Lemma min_scan_first_minimum rows index time i r :
  rows !! i = Some r → PageTable.present r = true → (key r < time)%Z →
  first_minimum key rows (min_scan key rows 0 index time).
Proof.
  intros Hi Hp Hlt.
  destruct (min_scan_spec rows 0 index time)
    as [[_ Hall]|(k & rk & -> & Hk & Hpk & _ & Hmin)].
  - specialize (Hall i r Hi Hp). lia.
  - exists rk. simpl. split_and!; try done.
Qed.

(** Without such a row the scan returns its initial candidate. *)
Lemma min_scan_default rows i index time :
  (∀ k r, rows !! k = Some r → PageTable.present r = true →
          (time ≤ key r)%Z) →
  min_scan key rows i index time = index.
Proof.
  intros Hall.
  destruct (min_scan_spec rows i index time)
    as [[Hv _]|(k & rk & _ & Hk & Hpk & Hlt & _)]; [done|].
  specialize (Hall k rk Hk Hpk). lia.
Qed.

(** The scan started at row 0 with candidate 0 indexes a row of a
    non-empty table. *)
Lemma min_scan_in_range rows time :
  rows ≠ [] → min_scan key rows 0 0 time < length rows.
Proof.
  intros Hne.
  destruct (min_scan_spec rows 0 0 time)
    as [[-> _]|(k & rk & -> & Hk & _)].
  - destruct rows; [done|simpl; lia].
  - apply lookup_lt_Some in Hk. simpl. lia.
Qed.

End VictimSelection.

Lemma select_victim_scan st pt :
  select_victim st pt
  = min_scan (victim_key st) (PageTable.rows pt) 0 0 INT_MAX.
Proof.
  destruct st; simpl.
  - apply oldest_loop_scan.
  - apply lru_loop_scan.
Qed.

Lemma first_minimum_resident key rows v :
  first_minimum key rows v → resident rows v.
Proof. intros (rv & Hv & Hp & _). by exists rv. Qed.

(** Two first minima of the same table coincide. *)
Lemma first_minimum_unique key rows v w :
  first_minimum key rows v → first_minimum key rows w → v = w.
Proof.
  intros (rv & Hv & Hpv & Hminv) (rw & Hw & Hpw & Hminw).
  destruct (Hminv w rw Hw Hpw) as [Hle1 Htie1].
  destruct (Hminw v rv Hv Hpv) as [Hle2 Htie2].
  assert (key rv = key rw) as Heq by lia.
  specialize (Htie1 (eq_sym Heq)). specialize (Htie2 Heq). lia.
Qed.

(* ===================================================================== *)
(** ** One access *)
(* ===================================================================== *)

Lemma present_loop_count rows acc :
  PageTable.present_loop rows acc = acc + count_present rows.
Proof.
  revert acc. induction rows as [|r rows IH]; intros acc; simpl; [lia|].
  rewrite IH. destruct (PageTable.present r); lia.
Qed.

Lemma get_rss_count proc :
  Process.get_rss proc
  = count_present (PageTable.rows (Process.page_table proc)).
Proof. apply present_loop_count. Qed.

Lemma update_row_Some i f pt r :
  PageTable.rows pt !! i = Some r →
  Simulation.update_row i f pt
  = Some {| PageTable.rows := <[i := f r]> (PageTable.rows pt) |}.
Proof. intros Hr. unfold Simulation.update_row. by rewrite Hr. Qed.

Lemma update_row_None i f pt :
  PageTable.rows pt !! i = None → Simulation.update_row i f pt = None.
Proof. intros Hr. unfold Simulation.update_row. by rewrite Hr. Qed.

(** [handle_page_fault] in terms of [table_step], for a page that is not
    resident. *)
Lemma handle_page_fault_unfold s pid page proc r :
  Simulation.processes s !! pid = Some proc →
  PageTable.rows (Process.page_table proc) !! page = Some r →
  PageTable.present r = false →
  Simulation.handle_page_fault s pid page =
  match table_step (Simulation.flags s) (Simulation.time s) page
          (PageTable.rows (Process.page_table proc))
          (Simulation.free_frames s) with
  | None => None
  | Some (_, rows', free') =>
      Some
        {| Simulation.flags := Simulation.flags s;
           Simulation.processes :=
             <[pid := Process.set_page_table {| PageTable.rows := rows' |}
                        (Process.set_page_faults
                           (S (Process.page_faults proc)) proc)]>
               (Simulation.processes s);
           Simulation.virtual_addresses := Simulation.virtual_addresses s;
           Simulation.frames :=
             Simulation.frames s
             ++ [{| Simulation.frame_process := pid;
                    Simulation.frame_page := page |}];
           Simulation.free_frames := free';
           Simulation.time := Simulation.time s;
           Simulation.page_faults := S (Simulation.page_faults s);
           Simulation.cout :=
             Simulation.cout
               (Simulation.print_verbose Simulation.OutPageFault s) |}
  end.
Proof.
  intros Hproc Hr Hp.
  unfold Simulation.handle_page_fault, table_step.
  rewrite Hproc, Hr. simpl. rewrite Hp.
  rewrite get_rss_count.
  destruct s as [[vb st mf] procs vas frs free now pf out].
  destruct proc as [nb pgs [rows] ma pfs].
  assert (∀ (v : nat) (f : PageTable.Row → PageTable.Row),
            is_Some (<[v := f r]> rows !! page)) as Hin.
  { intros v f. apply lookup_lt_is_Some. rewrite length_insert.
    by eapply lookup_lt_Some. }
  destruct vb; simpl in *.
  all: destruct (count_present rows <? mf) eqn:Hbudget.
  all: try (destruct free as [|f free]; simpl; try done;
            rewrite (update_row_Some _ _ _ r) by done; done).
  all: destruct st; simpl.
  all: match goal with
       | |- context [Simulation.update_row ?v (Simulation.assign_present false) _] =>
           destruct (rows !! v) as [rv|] eqn:Hv;
           [ rewrite (update_row_Some _ _ _ rv) by done; simpl;
             rewrite list_lookup_insert_eq by (by eapply lookup_lt_Some);
             simpl;
             assert (is_Some (<[v := Simulation.assign_present false rv]> rows
                                !! page)) as [r' Hr']
               by (apply lookup_lt_is_Some; rewrite length_insert;
                   by eapply lookup_lt_Some);
             rewrite (update_row_Some _ _ _ r') by done; done
           | rewrite update_row_None by done; done ]
       end.
Qed.

Lemma table_step_fault fl now page rows free r k rows' free' :
  rows !! page = Some r → PageTable.present r = false →
  table_step fl now page rows free = Some (k, rows', free') →
  is_hit k = false.
Proof.
  intros Hr Hp. unfold table_step. rewrite Hr. simpl. rewrite Hp.
  destruct (_ <? _).
  - destruct (head free); simpl; [|done]. by intros [= <- _ _].
  - destruct (rows !! select_victim _ _); simpl; [|done].
    by intros [= <- _ _].
Qed.

(** [perform_memory_access] in terms of [table_step]. *)
Lemma perform_memory_access_unfold s va :
  Simulation.perform_memory_access s va =
  match Simulation.processes s !! Simulation.process_id va with
  | None => Simulation.Undefined
  | Some proc =>
      let rows := PageTable.rows (Process.page_table proc) in
      if decide (Simulation.page va < length rows) then
        match table_step (Simulation.flags s) (Simulation.time s)
                (Simulation.page va) rows (Simulation.free_frames s) with
        | None => Simulation.Undefined
        | Some (k, rows', free') =>
            match rows' !! Simulation.page va with
            | None => Simulation.Undefined
            | Some row =>
                conclude (state_after s va proc k rows' free')
                  (process_after proc k rows') row va
            end
        end
      else Simulation.Exited (state_invalid_page s va proc)
  end.
Proof.
  unfold Simulation.perform_memory_access, state_invalid_page.
  destruct (Simulation.processes s !! Simulation.process_id va)
    as [proc|] eqn:Hproc.
  2:{ unfold Simulation.print_verbose.
      destruct (Simulation.verbose _); simpl; by rewrite Hproc. }
  assert (Simulation.processes
            (Simulation.print_verbose (Simulation.OutVirtualAddress va) s)
            !! Simulation.process_id va = Some proc) as ->.
  { unfold Simulation.print_verbose. by destruct (Simulation.verbose _). }
  cbv zeta.
  unfold Process.is_valid_page.
  destruct s as [[vb st mf] procs vas frs free now pf out].
  destruct va as [pid page off].
  destruct proc as [nb pgs [rows] ma pfs].
  destruct (decide _) as [Hlt|Hge]; simpl in *.
  - rewrite (proj2 (Nat.ltb_lt _ _) Hlt). simpl.
    destruct (lookup_lt_is_Some_2 rows page Hlt) as [row Hrow].
    rewrite Hrow.
    destruct (PageTable.present row) eqn:Hp.
    + unfold table_step. rewrite Hrow. simpl. rewrite Hp.
      rewrite (update_row_Some _ _ _ row) by done. simpl.
      unfold Simulation.store_process.
      destruct vb; simpl; rewrite lookup_insert_eq; simpl;
        rewrite list_lookup_insert_eq by done;
        unfold conclude, state_after, process_after; simpl;
        rewrite insert_insert_eq; done.
    + destruct vb; simpl.
      all: erewrite (handle_page_fault_unfold _ pid page _ row);
        [|apply lookup_insert_eq|done|done].
      all: simpl.
      all: destruct (table_step _ now page rows free)
             as [[[k rows'] free']|] eqn:Hts; [|done].
      all: pose proof (table_step_fault _ _ _ _ _ _ _ _ _ Hrow Hp Hts) as Hk.
      all: simpl; rewrite lookup_insert_eq; simpl.
      all: destruct (rows' !! page) as [row'|]; [|done].
      all: unfold conclude, state_after, process_after; simpl.
      all: rewrite Hk, insert_insert_eq; done.
  - assert ((page <? length rows) = false) as ->
      by (apply Nat.ltb_ge; lia).
    done.
Qed.

(* ===================================================================== *)
(** ** The effect of an access on the page table and the free list *)
(* ===================================================================== *)

Lemma table_step_cases fl now page rows free k rows' free' :
  table_step fl now page rows free = Some (k, rows', free') →
  ∃ r, rows !! page = Some r ∧
    ((PageTable.present r = true ∧ k = Hit ∧
      rows' = <[page := Simulation.assign_last_accessed_at now r]> rows ∧
      free' = free)
     ∨ (PageTable.present r = false ∧
        count_present rows < Simulation.max_frames fl ∧
        ∃ f, head free = Some f ∧ k = Fault None ∧
             rows' = <[page := Simulation.loaded_row f now]> rows ∧
             free' = filter (λ x, x ≠ f) free)
     ∨ (PageTable.present r = false ∧
        Simulation.max_frames fl ≤ count_present rows ∧
        ∃ rv, rows !! select_victim (Simulation.strategy fl)
                        {| PageTable.rows := rows |} = Some rv ∧
              k = Fault (Some (select_victim (Simulation.strategy fl)
                                 {| PageTable.rows := rows |})) ∧
              rows' = <[page := Simulation.loaded_row (PageTable.frame rv) now]>
                        (<[select_victim (Simulation.strategy fl)
                             {| PageTable.rows := rows |}
                           := Simulation.assign_present false rv]> rows) ∧
              free' = free)).
Proof.
  unfold table_step.
  destruct (rows !! page) as [r|] eqn:Hr; simpl; [|done].
  intros H. exists r. split; [done|].
  destruct (PageTable.present r) eqn:Hp.
  { left. by simplify_eq. }
  right.
  destruct (Nat.ltb_spec (count_present rows) (Simulation.max_frames fl)).
  - left. destruct (head free) as [f|] eqn:Hf; simpl in H; [|done].
    split_and!; try done. exists f. by simplify_eq.
  - right.
    destruct (rows !! select_victim _ _) as [rv|] eqn:Hv; simpl in H; [|done].
    split_and!; try done. exists rv. by simplify_eq.
Qed.

Lemma table_step_length fl now page rows free k rows' free' :
  table_step fl now page rows free = Some (k, rows', free') →
  length rows' = length rows.
Proof.
  intros (r & Hr & [(_ & _ & -> & _)|[(_ & _ & f & _ & _ & -> & _)
                   |(_ & _ & rv & _ & _ & -> & _)]])%table_step_cases;
    by rewrite ?length_insert.
Qed.

Lemma count_present_insert rows i r r' :
  rows !! i = Some r →
  count_present (<[i := r']> rows) + Nat.b2n (PageTable.present r)
  = count_present rows + Nat.b2n (PageTable.present r').
Proof.
  revert i. induction rows as [|x rows IH]; intros [|i] Hi; simpl in *;
    try done.
  - injection Hi as ->.
    destruct (PageTable.present r), (PageTable.present r'); simpl; lia.
  - specialize (IH i Hi). lia.
Qed.

Lemma count_present_resident rows :
  0 < count_present rows → ∃ i, resident rows i.
Proof.
  induction rows as [|x rows IH]; simpl; [lia|].
  destruct (PageTable.present x) eqn:Hx.
  - intros _. exists 0, x. by split.
  - intros [i (r & Hi & Hr)]%IH. exists (S i), r. by split.
Qed.

Lemma count_present_absent rows :
  Forall absent rows → count_present rows = 0.
Proof.
  induction 1 as [|x rows Hx _ IH]; simpl; [done|].
  unfold absent in Hx. by rewrite Hx, IH.
Qed.

(** When every resident row is stamped before [now] and [now] has not passed
    [INT_MAX], the victim of either strategy is the first minimum of its
    key, as soon as some row is resident. *)
Lemma select_victim_first_minimum st rows now i :
  Forall (stamped_before now) rows → (now ≤ INT_MAX)%Z →
  resident rows i →
  first_minimum (victim_key st) rows
    (select_victim st {| PageTable.rows := rows |}).
Proof.
  intros Hst Hnow (r & Hi & Hp).
  rewrite select_victim_scan. simpl.
  apply (min_scan_first_minimum _ _ _ _ i r); [done..|].
  rewrite Forall_lookup in Hst.
  destruct (Hst i r Hi Hp). destruct st; simpl; lia.
Qed.

Section TableStep.

Context (fl : Simulation.FlagOptions) (now : Z) (page : nat).
Context (rows : list PageTable.Row) (free : list nat).
Context (k : access_kind) (rows' : list PageTable.Row) (free' : list nat).
Hypothesis Hstep : table_step fl now page rows free = Some (k, rows', free').

Lemma table_step_stamped :
  Forall (stamped_before now) rows →
  Forall (stamped_before (now + 1)) rows'.
Proof.
  intros Hst.
  assert (Forall (stamped_before (now + 1)) rows) as Hst'.
  { eapply Forall_impl; [done|]. intros r Hr Hp.
    destruct (Hr Hp). lia. }
  destruct (table_step_cases _ _ _ _ _ _ _ _ Hstep)
    as (r & Hr & [(Hp & _ & -> & _)|[(_ & _ & f & _ & _ & -> & _)
                 |(_ & _ & rv & Hv & _ & -> & _)]]).
  - apply Forall_insert; [done|]. intros _. simpl.
    rewrite Forall_lookup in Hst. destruct (Hst _ _ Hr Hp). lia.
  - apply Forall_insert; [done|]. intros _. simpl. lia.
  - apply Forall_insert; [apply Forall_insert; [done|]|].
    + by intros [=].
    + intros _. simpl. lia.
Qed.

Lemma table_step_ordered :
  Forall (stamped_before now) rows →
  Forall ordered rows → Forall ordered rows'.
Proof.
  intros Hst Hord.
  destruct (table_step_cases _ _ _ _ _ _ _ _ Hstep)
    as (r & Hr & [(Hp & _ & -> & _)|[(_ & _ & f & _ & _ & -> & _)
                 |(_ & _ & rv & Hv & _ & -> & _)]]).
  - apply Forall_insert; [done|]. unfold ordered. simpl.
    rewrite Forall_lookup in Hst. destruct (Hst _ _ Hr Hp). lia.
  - apply Forall_insert; [done|]. unfold ordered. simpl. lia.
  - apply Forall_insert; [apply Forall_insert; [done|]|].
    + rewrite Forall_lookup in Hord. apply (Hord _ _ Hv).
    + unfold ordered. simpl. lia.
Qed.

(** The number of resident rows after the access, in each case. *)
Lemma table_step_count :
  Forall (stamped_before now) rows → (now ≤ INT_MAX)%Z →
  1 ≤ Simulation.max_frames fl →
  match k with
  | Hit => count_present rows' = count_present rows ∧ free' = free
  | Fault None =>
      count_present rows < Simulation.max_frames fl ∧
      count_present rows' = S (count_present rows) ∧
      ∃ f, head free = Some f ∧ free' = filter (λ x, x ≠ f) free
  | Fault (Some v) =>
      Simulation.max_frames fl ≤ count_present rows ∧
      count_present rows' = count_present rows ∧ free' = free ∧
      first_minimum (victim_key (Simulation.strategy fl)) rows v ∧
      ¬ resident rows' v
  end.
Proof.
  intros Hst Hnow Hmax.
  destruct (table_step_cases _ _ _ _ _ _ _ _ Hstep)
    as (r & Hr & [(Hp & -> & -> & ->)|[(Hp & Hlt & f & Hf & -> & -> & ->)
                 |(Hp & Hge & rv & Hv & -> & -> & ->)]]).
  - split; [|done].
    pose proof (count_present_insert rows page r
                  (Simulation.assign_last_accessed_at now r) Hr) as Hc.
    simpl in Hc. lia.
  - split_and!; [done| |by exists f].
    pose proof (count_present_insert rows page r
                  (Simulation.loaded_row f now) Hr) as Hc.
    simpl in Hc. rewrite Hp in Hc. simpl in Hc. lia.
  - set (v := select_victim _ _) in *.
    destruct (count_present_resident rows) as [i Hi]; [lia|].
    pose proof (select_victim_first_minimum (Simulation.strategy fl)
                  rows now i Hst Hnow Hi) as Hmin.
    fold v in Hmin.
    destruct Hmin as (rv' & Hv' & Hpv & Hmin).
    assert (rv' = rv) as -> by congruence.
    assert (v ≠ page) as Hne by (intros ->; congruence).
    split_and!; try done.
    + pose proof (count_present_insert rows v rv
                    (Simulation.assign_present false rv) Hv) as Hc1.
      assert (<[v := Simulation.assign_present false rv]> rows !! page
              = Some r) as Hr' by (by rewrite list_lookup_insert_ne).
      pose proof (count_present_insert _ page r
                    (Simulation.loaded_row (PageTable.frame rv) now) Hr')
        as Hc2.
      simpl in Hc1, Hc2. rewrite Hpv in Hc1. rewrite Hp in Hc2.
      simpl in Hc1, Hc2. lia.
    + by exists rv.
    + intros (x & Hx & Hpx).
      rewrite list_lookup_insert_ne in Hx by done.
      rewrite list_lookup_insert_eq in Hx by (by eapply lookup_lt_Some).
      by simplify_eq.
Qed.

Lemma table_step_budget :
  Forall (stamped_before now) rows → (now ≤ INT_MAX)%Z →
  1 ≤ Simulation.max_frames fl →
  count_present rows ≤ Simulation.max_frames fl →
  count_present rows' ≤ Simulation.max_frames fl.
Proof.
  intros Hst Hnow Hmax Hle.
  pose proof (table_step_count Hst Hnow Hmax) as Hc.
  destruct k as [|[v|]].
  - destruct Hc as [Hc _]. lia.
  - destruct Hc as (_ & Hc & _). lia.
  - destruct Hc as (? & Hc & _). lia.
Qed.

End TableStep.

(* ===================================================================== *)
(** ** From one access to the whole trace *)
(* ===================================================================== *)

(** [conclude] only prints. *)
Lemma conclude_state s proc row va s' :
  state_of (conclude s proc row va) = Some s' →
  Simulation.flags s' = Simulation.flags s ∧
  Simulation.processes s' = Simulation.processes s ∧
  Simulation.free_frames s' = Simulation.free_frames s ∧
  Simulation.time s' = Simulation.time s ∧
  Simulation.page_faults s' = Simulation.page_faults s.
Proof.
  unfold conclude.
  destruct (Simulation.verbose _).
  - destruct (_ !! _); [|done].
    destruct (negb _); simpl; intros [= <-]; done.
  - simpl. by intros [= <-].
Qed.

(** The state an access ends in, when its behaviour is defined. *)
Lemma perform_memory_access_step s va s' :
  state_of (Simulation.perform_memory_access s va) = Some s' →
  Simulation.flags s' = Simulation.flags s ∧
  Simulation.time s' = Simulation.time s ∧
  ∃ proc,
    Simulation.processes s !! Simulation.process_id va = Some proc ∧
    ((length (PageTable.rows (Process.page_table proc)) ≤ Simulation.page va ∧
      Simulation.perform_memory_access s va = Simulation.Exited s' ∧
      Simulation.processes s'
      = <[Simulation.process_id va :=
            Process.set_memory_accesses (S (Process.memory_accesses proc))
              proc]> (Simulation.processes s) ∧
      Simulation.free_frames s' = Simulation.free_frames s ∧
      Simulation.page_faults s' = Simulation.page_faults s)
     ∨ (∃ k rows' free',
          table_step (Simulation.flags s) (Simulation.time s)
            (Simulation.page va) (PageTable.rows (Process.page_table proc))
            (Simulation.free_frames s) = Some (k, rows', free') ∧
          Simulation.processes s'
          = <[Simulation.process_id va := process_after proc k rows']>
              (Simulation.processes s) ∧
          Simulation.free_frames s' = free' ∧
          Simulation.page_faults s'
          = if is_hit k then Simulation.page_faults s
            else S (Simulation.page_faults s))).
Proof.
  rewrite perform_memory_access_unfold.
  destruct (Simulation.processes s !! _) as [proc|] eqn:Hproc; [|done].
  cbv zeta. destruct (decide _) as [Hlt|Hge].
  - destruct (table_step _ _ _ _ _) as [[[k rows'] free']|] eqn:Hts; [|done].
    destruct (rows' !! _) as [row|]; [|done].
    intros (Hfl & Hpr & Hff & Htm & Hpf)%conclude_state.
    split_and!; [done..|]. exists proc. split; [done|]. right.
    exists k, rows', free'. by split_and!.
  - simpl. intros [= <-].
    unfold state_invalid_page, Simulation.print_verbose.
    destruct (Simulation.verbose _); simpl;
      (split_and!; [done..|]); exists proc; (split; [done|]); left;
      split_and!; try done; lia.
Qed.

(** A property of the rows of every process that each [table_step] carries
    from [P] to [Q] is carried by the access. *)
Lemma perform_memory_access_rows (P Q : list PageTable.Row → Prop) s va s' :
  (∀ rows, P rows → Q rows) →
  (∀ page rows free k rows' free',
     P rows →
     table_step (Simulation.flags s) (Simulation.time s) page rows free
     = Some (k, rows', free') → Q rows') →
  map_Forall (λ _ proc, P (PageTable.rows (Process.page_table proc)))
    (Simulation.processes s) →
  state_of (Simulation.perform_memory_access s va) = Some s' →
  map_Forall (λ _ proc, Q (PageTable.rows (Process.page_table proc)))
    (Simulation.processes s').
Proof.
  intros HPQ Hstep HP
    (_ & _ & proc & Hproc &
     [(_ & _ & -> & _)|(k & rows' & free' & Hts & -> & _)])
    %perform_memory_access_step.
  - apply map_Forall_insert_2.
    + simpl. apply HPQ. by apply (HP _ _ Hproc).
    + eapply map_Forall_impl; [done|]. simpl. auto.
  - apply map_Forall_insert_2.
    + simpl. eapply Hstep; [|done]. by apply (HP _ _ Hproc).
    + eapply map_Forall_impl; [done|]. simpl. auto.
Qed.

(** Induction along the trace.  [I n] holds before an access when [n]
    accesses remain; [J] is what is shown of every state the loop ends in. *)
Lemma access_loop_invariant (I : nat → Simulation.t → Prop)
    (J : Simulation.t → Prop) :
  (∀ n s va s',
     I (S n) s → Simulation.perform_memory_access s va = Simulation.Returned s' →
     I n (Simulation.set_time (Simulation.time s' + 1)%Z s')) →
  (∀ n s va s',
     I (S n) s → Simulation.perform_memory_access s va = Simulation.Exited s' →
     J s') →
  (∀ s, I 0 s → J s) →
  ∀ trace s0 s,
    I (length trace) s0 →
    state_of (Simulation.access_loop s0 trace) = Some s → J s.
Proof.
  intros Hret Hexit Hend trace.
  induction trace as [|va trace IH]; intros s0 s HI; simpl.
  - intros [= <-]. by apply Hend.
  - destruct (Simulation.perform_memory_access s0 va) as [s1|s1|] eqn:Hstep;
      simpl.
    + apply IH. by eapply Hret.
    + intros [= <-]. by eapply Hexit.
    + done.
Qed.

Lemma total_present_insert (m : gmap Z Process.t) pid proc proc' :
  m !! pid = Some proc →
  map_fold (λ _ p acc, Process.get_rss p + acc) 0 (<[pid := proc']> m)
  + Process.get_rss proc
  = map_fold (λ _ p acc, Process.get_rss p + acc) 0 m
    + Process.get_rss proc'.
Proof.
  intros Hm.
  rewrite <-(insert_delete_eq m pid proc').
  rewrite map_fold_insert_L.
  - rewrite (map_fold_delete_L _ _ pid proc m); [lia| |done].
    intros. lia.
  - intros. lia.
  - apply lookup_delete_eq.
Qed.

(* ===================================================================== *)
(** ** Invariants of the run *)
(* ===================================================================== *)

Lemma all_rows_absent_stamped now s :
  all_rows absent s → all_rows (stamped_before now) s.
Proof.
  intros Habs pid proc Hproc.
  eapply Forall_impl; [by apply (Habs pid)|].
  unfold absent, stamped_before. congruence.
Qed.

Lemma all_rows_absent_budget s : all_rows absent s → within_budget s.
Proof.
  intros Habs pid proc Hproc.
  rewrite get_rss_count, count_present_absent; [lia|].
  by apply (Habs pid).
Qed.

(** [classify] names the path that [table_step] takes. *)
Lemma table_step_classify s va proc k rows' free' :
  Simulation.processes s !! Simulation.process_id va = Some proc →
  table_step (Simulation.flags s) (Simulation.time s) (Simulation.page va)
    (PageTable.rows (Process.page_table proc)) (Simulation.free_frames s)
  = Some (k, rows', free') →
  classify s va = Some k.
Proof.
  intros Hproc
    (r & Hr & [(Hp & -> & _)|[(Hp & Hlt & f & _ & -> & _)
              |(Hp & Hge & rv & _ & -> & _)]])%table_step_cases;
    unfold classify; rewrite Hproc; simpl; rewrite Hr; simpl; rewrite Hp;
    try done; rewrite get_rss_count.
  - by rewrite (proj2 (Nat.ltb_lt _ _) Hlt).
  - rewrite (proj2 (Nat.ltb_ge _ _) Hge). by destruct proc as [? ? [?] ? ?].
Qed.

Lemma classify_invalid_page s va proc :
  Simulation.processes s !! Simulation.process_id va = Some proc →
  length (PageTable.rows (Process.page_table proc)) ≤ Simulation.page va →
  classify s va = None.
Proof.
  intros Hproc Hlen. unfold classify. rewrite Hproc. simpl.
  by rewrite lookup_ge_None_2.
Qed.

(** The time-stamp invariant is kept by every access and the tick that
    follows it. *)
Lemma perform_memory_access_stamped s va s' :
  all_rows (stamped_before (Simulation.time s)) s →
  state_of (Simulation.perform_memory_access s va) = Some s' →
  all_rows (stamped_before (Simulation.time s' + 1)) s'.
Proof.
  intros Hst Hs'.
  pose proof (perform_memory_access_step _ _ _ Hs') as (_ & -> & _).
  revert Hst Hs'. unfold all_rows.
  apply (perform_memory_access_rows
           (Forall (stamped_before (Simulation.time s)))
           (Forall (stamped_before (Simulation.time s + 1)))).
  - intros rows Hrows. eapply Forall_impl; [done|].
    intros r Hr Hp. destruct (Hr Hp). lia.
  - intros page rows free k rows' free' Hrows Hts.
    by eapply table_step_stamped.
Qed.

Lemma perform_memory_access_ordered s va s' :
  all_rows (stamped_before (Simulation.time s)) s →
  all_rows ordered s →
  state_of (Simulation.perform_memory_access s va) = Some s' →
  all_rows ordered s'.
Proof.
  intros Hst Hord.
  assert (map_Forall
            (λ _ proc,
               Forall (stamped_before (Simulation.time s))
                 (PageTable.rows (Process.page_table proc)) ∧
               Forall ordered (PageTable.rows (Process.page_table proc)))
            (Simulation.processes s)) as Hboth.
  { intros pid proc Hproc. split; [by apply (Hst pid)|by apply (Hord pid)]. }
  revert Hboth. unfold all_rows.
  apply (perform_memory_access_rows
           (λ rows, Forall (stamped_before (Simulation.time s)) rows ∧
                    Forall ordered rows)
           (Forall ordered)).
  - by intros rows [_ ?].
  - intros page rows free k rows' free' [Hrows Ho] Hts.
    by eapply table_step_ordered.
Qed.

Lemma perform_memory_access_budget s va s' :
  all_rows (stamped_before (Simulation.time s)) s →
  (Simulation.time s ≤ INT_MAX)%Z →
  1 ≤ Simulation.max_frames (Simulation.flags s) →
  within_budget s →
  state_of (Simulation.perform_memory_access s va) = Some s' →
  within_budget s'.
Proof.
  intros Hst Hnow Hmax Hbud Hs'.
  pose proof (perform_memory_access_step _ _ _ Hs') as (Hfl & _ & _).
  assert (map_Forall
            (λ _ proc,
               Forall (stamped_before (Simulation.time s))
                 (PageTable.rows (Process.page_table proc)) ∧
               count_present (PageTable.rows (Process.page_table proc))
               ≤ Simulation.max_frames (Simulation.flags s))
            (Simulation.processes s)) as Hboth.
  { intros pid proc Hproc. split; [by apply (Hst pid)|].
    rewrite <-get_rss_count. by apply (Hbud pid). }
  unfold within_budget. rewrite Hfl.
  eapply map_Forall_impl;
    [|intros pid proc Hc; rewrite get_rss_count; exact Hc].
  revert Hboth Hs'.
  apply (perform_memory_access_rows
           (λ rows, Forall (stamped_before (Simulation.time s)) rows ∧
                    count_present rows
                    ≤ Simulation.max_frames (Simulation.flags s))
           (λ rows, count_present rows
                    ≤ Simulation.max_frames (Simulation.flags s))).
  - by intros rows [_ ?].
  - intros page rows free k rows' free' [Hrows Hc] Hts.
    by eapply table_step_budget.
Qed.

(** [std::list::remove] of the front element of a duplicate-free list drops
    exactly that element. *)
Lemma remove_front (f : nat) (l : list nat) :
  NoDup (f :: l) → filter (λ x, x ≠ f) (f :: l) = l.
Proof.
  intros [Hf Hl]%NoDup_cons.
  rewrite filter_cons_False by (intros ?; done).
  clear Hl. induction l as [|x l IH]; [done|].
  apply not_elem_of_cons in Hf as [Hne Hf].
  rewrite filter_cons_True by done. by rewrite IH.
Qed.

Lemma resident_count_pos rows i : resident rows i → 0 < count_present rows.
Proof.
  revert i. induction rows as [|x rows IH]; intros [|i] (r & Hi & Hp);
    simpl in *; try done.
  - injection Hi as ->. rewrite Hp. lia.
  - assert (0 < count_present rows) by (apply (IH i); by exists r). lia.
Qed.

(** How an access changes the resident set of its process. *)
Lemma perform_memory_access_resident_change s va s' :
  all_rows (stamped_before (Simulation.time s)) s →
  (Simulation.time s ≤ INT_MAX)%Z →
  1 ≤ Simulation.max_frames (Simulation.flags s) →
  state_of (Simulation.perform_memory_access s va) = Some s' →
  resident_change s va s'.
Proof.
  intros Hst Hnow Hmax
    (_ & _ & proc & Hproc &
     [(Hlen & _ & Hs' & _)|(k & rows' & free' & Hts & Hs' & _)])
    %perform_memory_access_step.
  - exists proc, (Process.set_memory_accesses
                    (S (Process.memory_accesses proc)) proc).
    rewrite Hs', lookup_insert_eq.
    by rewrite (classify_invalid_page _ _ proc).
  - exists proc, (process_after proc k rows').
    rewrite Hs', lookup_insert_eq.
    rewrite (table_step_classify _ _ _ _ _ _ Hproc Hts).
    rewrite !get_rss_count. simpl.
    pose proof (table_step_count _ _ _ _ _ _ _ _ Hts (Hst _ _ Hproc)
                  Hnow Hmax) as Hc.
    split_and!; try done.
    destruct k as [|[v|]].
    + by destruct Hc.
    + destruct Hc as (? & ? & _ & Hmin & Hout).
      split_and!; try done. by eapply first_minimum_resident.
    + by destruct Hc as (? & ? & _).
Qed.

(** How an access changes the free list and the total number of resident
    pages. *)
Lemma perform_memory_access_frame_change s va s' :
  all_rows (stamped_before (Simulation.time s)) s →
  (Simulation.time s ≤ INT_MAX)%Z →
  1 ≤ Simulation.max_frames (Simulation.flags s) →
  NoDup (Simulation.free_frames s) →
  state_of (Simulation.perform_memory_access s va) = Some s' →
  frame_change s va s'.
Proof.
  intros Hst Hnow Hmax Hnd
    (_ & _ & proc & Hproc &
     [(Hlen & _ & Hs' & Hff & _)|(k & rows' & free' & Hts & Hs' & Hff & _)])
    %perform_memory_access_step; unfold frame_change, total_present.
  - rewrite (classify_invalid_page _ _ proc) by done.
    split; [done|]. rewrite Hs'.
    pose proof (total_present_insert _ _ _
                  (Process.set_memory_accesses
                     (S (Process.memory_accesses proc)) proc) Hproc) as Ht.
    rewrite !get_rss_count in Ht. simpl in Ht. lia.
  - rewrite (table_step_classify _ _ _ _ _ _ Hproc Hts), Hs', Hff.
    pose proof (total_present_insert _ _ _ (process_after proc k rows')
                  Hproc) as Ht.
    rewrite !get_rss_count in Ht. simpl in Ht.
    pose proof (table_step_count _ _ _ _ _ _ _ _ Hts (Hst _ _ Hproc)
                  Hnow Hmax) as Hc.
    destruct k as [|[v|]].
    + destruct Hc as [Hc ->]. split; [done|lia].
    + destruct Hc as (_ & Hc & -> & _). split; [done|lia].
    + destruct Hc as (_ & Hc & f & [l Hl]%head_Some & ->).
      split; [|lia]. exists f. rewrite Hl in Hnd |- *.
      by rewrite remove_front.
Qed.

Lemma frame_change_accounting s va s' :
  frame_change s va s' →
  NoDup (Simulation.free_frames s) →
  NoDup (Simulation.free_frames s') ∧
  total_present s' + length (Simulation.free_frames s')
  = total_present s + length (Simulation.free_frames s).
Proof.
  unfold frame_change. intros Hch Hnd.
  destruct (classify s va) as [[|[v|]]|].
  - destruct Hch as [-> ->]. done.
  - destruct Hch as [-> ->]. done.
  - destruct Hch as [[f Hf] ->]. rewrite Hf in Hnd |- *.
    apply NoDup_cons in Hnd as [_ Hnd]. split; [done|]. simpl. lia.
  - destruct Hch as [-> ->]. done.
Qed.

(** The loop over a trace passes through the state that the loop over any
    of its prefixes returns. *)
Lemma access_loop_app s t1 t2 :
  Simulation.access_loop s (t1 ++ t2) =
  match Simulation.access_loop s t1 with
  | Simulation.Returned s1 => Simulation.access_loop s1 t2
  | o => o
  end.
Proof.
  revert s. induction t1 as [|va t1 IH]; intros s; simpl; [done|].
  destruct (Simulation.perform_memory_access s va); by rewrite ?IH.
Qed.

Lemma access_loop_flags trace s0 s :
  state_of (Simulation.access_loop s0 trace) = Some s →
  Simulation.flags s = Simulation.flags s0.
Proof.
  revert s0. induction trace as [|va trace IH]; intros s0; simpl.
  - by intros [= <-].
  - destruct (Simulation.perform_memory_access s0 va) as [s1|s1|] eqn:Hstep;
      simpl; [| |done].
    + intros ->%IH. simpl.
      assert (state_of (Simulation.perform_memory_access s0 va) = Some s1)
        as (Hfl & _)%perform_memory_access_step by (by rewrite Hstep).
      done.
    + intros [= <-].
      assert (state_of (Simulation.perform_memory_access s0 va) = Some s1)
        as (Hfl & _)%perform_memory_access_step by (by rewrite Hstep).
      done.
Qed.

Lemma run_invariant_initial s0 n :
  all_rows absent s0 →
  1 ≤ Simulation.max_frames (Simulation.flags s0) →
  (Simulation.time s0 + Z.of_nat n ≤ INT_MAX)%Z →
  run_invariant n s0.
Proof.
  intros Habs Hmax Htime. split_and!; try done.
  - by apply all_rows_absent_stamped.
  - by apply all_rows_absent_budget.
Qed.

Lemma run_invariant_step n s va s' :
  run_invariant (S n) s →
  Simulation.perform_memory_access s va = Simulation.Returned s' →
  run_invariant n (Simulation.set_time (Simulation.time s' + 1)%Z s').
Proof.
  intros (Hst & Hbud & Hmax & Htime) Hstep.
  assert (state_of (Simulation.perform_memory_access s va) = Some s') as Hs'
    by (by rewrite Hstep).
  pose proof (perform_memory_access_step _ _ _ Hs') as (Hfl & Htm & _).
  split_and!.
  - exact (perform_memory_access_stamped s va s' Hst Hs').
  - assert (within_budget s') as Hbud'; [|exact Hbud'].
    apply (perform_memory_access_budget s va); try done. lia.
  - simpl. by rewrite Hfl.
  - simpl. lia.
Qed.

(** The invariant holds at every state the loop passes through. *)
Lemma run_invariant_prefix prefix m s0 s :
  run_invariant (length prefix + m) s0 →
  Simulation.access_loop s0 prefix = Simulation.Returned s →
  run_invariant m s.
Proof.
  revert s0. induction prefix as [|va prefix IH]; intros s0 HI; simpl.
  - by intros [= <-].
  - destruct (Simulation.perform_memory_access s0 va) as [s1|s1|] eqn:Hstep;
      try done.
    apply IH. by eapply run_invariant_step.
Qed.

Lemma frames_accounted_step n s va s' :
  run_invariant (S n) s → frames_accounted s →
  state_of (Simulation.perform_memory_access s va) = Some s' →
  frames_accounted s'.
Proof.
  intros (Hst & Hbud & Hmax & Htime) [Hnd Hacc] Hs'.
  assert (frame_change s va s') as Hch.
  { apply perform_memory_access_frame_change; try done. lia. }
  destruct (frame_change_accounting _ _ _ Hch Hnd) as [Hnd' Hacc'].
  split; [done|]. lia.
Qed.

Lemma frames_accounted_prefix prefix m s0 s :
  run_invariant (length prefix + m) s0 → frames_accounted s0 →
  Simulation.access_loop s0 prefix = Simulation.Returned s →
  frames_accounted s.
Proof.
  revert s0. induction prefix as [|va prefix IH]; intros s0 HI Hacc; simpl.
  - by intros [= <-].
  - destruct (Simulation.perform_memory_access s0 va) as [s1|s1|] eqn:Hstep;
      try done.
    apply IH.
    + by eapply run_invariant_step.
    + assert (frames_accounted s1) as Hacc1; [|exact Hacc1].
      apply (frames_accounted_step (length prefix + m) s0 va); [done..|].
      by rewrite Hstep.
Qed.

(** Every state the loop ends in is within budget and accounted. *)
Lemma access_loop_accounted trace s0 s :
  run_invariant (length trace) s0 → frames_accounted s0 →
  state_of (Simulation.access_loop s0 trace) = Some s →
  within_budget s ∧ frames_accounted s.
Proof.
  intros Hinv0 Hacc0.
  apply (access_loop_invariant
           (λ n s, run_invariant n s ∧ frames_accounted s)
           (λ s, within_budget s ∧ frames_accounted s)).
  - intros n s1 va s' [Hinv Hacc] Hstep. split.
    + by eapply run_invariant_step.
    + assert (frames_accounted s') as Hacc'; [|exact Hacc'].
      apply (frames_accounted_step n s1 va); [done..|].
      by rewrite Hstep.
  - intros n s1 va s' [Hinv Hacc] Hstep.
    assert (state_of (Simulation.perform_memory_access s1 va) = Some s')
      as Hs' by (by rewrite Hstep).
    split; [|by apply (frames_accounted_step n s1 va)].
    destruct Hinv as (Hst & Hbud & Hmax & Htime).
    apply (perform_memory_access_budget s1 va); try done. lia.
  - by intros s1 [(_ & Hbud & _) Hacc].
  - done.
Qed.

Lemma frames_accounted_initial s0 :
  all_rows absent s0 → Simulation.free_frames s0 = [] →
  Simulation.free_frames (Simulation.initialize_free_frames s0)
  = seq 0 Simulation.NUM_FRAMES ∧
  frames_accounted (Simulation.initialize_free_frames s0).
Proof.
  intros Habs Hfree.
  assert (Simulation.free_frames (Simulation.initialize_free_frames s0)
          = seq 0 Simulation.NUM_FRAMES) as Hinit.
  { unfold Simulation.initialize_free_frames, Simulation.NUM_FRAMES.
    cbn [Simulation.free_frames Simulation.set_free_frames].
    rewrite Hfree. apply app_nil_l. }
  unfold frames_accounted. rewrite Hinit.
  split_and!; [done|apply NoDup_seq|].
  rewrite length_seq. unfold total_present.
  change (Simulation.processes (Simulation.initialize_free_frames s0))
    with (Simulation.processes s0).
  assert (map_fold (λ _ proc acc, Process.get_rss proc + acc) 0
            (Simulation.processes s0) = 0) as ->; [|done].
  revert Habs. unfold all_rows.
  generalize (Simulation.processes s0). intros m.
  induction m as [|pid proc m Hm Hfold IH] using map_first_key_ind.
  - by rewrite map_fold_empty.
  - intros [Hproc Hall]%map_Forall_insert; [|done].
    rewrite map_fold_insert_first_key by done.
    rewrite IH by done.
    rewrite get_rss_count, count_present_absent by done. done.
Qed.

(* ===================================================================== *)
(** ** Victim selection: FIFO, LRU and the empty resident set *)
(* ===================================================================== *)

(** Under either strategy: when some resident row has its key below
    [INT_MAX], the victim is the first minimum of the key, and an eviction
    in [handle_page_fault] removes exactly that row from the resident set. *)
Lemma select_victim_spec st pt i r :
  PageTable.rows pt !! i = Some r → PageTable.present r = true →
  (victim_key st r < INT_MAX)%Z →
  first_minimum (victim_key st) (PageTable.rows pt) (select_victim st pt) ∧
  ∀ s pid page proc r0 s',
    Simulation.strategy (Simulation.flags s) = st →
    Simulation.processes s !! pid = Some proc →
    Process.page_table proc = pt →
    PageTable.rows pt !! page = Some r0 → PageTable.present r0 = false →
    Simulation.max_frames (Simulation.flags s) ≤ Process.get_rss proc →
    Simulation.handle_page_fault s pid page = Some s' →
    ∃ proc',
      Simulation.processes s' !! pid = Some proc' ∧
      ∀ k, resident (PageTable.rows pt) k ∧
           ¬ resident (PageTable.rows (Process.page_table proc')) k
           ↔ k = select_victim st pt.
Proof.
  intros Hi Hp Hlt.
  assert (first_minimum (victim_key st) (PageTable.rows pt)
            (select_victim st pt)) as Hmin.
  { rewrite select_victim_scan. by eapply min_scan_first_minimum. }
  split; [done|].
  intros s pid page proc r0 s' Hst Hproc Hpt Hr0 Hp0 Hfull.
  subst pt.
  rewrite (handle_page_fault_unfold s pid page proc r0) by done.
  destruct (table_step _ _ _ _ _) as [[[kind rows'] free']|] eqn:Hts;
    [|done].
  intros [= <-]. simpl. rewrite lookup_insert_eq. eexists; split; [done|].
  simpl.
  destruct (table_step_cases _ _ _ _ _ _ _ _ Hts)
    as (r1 & Hr1 & [(Hp1 & _)|[(_ & Hc & _)|(_ & _ & rv & Hv & _ & -> & _)]]).
  { congruence. }
  { rewrite get_rss_count in Hfull. lia. }
  rewrite Hst in Hv |- *.
  destruct (Process.page_table proc) as [rows] eqn:Hrows. simpl in *.
  set (v := select_victim st {| PageTable.rows := rows |}) in *.
  destruct Hmin as (rv' & Hv' & Hpv & _).
  assert (rv' = rv) as -> by congruence.
  assert (v ≠ page) as Hne by (intros ->; congruence).
  intros k. split.
  - intros [(rk & Hk & Hpk) Hout].
    destruct (decide (k = v)) as [|Hkv]; [done|].
    destruct Hout. exists rk. split; [|done].
    assert (k ≠ page) by (intros ->; congruence).
    by rewrite !list_lookup_insert_ne.
  - intros ->. split; [by exists rv|].
    intros (x & Hx & Hpx).
    rewrite list_lookup_insert_ne in Hx by done.
    rewrite list_lookup_insert_eq in Hx by (by eapply lookup_lt_Some).
    by simplify_eq.
Qed.

(** C1, as amended: for every page table with a present entry whose
    [loaded_at] is below [INT_MAX], [get_oldest_page] returns the present
    entry of minimal [loaded_at], the lowest index winning ties; and a FIFO
    eviction in [handle_page_fault], for a page that is not resident of a
    process at its frame budget, removes exactly that entry from the
    resident set, so no evicted page was loaded after another resident
    page. *)
Theorem get_oldest_page_first_minimum pt i r :
  PageTable.rows pt !! i = Some r → PageTable.present r = true →
  (PageTable.loaded_at r < INT_MAX)%Z →
  first_minimum PageTable.loaded_at (PageTable.rows pt)
    (PageTable.get_oldest_page pt) ∧
  ∀ s pid page proc r0 s',
    Simulation.strategy (Simulation.flags s) = Simulation.FIFO →
    Simulation.processes s !! pid = Some proc →
    Process.page_table proc = pt →
    PageTable.rows pt !! page = Some r0 → PageTable.present r0 = false →
    Simulation.max_frames (Simulation.flags s) ≤ Process.get_rss proc →
    Simulation.handle_page_fault s pid page = Some s' →
    ∃ proc',
      Simulation.processes s' !! pid = Some proc' ∧
      ∀ k, resident (PageTable.rows pt) k ∧
           ¬ resident (PageTable.rows (Process.page_table proc')) k
           ↔ k = PageTable.get_oldest_page pt.
Proof. exact (select_victim_spec Simulation.FIFO pt i r). Qed.

Lemma get_oldest_page_first_minimum_witness :
  PageTable.rows example_table !! 1 = Some (example_resident_row 3 8) ∧
  first_minimum PageTable.loaded_at (PageTable.rows example_table) 1.
Proof.
  split; [reflexivity|].
  apply (get_oldest_page_first_minimum example_table 1
           (example_resident_row 3 8)); reflexivity.
Defined.

(** C1 as stated fails: the only present entry was loaded at [INT_MAX];
    [get_oldest_page] returns 0, which is not present. *)
Lemma get_oldest_page_at_int_max :
  resident (PageTable.rows example_table_at_int_max) 1 ∧
  PageTable.get_oldest_page example_table_at_int_max = 0 ∧
  ¬ first_minimum PageTable.loaded_at
      (PageTable.rows example_table_at_int_max)
      (PageTable.get_oldest_page example_table_at_int_max).
Proof.
  split_and!.
  - by exists example_row_at_int_max.
  - reflexivity.
  - intros (rv & Hv & Hp & _). vm_compute in Hv. by simplify_eq.
Qed.

(** C2, as amended: for every page table with a present entry whose
    [last_accessed_at] is below [INT_MAX], [get_least_recently_used_page]
    returns the present entry of minimal [last_accessed_at], the lowest
    index winning ties; and an LRU eviction in [handle_page_fault], for a
    page that is not resident of a process at its frame budget, removes
    exactly that entry from the resident set, so no evicted page was used
    after another resident page. *)
Theorem get_least_recently_used_page_first_minimum pt i r :
  PageTable.rows pt !! i = Some r → PageTable.present r = true →
  (PageTable.last_accessed_at r < INT_MAX)%Z →
  first_minimum PageTable.last_accessed_at (PageTable.rows pt)
    (PageTable.get_least_recently_used_page pt) ∧
  ∀ s pid page proc r0 s',
    Simulation.strategy (Simulation.flags s) = Simulation.LRU →
    Simulation.processes s !! pid = Some proc →
    Process.page_table proc = pt →
    PageTable.rows pt !! page = Some r0 → PageTable.present r0 = false →
    Simulation.max_frames (Simulation.flags s) ≤ Process.get_rss proc →
    Simulation.handle_page_fault s pid page = Some s' →
    ∃ proc',
      Simulation.processes s' !! pid = Some proc' ∧
      ∀ k, resident (PageTable.rows pt) k ∧
           ¬ resident (PageTable.rows (Process.page_table proc')) k
           ↔ k = PageTable.get_least_recently_used_page pt.
Proof. exact (select_victim_spec Simulation.LRU pt i r). Qed.

Lemma get_least_recently_used_page_first_minimum_witness :
  PageTable.rows example_table !! 2 = Some (example_resident_row 5 6) ∧
  first_minimum PageTable.last_accessed_at (PageTable.rows example_table) 2.
Proof.
  split; [reflexivity|].
  apply (get_least_recently_used_page_first_minimum example_table 2
           (example_resident_row 5 6)); reflexivity.
Defined.

(** C2 as stated fails: the only present entry was last used at [INT_MAX];
    [get_least_recently_used_page] returns 0, which is not present. *)
Lemma get_least_recently_used_page_at_int_max :
  resident (PageTable.rows example_table_at_int_max) 1 ∧
  PageTable.get_least_recently_used_page example_table_at_int_max = 0 ∧
  ¬ first_minimum PageTable.last_accessed_at
      (PageTable.rows example_table_at_int_max)
      (PageTable.get_least_recently_used_page example_table_at_int_max).
Proof.
  split_and!.
  - by exists example_row_at_int_max.
  - reflexivity.
  - intros (rv & Hv & Hp & _). vm_compute in Hv. by simplify_eq.
Qed.

(** C10: in a page table with no present entry, [get_oldest_page] and
    [get_least_recently_used_page] both return page index 0, the initial
    candidate of the scan. *)
Theorem empty_resident_set_selects_page_zero pt :
  Forall absent (PageTable.rows pt) →
  PageTable.get_oldest_page pt = 0 ∧
  PageTable.get_least_recently_used_page pt = 0.
Proof.
  intros Habs.
  assert (∀ key k r, PageTable.rows pt !! k = Some r →
                     PageTable.present r = true → (INT_MAX ≤ key r)%Z)
    as Hnone.
  { intros key k r Hk Hp. rewrite Forall_lookup in Habs.
    specialize (Habs k r Hk). unfold absent in Habs. congruence. }
  unfold PageTable.get_oldest_page, PageTable.get_least_recently_used_page.
  rewrite oldest_loop_scan, lru_loop_scan.
  split; apply min_scan_default; apply Hnone.
Qed.

Lemma empty_resident_set_selects_page_zero_witness :
  Forall absent (PageTable.rows (Process.page_table (example_process 3))) ∧
  PageTable.get_oldest_page (Process.page_table (example_process 3)) = 0 ∧
  PageTable.get_least_recently_used_page
    (Process.page_table (example_process 3)) = 0.
Proof.
  assert (Forall absent
            (PageTable.rows (Process.page_table (example_process 3))))
    as Habs by (repeat constructor).
  split; [exact Habs|].
  exact (empty_resident_set_selects_page_zero _ Habs).
Defined.

(* ===================================================================== *)
(** ** The resident-set bound, frame accounting and timestamp order *)
(* ===================================================================== *)

(** C3, as amended: when [max_frames] is at least 1 and the clock stays at
    or below [INT_MAX], from a start in which no page is resident every
    process has [get_rss() <= max_frames] after every processed access (and
    in the state a fatal fault exits in).  At each access a hit leaves the
    resident count of its process unchanged, a fault under budget happens
    only with [get_rss() < max_frames] and adds one, and an eviction happens
    at [max_frames <= get_rss()], removes the resident victim and leaves the
    count unchanged. *)
Theorem resident_set_within_budget s0 trace :
  all_rows absent s0 →
  1 ≤ Simulation.max_frames (Simulation.flags s0) →
  (Simulation.time s0 + Z.of_nat (length trace) ≤ INT_MAX)%Z →
  (∀ s, state_of (Simulation.access_loop s0 trace) = Some s →
        within_budget s) ∧
  (∀ prefix va rest s s',
     trace = prefix ++ va :: rest →
     Simulation.access_loop s0 prefix = Simulation.Returned s →
     state_of (Simulation.perform_memory_access s va) = Some s' →
     resident_change s va s').
Proof.
  intros Habs Hmax Htime. split.
  - intros s. apply (access_loop_invariant run_invariant within_budget).
    + apply run_invariant_step.
    + intros n s1 va s' (Hst & Hbud & Hmax1 & Htime1) Hstep.
      apply (perform_memory_access_budget s1 va); try done; [lia|].
      by rewrite Hstep.
    + by intros s1 (_ & Hbud & _).
    + by apply run_invariant_initial.
  - intros prefix va rest s s' -> Hprefix Hs'.
    rewrite length_app in Htime. simpl in Htime.
    assert (run_invariant (S (length rest)) s) as (Hst & _ & Hmax1 & Htime1).
    { apply (run_invariant_prefix prefix _ s0); [|done].
      by apply run_invariant_initial. }
    apply perform_memory_access_resident_change; try done. lia.
Qed.

Lemma resident_set_within_budget_witness :
  ∃ s,
    state_of (Simulation.access_loop
                (Simulation.initialize_free_frames
                   (example_simulation false Simulation.LRU 2))
                [example_access 0 0; example_access 1 0;
                 example_access 2 0])
    = Some s ∧
    within_budget s.
Proof.
  assert (all_rows absent
            (Simulation.initialize_free_frames
               (example_simulation false Simulation.LRU 2))) as Habs.
  { apply map_Forall_singleton. repeat constructor. }
  destruct (resident_set_within_budget
              (Simulation.initialize_free_frames
                 (example_simulation false Simulation.LRU 2))
              [example_access 0 0; example_access 1 0; example_access 2 0]
              Habs) as [Hfinal _].
  - simpl. lia.
  - vm_compute. intros [=].
  - eexists. split; [vm_compute; reflexivity|].
    apply Hfinal. vm_compute. reflexivity.
Defined.

(** C4, as amended: when [max_frames] is at least 1 and the clock stays at
    or below [INT_MAX], [run] starts the free list as [0..NUM_FRAMES-1], and
    at every state of a run whose behaviour is defined the number of
    resident pages of all processes plus the number of free frames is
    [NUM_FRAMES].  A fault under budget takes the front frame off the free
    list and adds one resident page; a hit, an eviction and an access to an
    invalid page change neither. *)
Theorem frames_are_accounted s0 trace :
  all_rows absent s0 → Simulation.free_frames s0 = [] →
  1 ≤ Simulation.max_frames (Simulation.flags s0) →
  (Simulation.time s0 + Z.of_nat (length trace) ≤ INT_MAX)%Z →
  Simulation.free_frames (Simulation.initialize_free_frames s0)
  = seq 0 Simulation.NUM_FRAMES ∧
  (∀ s, state_of (Simulation.access_loop
                    (Simulation.initialize_free_frames s0) trace) = Some s →
        total_present s + length (Simulation.free_frames s)
        = Simulation.NUM_FRAMES) ∧
  (∀ prefix va rest s s',
     trace = prefix ++ va :: rest →
     Simulation.access_loop (Simulation.initialize_free_frames s0) prefix
     = Simulation.Returned s →
     state_of (Simulation.perform_memory_access s va) = Some s' →
     frame_change s va s').
Proof.
  intros Habs Hfree Hmax Htime.
  destruct (frames_accounted_initial s0 Habs Hfree) as [Hinit Hacc0].
  assert (∀ n, (Simulation.time s0 + Z.of_nat n ≤ INT_MAX)%Z →
               run_invariant n (Simulation.initialize_free_frames s0))
    as Hinv0.
  { intros n Hn. by apply run_invariant_initial. }
  split_and!; [done| |].
  - intros s Hs.
    by destruct (access_loop_accounted trace _ s (Hinv0 _ Htime) Hacc0 Hs)
      as [_ [_ Hacc]].
  - intros prefix va rest s s' -> Hprefix Hs'.
    rewrite length_app in Htime. simpl in Htime.
    assert (run_invariant (S (length rest)) s) as Hinv.
    { apply (run_invariant_prefix prefix _ _ _ (Hinv0 _ Htime) Hprefix). }
    assert (frames_accounted s) as [Hnd _].
    { apply (frames_accounted_prefix prefix (S (length rest)) _ _
               (Hinv0 _ Htime) Hacc0 Hprefix). }
    destruct Hinv as (Hst & _ & Hmax1 & Htime1).
    apply perform_memory_access_frame_change; try done. lia.
Qed.

Lemma frames_are_accounted_witness :
  ∃ s,
    state_of (Simulation.access_loop
                (Simulation.initialize_free_frames
                   (example_simulation false Simulation.LRU 2))
                [example_access 0 0; example_access 1 0;
                 example_access 2 0])
    = Some s ∧
    total_present s + length (Simulation.free_frames s)
    = Simulation.NUM_FRAMES.
Proof.
  assert (all_rows absent (example_simulation false Simulation.LRU 2))
    as Habs.
  { apply map_Forall_singleton. repeat constructor. }
  destruct (frames_are_accounted
              (example_simulation false Simulation.LRU 2)
              [example_access 0 0; example_access 1 0; example_access 2 0]
              Habs eq_refl) as (_ & Hfinal & _).
  - simpl. lia.
  - vm_compute. intros [=].
  - eexists. split; [vm_compute; reflexivity|].
    apply Hfinal. vm_compute. reflexivity.
Defined.

(* ===================================================================== *)
(** ** Fatal faults *)
(* ===================================================================== *)

Lemma is_valid_page_lt proc index :
  Process.is_valid_page proc index = true
  ↔ index < length (PageTable.rows (Process.page_table proc)).
Proof.
  unfold Process.is_valid_page. simpl.
  destruct (Nat.ltb_spec index
              (length (PageTable.rows (Process.page_table proc))));
    split; (done || lia).
Qed.

(** C5: an access to a page index outside the page table of its process
    exits the simulation, whatever the rest of the trace.  In the state it
    exits in, the access counter of that process has been incremented and
    nothing else of any process has changed; the global fault counter, the
    free list, the frames and the clock are unchanged; and the last thing
    printed is the invalid-page message. *)
Theorem invalid_page_is_fatal s va proc rest :
  Simulation.processes s !! Simulation.process_id va = Some proc →
  Process.is_valid_page proc (Simulation.page va) = false →
  ∃ s',
    Simulation.perform_memory_access s va = Simulation.Exited s' ∧
    Simulation.access_loop s (va :: rest) = Simulation.Exited s' ∧
    Simulation.processes s'
    = <[Simulation.process_id va :=
          Process.set_memory_accesses (S (Process.memory_accesses proc))
            proc]> (Simulation.processes s) ∧
    Simulation.page_faults s' = Simulation.page_faults s ∧
    Simulation.free_frames s' = Simulation.free_frames s ∧
    Simulation.frames s' = Simulation.frames s ∧
    Simulation.time s' = Simulation.time s ∧
    Simulation.cout s'
    = Simulation.cout s
      ++ (if Simulation.verbose (Simulation.flags s)
          then [Simulation.OutVirtualAddress va] else [])
      ++ [Simulation.OutSegfaultInvalidPage].
Proof.
  intros Hproc Hinvalid.
  assert (Simulation.perform_memory_access s va
          = Simulation.Exited (state_invalid_page s va proc)) as Hstep.
  { rewrite perform_memory_access_unfold, Hproc. cbv zeta.
    destruct (decide _) as [Hlt|]; [|done].
    apply is_valid_page_lt in Hlt. congruence. }
  exists (state_invalid_page s va proc).
  split_and!; try done.
  - simpl. by rewrite Hstep.
  - unfold state_invalid_page, Simulation.print_verbose.
    by destruct (Simulation.verbose _).
  - unfold state_invalid_page, Simulation.print_verbose.
    by destruct (Simulation.verbose _).
  - unfold state_invalid_page, Simulation.print_verbose.
    by destruct (Simulation.verbose _).
  - unfold state_invalid_page, Simulation.print_verbose.
    by destruct (Simulation.verbose _).
  - unfold state_invalid_page, Simulation.print_verbose.
    by destruct (Simulation.verbose _).
  - unfold state_invalid_page, Simulation.print_verbose.
    destruct (Simulation.verbose _); simpl; [|done].
    by rewrite <-app_assoc.
Qed.

Lemma invalid_page_is_fatal_witness :
  ∃ s',
    Simulation.access_loop
      (Simulation.initialize_free_frames
         (example_simulation true Simulation.FIFO 2))
      [example_access 3 0; example_access 0 0]
    = Simulation.Exited s' ∧
    Simulation.page_faults s' = 0 ∧
    Process.memory_accesses <$> Simulation.processes s' !! 7%Z = Some 1.
Proof.
  destruct (invalid_page_is_fatal
              (Simulation.initialize_free_frames
                 (example_simulation true Simulation.FIFO 2))
              (example_access 3 0) (example_process 3) [example_access 0 0])
    as (s' & _ & Hloop & Hprocs & Hpf & _).
  - reflexivity.
  - reflexivity.
  - exists s'. split_and!; [exact Hloop|exact Hpf|].
    rewrite Hprocs. reflexivity.
Defined.


(* ===================================================================== *)
(** ** FIFO and LRU with one frame per process *)
(* ===================================================================== *)

Lemma resident_unique rows i j :
  count_present rows ≤ 1 → resident rows i → resident rows j → i = j.
Proof.
  revert i j. induction rows as [|x rows IH]; intros i j Hc Hi Hj.
  { destruct Hi as (r & Hr & _). by rewrite lookup_nil in Hr. }
  simpl in Hc.
  assert (∀ k, resident (x :: rows) (S k) → resident rows k) as Htail.
  { intros k (r & Hr & Hp). by exists r. }
  assert (∀ k, resident (x :: rows) 0 → resident (x :: rows) (S k) → False)
    as Hhead.
  { intros k (r & Hr & Hp) Hk%Htail%resident_count_pos.
    simpl in Hr. injection Hr as ->. rewrite Hp in Hc. lia. }
  destruct i as [|i], j as [|j]; try done.
  - by destruct (Hhead j).
  - by destruct (Hhead i).
  - f_equal. apply IH; [|by apply Htail..].
    destruct (PageTable.present x); lia.
Qed.

(** With at most one resident row, stamped before a clock that has not
    passed [INT_MAX], every strategy picks that row. *)
Lemma select_victim_single st rows now k :
  Forall (stamped_before now) rows → (now ≤ INT_MAX)%Z →
  count_present rows ≤ 1 → resident rows k →
  select_victim st {| PageTable.rows := rows |} = k.
Proof.
  intros Hst Hnow Hc Hk.
  apply (resident_unique rows); [done| |done].
  apply (first_minimum_resident (victim_key st)).
  by apply (select_victim_first_minimum st rows now k).
Qed.

Lemma table_step_strategy fl st' now page rows free :
  (Simulation.max_frames fl ≤ count_present rows →
   select_victim st' {| PageTable.rows := rows |}
   = select_victim (Simulation.strategy fl) {| PageTable.rows := rows |}) →
  table_step
    {| Simulation.verbose := Simulation.verbose fl;
       Simulation.strategy := st';
       Simulation.max_frames := Simulation.max_frames fl |}
    now page rows free
  = table_step fl now page rows free.
Proof.
  intros Hv. unfold table_step. simpl.
  destruct (rows !! page) as [r|]; simpl; [|done].
  destruct (PageTable.present r); [done|].
  destruct (Nat.ltb_spec (count_present rows) (Simulation.max_frames fl));
    [done|].
  by rewrite Hv.
Qed.

Lemma perform_memory_access_strategy st' s va :
  same_victim st' s va →
  Simulation.perform_memory_access (with_strategy st' s) va
  = outcome_map (with_strategy st') (Simulation.perform_memory_access s va).
Proof.
  intros Hv. rewrite !perform_memory_access_unfold.
  change (Simulation.processes (with_strategy st' s))
    with (Simulation.processes s).
  destruct (Simulation.processes s !! _) as [proc|] eqn:Hproc; [|done].
  specialize (Hv proc Hproc). cbv zeta.
  destruct (decide _) as [Hlt|Hge].
  - change (Simulation.flags (with_strategy st' s))
      with {| Simulation.verbose := Simulation.verbose (Simulation.flags s);
              Simulation.strategy := st';
              Simulation.max_frames :=
                Simulation.max_frames (Simulation.flags s) |}.
    change (Simulation.time (with_strategy st' s)) with (Simulation.time s).
    change (Simulation.free_frames (with_strategy st' s))
      with (Simulation.free_frames s).
    rewrite table_step_strategy by done.
    destruct (table_step _ _ _ _ _) as [[[k rows'] free']|]; [|done].
    destruct (rows' !! _) as [row|]; [|done].
    unfold conclude. simpl.
    destruct (Simulation.verbose (Simulation.flags s)); [|done].
    destruct (Process.pages proc !! _) as [pg|]; [|done].
    by destruct (negb _).
  - simpl. unfold state_invalid_page, Simulation.print_verbose. simpl.
    by destruct (Simulation.verbose (Simulation.flags s)).
Qed.

Lemma classify_strategy st' s va :
  same_victim st' s va →
  classify (with_strategy st' s) va = classify s va.
Proof.
  intros Hv. unfold classify.
  change (Simulation.processes (with_strategy st' s))
    with (Simulation.processes s).
  destruct (Simulation.processes s !! _) as [proc|] eqn:Hproc; [|done].
  specialize (Hv proc Hproc). simpl.
  destruct (_ !! Simulation.page va) as [row|]; [|done]. simpl.
  destruct (PageTable.present row); [done|].
  rewrite get_rss_count.
  destruct (Nat.ltb_spec
              (count_present (PageTable.rows (Process.page_table proc)))
              (Simulation.max_frames (Simulation.flags s))); [done|].
  destruct proc as [? ? [rows] ? ?]. simpl in *. by rewrite Hv.
Qed.

(** Under the invariant of the run with one frame per process, every
    strategy picks the same victim as the one in force. *)
Lemma run_invariant_same_victim st' n s va :
  run_invariant n s →
  Simulation.max_frames (Simulation.flags s) = 1 →
  same_victim st' s va.
Proof.
  intros (Hst & Hbud & _ & Htime) Hone proc Hproc Hfull.
  specialize (Hst _ _ Hproc). specialize (Hbud _ _ Hproc).
  simpl in Hst, Hbud. rewrite get_rss_count, Hone in Hbud.
  rewrite Hone in Hfull.
  destruct (count_present_resident
              (PageTable.rows (Process.page_table proc))) as [k Hk]; [lia|].
  rewrite !(select_victim_single _ _ (Simulation.time s) k); try done; lia.
Qed.

Lemma access_loop_strategy st' trace s :
  run_invariant (length trace) s →
  Simulation.max_frames (Simulation.flags s) = 1 →
  Simulation.access_loop (with_strategy st' s) trace
  = outcome_map (with_strategy st') (Simulation.access_loop s trace) ∧
  access_log (with_strategy st' s) trace = access_log s trace.
Proof.
  revert s. induction trace as [|va trace IH]; intros s Hinv Hone; [done|].
  pose proof (run_invariant_same_victim st' _ s va Hinv Hone) as Hv.
  simpl.
  rewrite (perform_memory_access_strategy st' s va Hv).
  rewrite (classify_strategy st' s va Hv).
  destruct (Simulation.perform_memory_access s va) as [s1|s1|] eqn:Hstep;
    simpl; [|done|done].
  assert (state_of (Simulation.perform_memory_access s va) = Some s1)
    as (Hfl & _)%perform_memory_access_step by (by rewrite Hstep).
  destruct (IH (Simulation.set_time (Simulation.time s1 + 1)%Z s1))
    as [IH1 IH2].
  { by apply (run_invariant_step _ s va). }
  { simpl. by rewrite Hfl. }
  split; [exact IH1|].
  destruct (classify s va); [|done]. f_equal. exact IH2.
Qed.

(** C8: with [max_frames = 1], from a start in which no page is resident
    and for every trace that keeps the clock at or below [INT_MAX], the run
    under LRU ends as the run under FIFO does, in the same state up to the
    strategy flag (page tables, counters, frames, free list, clock and
    output); the two runs take the same sequence of hits and faults with the
    same victims; and the victim of every eviction is the one resident page
    of its process. *)
Theorem fifo_lru_agree_with_one_frame s0 trace :
  all_rows absent s0 →
  Simulation.max_frames (Simulation.flags s0) = 1 →
  (Simulation.time s0 + Z.of_nat (length trace) ≤ INT_MAX)%Z →
  Simulation.access_loop (with_strategy Simulation.LRU s0) trace
  = outcome_map (with_strategy Simulation.LRU)
      (Simulation.access_loop (with_strategy Simulation.FIFO s0) trace) ∧
  access_log (with_strategy Simulation.LRU s0) trace
  = access_log (with_strategy Simulation.FIFO s0) trace ∧
  (∀ st prefix va rest s v,
     trace = prefix ++ va :: rest →
     Simulation.access_loop (with_strategy st s0) prefix
     = Simulation.Returned s →
     classify s va = Some (Fault (Some v)) →
     ∃ proc,
       Simulation.processes s !! Simulation.process_id va = Some proc ∧
       ∀ k, resident (PageTable.rows (Process.page_table proc)) k ↔ k = v).
Proof.
  intros Habs Hone Htime.
  assert (∀ st n, (Simulation.time s0 + Z.of_nat n ≤ INT_MAX)%Z →
                  run_invariant n (with_strategy st s0)) as Hinv0.
  { intros st n Hn. apply run_invariant_initial; try done. simpl. lia. }
  split_and!.
  - apply (access_loop_strategy Simulation.LRU trace
             (with_strategy Simulation.FIFO s0)); [by apply Hinv0|done].
  - apply (access_loop_strategy Simulation.LRU trace
             (with_strategy Simulation.FIFO s0)); [by apply Hinv0|done].
  - intros st prefix va rest s v -> Hprefix Hclass.
    rewrite length_app in Htime. simpl in Htime.
    pose proof (run_invariant_prefix prefix _ _ _ (Hinv0 st _ Htime) Hprefix)
      as (Hst & Hbud & Hmax & Htime1).
    assert (Simulation.max_frames (Simulation.flags s) = 1) as Hone'.
    { rewrite (access_loop_flags prefix (with_strategy st s0) s); [done|].
      by rewrite Hprefix. }
    revert Hclass. unfold classify.
    destruct (Simulation.processes s !! _) as [proc|] eqn:Hproc; [|done].
    simpl.
    destruct (_ !! Simulation.page va) as [row|]; [|done]. simpl.
    destruct (PageTable.present row); [done|].
    rewrite get_rss_count.
    destruct (Nat.ltb_spec
                (count_present (PageTable.rows (Process.page_table proc)))
                (Simulation.max_frames (Simulation.flags s))); [done|].
    intros [= <-]. exists proc. split; [done|].
    specialize (Hst _ _ Hproc). specialize (Hbud _ _ Hproc).
    simpl in Hst, Hbud. rewrite get_rss_count in Hbud.
    destruct (count_present_resident
                (PageTable.rows (Process.page_table proc))) as [i Hi];
      [lia|].
    assert (select_victim (Simulation.strategy (Simulation.flags s))
              (Process.page_table proc) = i) as ->.
    { destruct proc as [? ? [rows] ? ?]. simpl in *.
      apply (select_victim_single _ _ (Simulation.time s)); try done; lia. }
    intros k. split; [|by intros ->].
    intros Hk.
    apply (resident_unique (PageTable.rows (Process.page_table proc)));
      [lia|done|done].
Qed.

Lemma fifo_lru_agree_with_one_frame_witness :
  Simulation.access_loop
    (with_strategy Simulation.LRU
       (Simulation.initialize_free_frames
          (example_simulation true Simulation.FIFO 1)))
    [example_access 0 0; example_access 1 0; example_access 1 8;
     example_access 0 0]
  = outcome_map (with_strategy Simulation.LRU)
      (Simulation.access_loop
         (with_strategy Simulation.FIFO
            (Simulation.initialize_free_frames
               (example_simulation true Simulation.FIFO 1)))
         [example_access 0 0; example_access 1 0; example_access 1 8;
          example_access 0 0]) ∧
  access_log
    (with_strategy Simulation.FIFO
       (Simulation.initialize_free_frames
          (example_simulation true Simulation.FIFO 1)))
    [example_access 0 0; example_access 1 0; example_access 1 8;
     example_access 0 0]
  = [Fault None; Fault (Some 0); Hit; Fault (Some 1)].
Proof.
  destruct (fifo_lru_agree_with_one_frame
              (Simulation.initialize_free_frames
                 (example_simulation true Simulation.FIFO 1))
              [example_access 0 0; example_access 1 0; example_access 1 8;
               example_access 0 0]) as (Hloop & Hlog & _).
  - apply map_Forall_singleton. repeat constructor.
  - reflexivity.
  - vm_compute. intros [=].
  - split; [exact Hloop|]. vm_compute. reflexivity.
Defined.

(* ===================================================================== *)
(** ** The fault rate *)
(* ===================================================================== *)

Section FaultRate.

Local Open Scope Z_scope.

(** *** Digits *)

Lemma digits2_pos_bounds p :
  2 ^ (Z.pos (digits2_pos p) - 1) ≤ Z.pos p < 2 ^ Z.pos (digits2_pos p).
Proof.
  induction p as [p IH|p IH|]; simpl digits2_pos.
  - rewrite Pos2Z.inj_succ.
    replace (Z.succ (Z.pos (digits2_pos p)) - 1)
      with (Z.succ (Z.pos (digits2_pos p) - 1)) by lia.
    rewrite !Z.pow_succ_r by lia. lia.
  - rewrite Pos2Z.inj_succ.
    replace (Z.succ (Z.pos (digits2_pos p)) - 1)
      with (Z.succ (Z.pos (digits2_pos p) - 1)) by lia.
    rewrite !Z.pow_succ_r by lia. lia.
  - simpl. lia.
Qed.

Lemma digits2_pos_unique p d :
  2 ^ (d - 1) ≤ Z.pos p < 2 ^ d → Z.pos (digits2_pos p) = d.
Proof.
  intros [Hlo Hhi]. pose proof (digits2_pos_bounds p) as [Hlo' Hhi'].
  assert (0 < d).
  { destruct (Z_lt_le_dec 0 d) as [|Hd]; [done|].
    assert (2 ^ d ≤ 1); [|lia].
    destruct (Z.eq_dec d 0) as [->|]; [simpl; lia|].
    rewrite Z.pow_neg_r by lia. lia. }
  destruct (Z_lt_le_dec (Z.pos (digits2_pos p)) d) as [Hlt|Hge].
  - assert (2 ^ Z.pos (digits2_pos p) ≤ 2 ^ (d - 1))
      by (apply Z.pow_le_mono_r; lia). lia.
  - destruct (Z.eq_dec (Z.pos (digits2_pos p)) d) as [|Hne]; [done|].
    assert (2 ^ d ≤ 2 ^ (Z.pos (digits2_pos p) - 1))
      by (apply Z.pow_le_mono_r; lia). lia.
Qed.

(** *** Shifting with round and sticky bits *)

Lemma shr_1_inv mrs X B :
  0 ≤ X → 0 < B → shr_inv mrs X B → shr_inv (shr_1 mrs) X (2 * B).
Proof.
  intros HX HB (Hm & Hr & Hs).
  pose proof (Z.div_mod X B ltac:(lia)) as Hdm.
  pose proof (Z.mod_pos_bound X B HB) as Ht.
  pose proof (Z.div_pos X B HX HB) as Hq.
  set (q := X / B) in *. set (t := X mod B) in *.
  assert (∃ m' bit, (bit = 0 ∨ bit = 1) ∧ q = 2 * m' + bit ∧ 0 ≤ m' ∧
            shr_m (shr_1 mrs) = m' ∧
            (shr_r (shr_1 mrs) = true ↔ bit = 1) ∧
            (shr_s (shr_1 mrs) = true
             ↔ shr_r mrs = true ∨ shr_s mrs = true))
    as (m' & bit & Hbit & Hqm & Hm' & Hm1 & Hr1 & Hs1).
  { destruct mrs as [m r s]. simpl in Hm. simpl.
    destruct m as [|[p|p|]|p]; simpl.
    - exists 0, 0. rewrite orb_true_iff. split_and!; try done; lia.
    - exists (Z.pos p), 1. rewrite orb_true_iff. split_and!; try done; lia.
    - exists (Z.pos p), 0. rewrite orb_true_iff. split_and!; try done; lia.
    - exists 0, 1. rewrite orb_true_iff. split_and!; try done; lia.
    - lia. }
  assert (X = 2 * B * m' + (bit * B + t)) as HX' by nia.
  assert (0 ≤ bit * B + t < 2 * B) as Hrem by nia.
  assert (X / (2 * B) = m') as Hdiv
    by (symmetry; eapply Z.div_unique_pos; [exact Hrem|exact HX']).
  assert (X mod (2 * B) = bit * B + t) as Hmod
    by (symmetry; eapply Z.mod_unique_pos; [exact Hrem|exact HX']).
  assert ((2 * X) mod (2 * B) = 2 * t) as Hmod2.
  { symmetry. apply (Z.mod_unique_pos _ _ q); [lia|]. nia. }
  assert ((2 * X) mod B = 0 ↔ 2 * t = 0 ∨ 2 * t = B) as HsB.
  { assert (2 * X = B * (2 * q) + 2 * t) as H2 by nia.
    destruct (Z_lt_le_dec (2 * t) B) as [Hlt|Hge].
    - rewrite <- (Z.mod_unique_pos (2 * X) B (2 * q) (2 * t)) by lia. lia.
    - rewrite <- (Z.mod_unique_pos (2 * X) B (2 * q + 1) (2 * t - B)) by lia.
      lia. }
  split_and!.
  - by rewrite Hm1, Hdiv.
  - rewrite Hr1, Hmod. nia.
  - rewrite Hs1, Hmod2, Hr, Hs, HsB. lia.
Qed.

Lemma iter_pos_shr_1_inv p : ∀ mrs X B,
  0 ≤ X → 0 < B → shr_inv mrs X B →
  shr_inv (iter_pos shr_1 p mrs) X (B * 2 ^ Z.pos p).
Proof.
  induction p as [p IH|p IH|]; intros mrs X B HX HB Hinv; simpl iter_pos.
  - replace (B * 2 ^ Z.pos p~1) with (2 * B * 2 ^ Z.pos p * 2 ^ Z.pos p).
    + apply IH; [done|nia|]. apply IH; [done|lia|]. by apply shr_1_inv.
    + replace (Z.pos p~1) with (Z.pos p + Z.pos p + 1) by lia.
      rewrite !Z.pow_add_r by lia. change (2 ^ 1) with 2. lia.
  - replace (B * 2 ^ Z.pos p~0) with (B * 2 ^ Z.pos p * 2 ^ Z.pos p).
    + apply IH; [done|nia|]. by apply IH.
    + replace (Z.pos p~0) with (Z.pos p + Z.pos p) by lia.
      rewrite !Z.pow_add_r by lia. lia.
  - change (2 ^ 1) with 2. rewrite Z.mul_comm. by apply shr_1_inv.
Qed.

Lemma shr_shr_inv mrs e n X B :
  0 ≤ X → 0 < B → 0 ≤ n → shr_inv mrs X B →
  shr_inv (fst (shr mrs e n)) X (B * 2 ^ n) ∧ snd (shr mrs e n) = e + n.
Proof.
  intros HX HB Hn Hinv. destruct n as [|p|p]; simpl; [| |lia].
  - rewrite Z.mul_1_r. split; [done|lia].
  - split; [|done]. by apply iter_pos_shr_1_inv.
Qed.

Lemma shr_record_of_loc_inv m a b l :
  0 ≤ m → 0 ≤ a < b → loc_describes a b l →
  shr_inv (shr_record_of_loc m l) (m * b + a) b.
Proof.
  intros Hm Ha ->.
  assert ((m * b + a) / b = m) as Hdiv
    by (symmetry; apply (Z.div_unique_pos _ _ _ a); lia).
  assert ((m * b + a) mod b = a) as Hmod
    by (symmetry; apply (Z.mod_unique_pos _ _ m); lia).
  assert ((2 * (m * b + a)) mod b = 0 ↔ a = 0 ∨ 2 * a = b) as Hsticky.
  { destruct (Z_lt_le_dec (2 * a) b) as [Hlt|Hge].
    - rewrite <- (Z.mod_unique_pos (2 * (m * b + a)) b (2 * m) (2 * a))
        by lia. lia.
    - rewrite <- (Z.mod_unique_pos (2 * (m * b + a)) b (2 * m + 1)
                    (2 * a - b)) by lia. lia. }
  unfold shr_inv. rewrite Hdiv, Hmod, Hsticky.
  destruct (Z.eqb_spec a 0) as [->|Hne]; simpl.
  - split_and!; [done| |]; split; (done || lia).
  - destruct (Z.compare_spec (2 * a) b); simpl;
      (split_and!; [done| |]); split; (done || lia).
Qed.

Lemma new_location_describes nb k :
  0 ≤ k < nb → loc_describes k nb (new_location nb k).
Proof.
  intros Hk. unfold loc_describes, new_location.
  destruct (Z.even nb) eqn:Heven.
  - done.
  - unfold new_location_odd. destruct (k =? 0); [done|]. f_equal.
    assert (Z.odd nb = true) as [j Hj]%Z.odd_spec
      by (by rewrite <- Z.negb_even, Heven).
    destruct (Z.compare_spec (2 * k + 1) nb);
      destruct (Z.compare_spec (2 * k) nb); (done || lia).
Qed.

Lemma round_nearest_even_inv mrs X B :
  0 ≤ X → 0 < B → shr_inv mrs X B →
  X / B ≤ round_nearest_even (shr_m mrs) (loc_of_shr_record mrs) ≤ X / B + 1
  ∧ 2 * Z.abs (round_nearest_even (shr_m mrs) (loc_of_shr_record mrs) * B
               - X) ≤ B.
Proof.
  intros HX HB (Hm & Hr & Hs).
  pose proof (Z.div_mod X B ltac:(lia)) as Hdm.
  pose proof (Z.mod_pos_bound X B HB) as Ht.
  set (q := X / B) in *. set (t := X mod B) in *.
  assert ((2 * X) mod B = 0 ↔ 2 * t = 0 ∨ 2 * t = B) as HsB.
  { assert (2 * X = B * (2 * q) + 2 * t) as H2 by nia.
    destruct (Z_lt_le_dec (2 * t) B) as [Hlt|Hge].
    - rewrite <- (Z.mod_unique_pos (2 * X) B (2 * q) (2 * t)) by lia. lia.
    - rewrite <- (Z.mod_unique_pos (2 * X) B (2 * q + 1) (2 * t - B)) by lia.
      lia. }
  destruct mrs as [m [|] [|]]; simpl in *; subst m.
  - assert (B ≤ 2 * t) by (by apply Hr). split; [lia|]. nia.
  - assert (B ≤ 2 * t) by (by apply Hr).
    assert (2 * t = B).
    { destruct (Z.eq_dec ((2 * X) mod B) 0) as [H0|H0].
      - apply HsB in H0. lia.
      - apply Hs in H0. done. }
    destruct (Z.even q); (split; [lia|nia]).
  - assert (¬ B ≤ 2 * t) by (intros Hle; apply Hr in Hle; done).
    split; [lia|]. nia.
  - assert (¬ B ≤ 2 * t) by (intros Hle; apply Hr in Hle; done).
    split; [lia|]. nia.
Qed.

(** *** Rounding to a double, in the normal range

    The number [(mx + a / b) * 2 ^ ex], with a mantissa of at least 53
    bits, is rounded to a double [m * 2 ^ e] with a mantissa of exactly 53
    bits that is at most half a unit in the last place away. *)
Lemma binary_round_aux_normal sx p ex lx a b :
  let n := Z.pos (digits2_pos p) - 53 in
  0 ≤ n → -1074 ≤ ex + n → ex + n + 1 ≤ 971 →
  0 ≤ a < b → loc_describes a b lx →
  ∃ m e,
    binary_round_aux prec emax sx (Z.pos p) ex lx = S754_finite sx m e ∧
    2 ^ 52 ≤ Z.pos m < 2 ^ 53 ∧
    ex + n ≤ e ≤ ex + n + 1 ∧
    2 * Z.abs (Z.pos m * 2 ^ (e - ex) * b - (Z.pos p * b + a)) ≤ b * 2 ^ n.
Proof.
  intros n Hn Hlo Hhi Ha Hloc.
  pose proof (digits2_pos_bounds p) as [Hplo Hphi].
  set (X := Z.pos p * b + a).
  assert (0 ≤ X) as HX by nia.
  assert (0 < 2 ^ n) as Hpow by (apply Z.pow_pos_nonneg; lia).
  unfold binary_round_aux, shr_fexp. cbn [Zdigits2].
  assert (fexp prec emax (Z.pos (digits2_pos p) + ex) - ex = n) as ->.
  { unfold fexp, emin, prec, emax. lia. }
  pose proof (shr_record_of_loc_inv (Z.pos p) a b lx ltac:(lia) Ha Hloc)
    as Hinv0. fold X in Hinv0.
  destruct (shr_shr_inv (shr_record_of_loc (Z.pos p) lx) ex n X b
              HX ltac:(lia) Hn Hinv0) as [Hinv1 He1].
  destruct (shr (shr_record_of_loc (Z.pos p) lx) ex n) as [mrs' e'].
  simpl in Hinv1, He1. subst e'.
  destruct (round_nearest_even_inv mrs' X (b * 2 ^ n) HX ltac:(nia) Hinv1)
    as [Hm1 Herr].
  set (m1 := round_nearest_even (shr_m mrs') (loc_of_shr_record mrs')) in *.
  assert (X / (b * 2 ^ n) = Z.pos p / 2 ^ n) as Hq.
  { rewrite <- Z.div_div by lia. f_equal. unfold X.
    symmetry. apply (Z.div_unique_pos _ _ _ a); lia. }
  assert (2 ^ 52 ≤ Z.pos p / 2 ^ n < 2 ^ 53) as Hrange.
  { replace (Z.pos (digits2_pos p) - 1) with (52 + n) in Hplo by lia.
    replace (Z.pos (digits2_pos p)) with (53 + n) in Hphi by lia.
    rewrite Z.pow_add_r in Hplo, Hphi by lia. split.
    - apply Z.div_le_lower_bound; lia.
    - apply Z.div_lt_upper_bound; lia. }
  rewrite Hq in Hm1.
  assert (2 ^ 52 ≤ m1 ≤ 2 ^ 53) as Hm1r by lia.
  destruct m1 as [|q|q] eqn:Hq1; [lia| |lia].
  destruct (Z.eq_dec (Z.pos q) (2 ^ 53)) as [Hcarry|Hnocarry].
  - (* the rounding carried into a 54th bit *)
    assert (Z.pos (digits2_pos q) = 54) as Hd
      by (apply digits2_pos_unique; rewrite Hcarry; simpl; lia).
    cbn [Zdigits2]. rewrite Hd.
    assert (fexp prec emax (54 + (ex + n)) - (ex + n) = 1) as ->
      by (unfold fexp, emin, prec, emax; lia).
    cbn [shr iter_pos shr_record_of_loc fst snd].
    pose proof (shr_1_inv (Build_shr_record (Z.pos q) false false)
                  (Z.pos q) 1 ltac:(lia) ltac:(lia)) as Hinv2.
    destruct Hinv2 as (Hm2 & _).
    { unfold shr_inv. cbn [shr_m shr_r shr_s].
      rewrite Z.div_1_r, !Z.mod_1_r.
      split_and!; [done| |]; split; (done || lia). }
    rewrite Hm2, Hcarry. change (2 ^ 53 / (2 * 1)) with (Z.pos 4503599627370496).
    assert ((ex + n + 1 <=? emax - prec) = true) as ->
      by (apply Z.leb_le; unfold emax, prec; lia).
    exists 4503599627370496%positive, (ex + n + 1).
    split; [done|]. split; [simpl; lia|]. split; [lia|].
    replace (ex + n + 1 - ex) with (n + 1) by lia.
    rewrite Z.pow_add_r by lia. change (2 ^ 1) with 2.
    rewrite Hcarry in Herr.
    change (Z.pos 4503599627370496) with (2 ^ 52).
    replace (2 ^ 52 * (2 ^ n * 2) * b - X)
      with (2 ^ 53 * (b * 2 ^ n) - X); [done|].
    change (2 ^ 53) with (2 ^ 52 * 2). lia.
  - assert (Z.pos (digits2_pos q) = 53) as Hd
      by (apply digits2_pos_unique; simpl; lia).
    cbn [Zdigits2]. rewrite Hd.
    assert (fexp prec emax (53 + (ex + n)) - (ex + n) = 0) as ->
      by (unfold fexp, emin, prec, emax; lia).
    cbn [shr shr_record_of_loc shr_m].
    assert ((ex + n <=? emax - prec) = true) as ->
      by (apply Z.leb_le; unfold emax, prec; lia).
    exists q, (ex + n). split; [done|]. split; [lia|]. split; [lia|].
    replace (ex + n - ex) with n by lia.
    replace (Z.pos q * 2 ^ n * b - X) with (Z.pos q * (b * 2 ^ n) - X) by lia.
    done.
Qed.

(** *** The conversion of a counter *)

Lemma iter_xO_pow p k : Z.pos (Pos.iter xO p k) = Z.pos p * 2 ^ Z.pos k.
Proof.
  induction k as [|k IH] using Pos.peano_ind.
  - simpl. lia.
  - rewrite Pos.iter_succ, Pos2Z.inj_xO, IH, Pos2Z.inj_succ.
    rewrite Z.pow_succ_r by lia. lia.
Qed.

(** The double of a positive integer below [2^53] is the integer itself,
    with its mantissa shifted to 53 bits. *)
Lemma binary_normalize_exact p :
  Z.pos p < 2 ^ 53 →
  ∃ m,
    binary_normalize prec emax (Z.pos p) 0 false
    = S754_finite false m (Z.pos (digits2_pos p) - 53) ∧
    Z.pos m = Z.pos p * 2 ^ (53 - Z.pos (digits2_pos p)) ∧
    Z.pos (digits2_pos m) = 53.
Proof.
  intros Hlt.
  pose proof (digits2_pos_bounds p) as [Hplo Hphi].
  set (d := Z.pos (digits2_pos p)) in *.
  assert (1 ≤ d ≤ 53) as Hd.
  { split; [unfold d; lia|].
    destruct (Z_lt_le_dec 53 d) as [Hgt|]; [|done].
    assert (2 ^ 53 ≤ 2 ^ (d - 1)) by (apply Z.pow_le_mono_r; lia). lia. }
  assert (∃ mz, shl_align p 0 (fexp prec emax (d + 0)) = (mz, d - 53)
                ∧ Z.pos mz = Z.pos p * 2 ^ (53 - d))
    as (mz & Halign & Hmz).
  { unfold shl_align.
    assert (fexp prec emax (d + 0) = d - 53) as ->
      by (unfold fexp, emin, prec, emax; lia).
    destruct (d - 53 - 0) as [|k|k] eqn:Hk; [|lia|].
    - exists p. split; [f_equal; lia|].
      replace (53 - d) with 0 by lia. lia.
    - exists (Pos.iter xO p k). split; [done|].
      rewrite iter_xO_pow. f_equal. f_equal. lia. }
  assert (2 ^ 52 ≤ Z.pos mz < 2 ^ 53) as Hmzr.
  { rewrite Hmz.
    assert (2 ^ 52 = 2 ^ (d - 1) * 2 ^ (53 - d)) as ->
      by (rewrite <- Z.pow_add_r by lia; f_equal; lia).
    assert (2 ^ 53 = 2 ^ d * 2 ^ (53 - d)) as ->
      by (rewrite <- Z.pow_add_r by lia; f_equal; lia).
    assert (0 < 2 ^ (53 - d)) by (apply Z.pow_pos_nonneg; lia). nia. }
  assert (Z.pos (digits2_pos mz) = 53) as Hdz
    by (by apply digits2_pos_unique).
  unfold binary_normalize, binary_round. fold d. rewrite Halign.
  destruct (binary_round_aux_normal false mz (d - 53) loc_Exact 0 1)
    as (m & e & -> & Hm & He & Herr); rewrite ?Hdz; try lia; [done|].
  rewrite Hdz in He, Herr. change (2 ^ (53 - 53)) with 1 in Herr.
  assert (0 < 2 ^ (e - (d - 53))) by (apply Z.pow_pos_nonneg; lia).
  assert (e = d - 53) as ->.
  { destruct (Z.eq_dec e (d - 53)) as [|Hne]; [done|].
    replace (e - (d - 53)) with 1 in Herr by lia.
    change (2 ^ 1) with 2 in Herr. lia. }
  replace (d - 53 - (d - 53)) with 0 in Herr by lia.
  change (2 ^ 0) with 1 in Herr.
  assert (m = mz) as -> by lia.
  by exists mz.
Qed.

Lemma to_double_spec n :
  Z.of_nat n < 2 ^ 53 →
  Prim2SF (Process.to_double n)
  = binary_normalize prec emax (Z.of_nat n) 0 false.
Proof.
  intros Hlt. unfold Process.to_double.
  rewrite of_uint63_spec, Uint63.of_Z_spec. f_equal.
  apply Z.mod_small. split; [lia|].
  eapply Z.lt_trans; [exact Hlt|]. done.
Qed.

(** *** Division and multiplication of doubles with 53-bit mantissas *)

Lemma SFdiv_normal m1 e1 m2 e2 :
  Z.pos (digits2_pos m1) = 53 → Z.pos (digits2_pos m2) = 53 →
  -52 ≤ e1 ≤ 0 → -52 ≤ e2 ≤ 0 →
  ∃ mq eq,
    SFdiv prec emax (S754_finite false m1 e1) (S754_finite false m2 e2)
    = S754_finite false mq eq ∧
    2 ^ 52 ≤ Z.pos mq < 2 ^ 53 ∧
    0 ≤ eq - (e1 - e2 - 53) ≤ 2 ∧
    2 ^ 53 * Z.abs (Z.pos mq * 2 ^ (eq - (e1 - e2 - 53)) * Z.pos m2
                    - Z.pos m1 * 2 ^ 53)
    ≤ Z.pos m1 * 2 ^ 53.
Proof.
  intros Hd1 Hd2 He1 He2.
  pose proof (digits2_pos_bounds m1) as Hm1. rewrite Hd1 in Hm1.
  pose proof (digits2_pos_bounds m2) as Hm2. rewrite Hd2 in Hm2.
  change (53 - 1) with 52 in Hm1, Hm2.
  unfold SFdiv, SFdiv_core_binary. cbn [Zdigits2 xorb]. rewrite Hd1, Hd2.
  assert (Z.min (fexp prec emax (53 + e1 - (53 + e2))) (e1 - e2)
          = e1 - e2 - 53) as ->
    by (unfold fexp, emin, prec, emax; lia).
  replace (e1 - e2 - (e1 - e2 - 53)) with 53 by lia.
  rewrite Z.shiftl_mul_pow2 by lia.
  set (N := Z.pos m1 * 2 ^ 53).
  pose proof (Z.div_mod N (Z.pos m2) ltac:(lia)) as Hdm.
  pose proof (Z.mod_pos_bound N (Z.pos m2) ltac:(lia)) as Hr.
  assert (Z.div_eucl N (Z.pos m2) = (N / Z.pos m2, N mod Z.pos m2)) as ->
    by (unfold Z.div, Z.modulo; by destruct (Z.div_eucl N (Z.pos m2))).
  set (q := N / Z.pos m2) in *. set (r := N mod Z.pos m2) in *.
  assert (2 ^ 52 ≤ q < 2 ^ 54) as Hq.
  { split.
    - apply Z.div_le_lower_bound; [lia|]. unfold N.
      change (2 ^ 53) with (2 ^ 52 * 2) at 1. nia.
    - apply Z.div_lt_upper_bound; [lia|]. unfold N.
      change (2 ^ 54) with (2 * 2 ^ 53). nia. }
  destruct q as [|pq|pq] eqn:Hpq; [lia| |lia].
  pose proof (digits2_pos_bounds pq) as Hdq.
  assert (Z.pos (digits2_pos pq) = 53 ∨ Z.pos (digits2_pos pq) = 54)
    as Hdigits.
  { destruct (Z_lt_le_dec (Z.pos pq) (2 ^ 53)).
    - left. apply digits2_pos_unique. simpl. lia.
    - right. apply digits2_pos_unique. simpl. lia. }
  set (n := Z.pos (digits2_pos pq) - 53) in *.
  destruct (binary_round_aux_normal false pq (e1 - e2 - 53)
              (new_location (Z.pos m2) r) r (Z.pos m2))
    as (mq & eq & -> & Hmq & Heq & Herr); fold n; try lia.
  { by apply new_location_describes. }
  exists mq, eq. split; [done|]. split; [done|]. split; [lia|].
  fold n in Heq, Herr.
  replace (Z.pos pq * Z.pos m2 + r) with N in Herr by lia.
  assert (2 ^ 52 * (Z.pos m2 * 2 ^ n) ≤ N) as Hrel.
  { assert (2 ^ (52 + n) ≤ Z.pos pq) as Hlow.
    { replace (52 + n) with (Z.pos (digits2_pos pq) - 1) by lia. lia. }
    rewrite Z.pow_add_r in Hlow by lia. nia. }
  change (2 ^ 53) with (2 ^ 52 * 2) at 1.
  set (D := Z.abs _) in *. nia.
Qed.

Lemma SFmul_normal m1 e1 m2 e2 :
  Z.pos (digits2_pos m1) = 53 → Z.pos (digits2_pos m2) = 53 →
  -400 ≤ e1 + e2 ≤ 400 →
  ∃ m e,
    SFmul prec emax (S754_finite false m1 e1) (S754_finite false m2 e2)
    = S754_finite false m e ∧
    2 ^ 52 ≤ Z.pos m < 2 ^ 53 ∧
    52 ≤ e - (e1 + e2) ≤ 54 ∧
    2 ^ 53 * Z.abs (Z.pos m * 2 ^ (e - (e1 + e2)) - Z.pos m1 * Z.pos m2)
    ≤ Z.pos m1 * Z.pos m2.
Proof.
  intros Hd1 Hd2 He.
  pose proof (digits2_pos_bounds m1) as Hm1. rewrite Hd1 in Hm1.
  pose proof (digits2_pos_bounds m2) as Hm2. rewrite Hd2 in Hm2.
  change (53 - 1) with 52 in Hm1, Hm2.
  unfold SFmul. cbn [xorb].
  assert (2 ^ 104 ≤ Z.pos (m1 * m2) < 2 ^ 106) as HP.
  { rewrite Pos2Z.inj_mul.
    change (2 ^ 104) with (2 ^ 52 * 2 ^ 52).
    change (2 ^ 106) with (2 ^ 53 * 2 ^ 53). nia. }
  pose proof (digits2_pos_bounds (m1 * m2)) as HdP.
  assert (Z.pos (digits2_pos (m1 * m2)) = 105
          ∨ Z.pos (digits2_pos (m1 * m2)) = 106) as Hdigits.
  { destruct (Z_lt_le_dec (Z.pos (m1 * m2)) (2 ^ 105)).
    - left. apply digits2_pos_unique. simpl. lia.
    - right. apply digits2_pos_unique. simpl. lia. }
  set (n := Z.pos (digits2_pos (m1 * m2)) - 53) in *.
  destruct (binary_round_aux_normal false (m1 * m2) (e1 + e2) loc_Exact 0 1)
    as (m & e & -> & Hm & Hexp & Herr); fold n; try lia; [done|].
  exists m, e. split; [done|]. split; [done|]. split; [lia|].
  fold n in Hexp, Herr.
  rewrite !Z.mul_1_r, Z.add_0_r, Z.mul_1_l in Herr.
  rewrite Pos2Z.inj_mul in Herr, HdP, HP.
  assert (2 ^ 52 * 2 ^ n ≤ Z.pos m1 * Z.pos m2) as Hrel.
  { rewrite <- Z.pow_add_r by lia.
    replace (52 + n) with (Z.pos (digits2_pos (m1 * m2)) - 1) by lia. lia. }
  change (2 ^ 53) with (2 ^ 52 * 2) at 1.
  set (D := Z.abs _) in *. nia.
Qed.

(** *** The fault rate *)

Lemma to_double_pos n :
  0 < Z.of_nat n < 2 ^ 53 →
  ∃ m d,
    Prim2SF (Process.to_double n) = S754_finite false m (d - 53) ∧
    1 ≤ d ≤ 53 ∧
    Z.pos m = Z.of_nat n * 2 ^ (53 - d) ∧
    Z.pos (digits2_pos m) = 53.
Proof.
  intros [Hpos Hlt]. rewrite to_double_spec by done.
  destruct (Z.of_nat n) as [|p|p] eqn:Hn; [lia| |lia].
  destruct (binary_normalize_exact p Hlt) as (m & -> & Hm & Hd).
  pose proof (digits2_pos_bounds p) as [Hlo _].
  exists m, (Z.pos (digits2_pos p)). split_and!; [done|lia| |done..].
  destruct (Z_lt_le_dec 53 (Z.pos (digits2_pos p))) as [Hgt|]; [|done].
  assert (2 ^ 53 ≤ 2 ^ (Z.pos (digits2_pos p) - 1))
    by (apply Z.pow_le_mono_r; lia). lia.
Qed.

Lemma abs_scale u v k : 0 ≤ k → Z.abs (u * k - v * k) = Z.abs (u - v) * k.
Proof.
  intros Hk. rewrite <- Z.mul_sub_distr_r, Z.abs_mul. f_equal.
  by apply Z.abs_eq.
Qed.

Lemma get_fault_percent_near p :
  (0 < Process.memory_accesses p)%nat →
  Z.of_nat (Process.page_faults p) < 2 ^ 53 →
  Z.of_nat (Process.memory_accesses p) < 2 ^ 53 →
  near_percent (Process.get_fault_percent p)
    (Process.page_faults p) (Process.memory_accesses p).
Proof.
  intros Hma Hpf53 Hma53. unfold Process.get_fault_percent, near_percent.
  destruct (Nat.eqb_spec (Process.memory_accesses p) 0) as [|_]; [lia|].
  cbn [negb]. rewrite mul_spec, div_spec.
  assert (Prim2SF 100%float = S754_finite false 7036874417766400 (-46))
    as -> by (vm_compute; reflexivity).
  destruct (to_double_pos (Process.memory_accesses p) ltac:(lia))
    as (m2 & d2 & -> & Hd2 & Hm2 & Hdig2).
  set (z1 := Z.of_nat (Process.page_faults p)) in *.
  set (z2 := Z.of_nat (Process.memory_accesses p)) in *.
  destruct (Z.eq_dec z1 0) as [Hz|Hnz].
  { assert (Process.page_faults p = 0%nat) as Hpf by lia.
    rewrite Hpf. by vm_compute. }
  destruct (to_double_pos (Process.page_faults p) ltac:(lia))
    as (m1 & d1 & -> & Hd1 & Hm1 & Hdig1). fold z1 in Hm1.
  destruct (SFdiv_normal m1 (d1 - 53) m2 (d2 - 53) Hdig1 Hdig2
              ltac:(lia) ltac:(lia))
    as (mq & eq & Hdiv & Hmq & HE1 & Herr1).
  unfold SF64mul, SF64div. rewrite Hdiv.
  assert (Z.pos (digits2_pos mq) = 53) as Hdigq
    by (apply digits2_pos_unique; simpl; lia).
  destruct (SFmul_normal mq eq 7036874417766400 (-46) Hdigq eq_refl
              ltac:(lia))
    as (m & e & -> & Hm & HE2 & Herr2).
  set (E1 := eq - (d1 - 53 - (d2 - 53) - 53)) in *.
  set (E2 := e - (eq + -46)) in *.
  set (a := Z.max e 0). set (b := Z.max (- e) 0).
  set (c := 152 - d1).
  assert (0 < 2 ^ E1) by (apply Z.pow_pos_nonneg; lia).
  assert (0 < 2 ^ (c - b)) as HK by (apply Z.pow_pos_nonneg; lia).
  set (T := Z.pos m * 2 ^ a * z2 * 2 ^ (c - b)).
  set (A := Z.pos mq * Z.pos 7036874417766400 * (2 ^ E1 * Z.pos m2)).
  set (N := 100 * z1 * 2 ^ b * 2 ^ (c - b)).
  assert (Z.pos m * 2 ^ E2 * (2 ^ E1 * Z.pos m2) = T) as HT.
  { unfold T. rewrite Hm2.
    assert (2 ^ E2 * 2 ^ E1 * 2 ^ (53 - d2) = 2 ^ a * 2 ^ (c - b)) as Hp
      by (rewrite <- !Z.pow_add_r by lia; f_equal; lia).
    nia. }
  assert (Z.pos m1 * 2 ^ 53 * Z.pos 7036874417766400 = N) as HN.
  { unfold N. rewrite Hm1.
    change (Z.pos 7036874417766400) with (100 * 2 ^ 46).
    assert (2 ^ (53 - d1) * 2 ^ 53 * 2 ^ 46 = 2 ^ b * 2 ^ (c - b)) as Hp
      by (rewrite <- !Z.pow_add_r by lia; f_equal; lia).
    nia. }
  assert (2 ^ 53 * Z.abs (T - A) ≤ A) as H1.
  { rewrite <- HT. unfold A.
    rewrite abs_scale by lia.
    set (D := Z.abs _) in *. nia. }
  assert (2 ^ 53 * Z.abs (A - N) ≤ N) as H2.
  { rewrite <- HN. unfold A.
    replace (Z.pos mq * Z.pos 7036874417766400 * (2 ^ E1 * Z.pos m2))
      with (Z.pos mq * 2 ^ E1 * Z.pos m2 * Z.pos 7036874417766400) by lia.
    rewrite abs_scale by lia.
    set (D := Z.abs _) in *. nia. }
  assert (2 ^ 51 * Z.abs (T - N) ≤ N) as H3.
  { change (2 ^ 53) with (4 * 2 ^ 51) in H1, H2. lia. }
  unfold T, N in H3. rewrite abs_scale in H3 by lia.
  set (G := Z.abs _) in *. set (H' := 100 * z1 * 2 ^ b) in *.
  apply (Z.mul_le_mono_pos_r _ _ (2 ^ (c - b))); [done|]. lia.
Qed.

End FaultRate.

(** C9, as amended: [get_fault_percent] returns 0 when [memory_accesses] is
    0.  Otherwise, for counters below [2^53], the conversions [(double)] of
    the counters are exact, and the result of the rounded division and the
    rounded multiplication by [100.0] is a finite double that is not
    negative and lies within the relative distance [2^-51] of
    [100 * page_faults / memory_accesses]; it is 0 when [page_faults] is
    0. *)
Theorem get_fault_percent_value p :
  (Process.memory_accesses p = 0 →
   Process.get_fault_percent p = 0%float) ∧
  (∀ n, (Z.of_nat n < 2 ^ 53)%Z → double_is (Process.to_double n) n) ∧
  (0 < Process.memory_accesses p →
   (Z.of_nat (Process.page_faults p) < 2 ^ 53)%Z →
   (Z.of_nat (Process.memory_accesses p) < 2 ^ 53)%Z →
   near_percent (Process.get_fault_percent p)
     (Process.page_faults p) (Process.memory_accesses p)).
Proof.
  split_and!.
  - intros Hz. unfold Process.get_fault_percent. by rewrite Hz.
  - intros n Hn. unfold double_is.
    destruct n as [|n']; [by vm_compute|].
    destruct (to_double_pos (S n') ltac:(lia)) as (m & d & -> & Hd & Hm & _).
    rewrite Z.max_r, Z.max_l by lia.
    rewrite Hm. change (2 ^ 0)%Z with 1%Z.
    replace (- (d - 53))%Z with (53 - d)%Z by lia. lia.
  - apply get_fault_percent_near.
Qed.

Lemma get_fault_percent_value_witness :
  double_is (Process.to_double 25) 25 ∧
  near_percent (Process.get_fault_percent (example_counters 7 25)) 7 25.
Proof.
  destruct (get_fault_percent_value (example_counters 7 25))
    as (_ & Hconv & Hnear).
  split.
  - apply Hconv. by vm_compute.
  - apply Hnear; [simpl; lia|by vm_compute..].
Defined.

(** Values that no rounding touches: 4 faults in 4 accesses give 100, 1
    fault in 2 accesses gives 50. *)
Lemma get_fault_percent_exact_examples :
  Process.get_fault_percent (example_counters 4 4) = 100%float ∧
  exact_percent (Process.get_fault_percent (example_counters 4 4)) 4 4 ∧
  exact_percent (Process.get_fault_percent (example_counters 1 2)) 1 2 ∧
  exact_percent (Process.get_fault_percent (example_counters 0 5)) 0 5.
Proof. split_and!; vm_compute; reflexivity. Qed.

(** C9 as stated fails: for 7 faults in 25 accesses the function returns
    [28 + 2^-48], which is neither the number [100 * 7 / 25 = 28] nor the
    double that [100.0 * 7 / 25] evaluates to. *)
Lemma get_fault_percent_is_rounded :
  Prim2SF (Process.get_fault_percent (example_counters 7 25))
  = S754_finite false 7881299347898369 (-48) ∧
  ¬ exact_percent (Process.get_fault_percent (example_counters 7 25)) 7 25 ∧
  PrimFloat.eqb
    (Process.get_fault_percent (example_counters 7 25))
    (100 * Process.to_double 7 / Process.to_double 25)%float = false.
Proof.
  split_and!.
  - vm_compute. reflexivity.
  - vm_compute. intros [=].
  - vm_compute. reflexivity.
Qed.

(** For counters up to 200 the value is within [2^-45] of
    [100 * page_faults / memory_accesses], by evaluation of every case. *)
Lemma get_fault_percent_close faults accesses :
  0 < accesses ≤ 200 → faults ≤ accesses →
  close_percent (Process.get_fault_percent (example_counters faults accesses))
    faults accesses = true.
Proof.
  intros Ha Hf.
  assert (forallb
            (λ a, forallb
                    (λ f, close_percent
                            (Process.get_fault_percent (example_counters f a))
                            f a)
                    (seq 0 (S a)))
            (seq 1 200) = true) as Hall by (vm_compute; reflexivity).
  rewrite forallb_forall in Hall.
  specialize (Hall accesses). rewrite forallb_forall in Hall.
  apply Hall; apply in_seq; lia.
Qed.

(* ===================================================================== *)
(** ** The scenarios of the specification *)
(* ===================================================================== *)

(** One frame, pages 0, 1, 0, 1: four accesses, four faults, a fault rate of
    100, under FIFO and under LRU. *)
Example scenario_one_frame :
  example_summary
    (Simulation.access_loop
       (Simulation.initialize_free_frames
          (example_simulation false Simulation.FIFO 1))
       [example_access 0 0; example_access 1 0; example_access 0 0;
        example_access 1 0])
  = Some ([false; true; false], 4, 4) ∧
  example_summary
    (Simulation.access_loop
       (Simulation.initialize_free_frames
          (example_simulation false Simulation.LRU 1))
       [example_access 0 0; example_access 1 0; example_access 0 0;
        example_access 1 0])
  = Some ([false; true; false], 4, 4) ∧
  Process.get_fault_percent (example_counters 4 4) = 100%float.
Proof. split_and!; vm_compute; reflexivity. Qed.

(** Two frames, pages 0, 1, 0, 2: LRU evicts page 1 and leaves pages 0 and 2
    resident; FIFO evicts page 0. *)
Example scenario_two_frames :
  example_summary
    (Simulation.access_loop
       (Simulation.initialize_free_frames
          (example_simulation false Simulation.LRU 2))
       [example_access 0 0; example_access 1 0; example_access 0 0;
        example_access 2 0])
  = Some ([true; false; true], 4, 3) ∧
  example_summary
    (Simulation.access_loop
       (Simulation.initialize_free_frames
          (example_simulation false Simulation.FIFO 2))
       [example_access 0 0; example_access 1 0; example_access 0 0;
        example_access 2 0])
  = Some ([false; true; true], 4, 3).
Proof. split; vm_compute; reflexivity. Qed.

(* ===================================================================== *)
(** ** A trace that takes the clock past [INT_MAX] *)
(* ===================================================================== *)

Lemma perform_memory_access_hit s va proc row :
  Simulation.verbose (Simulation.flags s) = false →
  Simulation.processes s !! Simulation.process_id va = Some proc →
  PageTable.rows (Process.page_table proc) !! Simulation.page va = Some row →
  PageTable.present row = true →
  Simulation.perform_memory_access s va
  = Simulation.Returned
      (state_after s va proc Hit
         (<[Simulation.page va :=
              Simulation.assign_last_accessed_at (Simulation.time s) row]>
            (PageTable.rows (Process.page_table proc)))
         (Simulation.free_frames s)) ∧
  classify s va = Some Hit.
Proof.
  intros Hq Hproc Hrow Hp. split.
  - rewrite perform_memory_access_unfold, Hproc. cbv zeta.
    destruct (decide _) as [|Hge].
    2:{ destruct Hge. by eapply lookup_lt_Some. }
    unfold table_step. rewrite Hrow. simpl. rewrite Hp.
    rewrite list_lookup_insert_eq by (by eapply lookup_lt_Some).
    unfold conclude. simpl. by rewrite Hq.
  - unfold classify. rewrite Hproc. simpl. rewrite Hrow. simpl.
    by rewrite Hp.
Qed.

Lemma access_hits n : ∀ s va proc row rest,
  Simulation.verbose (Simulation.flags s) = false →
  Simulation.processes s !! Simulation.process_id va = Some proc →
  PageTable.rows (Process.page_table proc) !! Simulation.page va = Some row →
  PageTable.present row = true →
  Simulation.access_loop s (repeat va n ++ rest)
  = Simulation.access_loop (after_hits s va proc row n) rest ∧
  access_log s (repeat va n ++ rest)
  = repeat Hit n ++ access_log (after_hits s va proc row n) rest.
Proof.
  induction n as [|n IH]; intros s va proc row rest Hq Hproc Hrow Hp;
    [done|].
  destruct (perform_memory_access_hit s va proc row Hq Hproc Hrow Hp)
    as [Hstep Hclass].
  cbn [repeat app Simulation.access_loop access_log].
  rewrite Hstep, Hclass.
  set (rows1 := <[Simulation.page va :=
                    Simulation.assign_last_accessed_at (Simulation.time s)
                      row]> (PageTable.rows (Process.page_table proc))).
  set (s1 := Simulation.set_time _ _).
  destruct (IH s1 va (process_after proc Hit rows1)
              (Simulation.assign_last_accessed_at (Simulation.time s) row)
              rest) as [IH1 IH2].
  { done. }
  { apply lookup_insert_eq. }
  { apply list_lookup_insert_eq. by eapply lookup_lt_Some. }
  { done. }
  assert (after_hits s1 va (process_after proc Hit rows1)
            (Simulation.assign_last_accessed_at (Simulation.time s) row) n
          = after_hits s va proc row (S n)) as Heq.
  { destruct n as [|n]; unfold after_hits, s1, state_after, process_after;
      simpl; rewrite Hq; simpl.
    - rewrite Z.add_0_r. done.
    - rewrite insert_insert_eq. unfold rows1.
      rewrite list_insert_insert_eq.
      unfold Simulation.assign_last_accessed_at. simpl.
      f_equal; [|lia]. f_equal. f_equal; [|lia]. f_equal. f_equal.
      f_equal. lia. }
  rewrite IH1, IH2, Heq. done.
Qed.

Lemma example_first_access st rest :
  Simulation.access_loop
    (with_strategy st
       (Simulation.initialize_free_frames
          (example_simulation false Simulation.FIFO 1)))
    (example_access 1 0 :: rest)
  = Simulation.access_loop (example_after_first_access st) rest ∧
  access_log
    (with_strategy st
       (Simulation.initialize_free_frames
          (example_simulation false Simulation.FIFO 1)))
    (example_access 1 0 :: rest)
  = Fault None :: access_log (example_after_first_access st) rest.
Proof.
  cbn [Simulation.access_loop access_log].
  assert (Simulation.perform_memory_access
            (with_strategy st
               (Simulation.initialize_free_frames
                  (example_simulation false Simulation.FIFO 1)))
            (example_access 1 0)
          = Simulation.Returned
              (Simulation.set_time 0 (example_after_first_access st))) as ->
    by (destruct st; vm_compute; reflexivity).
  assert (classify
            (with_strategy st
               (Simulation.initialize_free_frames
                  (example_simulation false Simulation.FIFO 1)))
            (example_access 1 0) = Some (Fault None)) as ->
    by (destruct st; vm_compute; reflexivity).
  done.
Qed.

(** After the hits that take the last access time of page 1 to [INT_MAX],
    a fault on page 2 evicts page 1 under FIFO and selects page 0, which is
    not resident, under LRU. *)
Lemma example_last_access st m :
  (1 + Z.of_nat m = INT_MAX)%Z →
  access_log
    (after_hits (example_after_first_access st) (example_access 1 0)
       {| Process.num_bytes := 192;
          Process.pages := repeat {| Page.size := 64 |} 3;
          Process.page_table :=
            {| PageTable.rows :=
                 [example_row; example_resident_row 0 0; example_row] |};
          Process.memory_accesses := 1;
          Process.page_faults := 1 |}
       (example_resident_row 0 0) (S m))
    [example_access 2 0]
  = [Fault (Some (match st with
                  | Simulation.FIFO => 1
                  | Simulation.LRU => 0
                  end))].
Proof.
  intros Hm.
  set (s := after_hits _ _ _ _ _).
  assert (classify s (example_access 2 0)
          = Some (Fault (Some (match st with
                               | Simulation.FIFO => 1
                               | Simulation.LRU => 0
                               end)))) as Hclass.
  { unfold classify, s, after_hits.
    cbn [Simulation.processes Simulation.process_id example_access
         example_after_first_access Simulation.page].
    rewrite lookup_insert_eq. cbn -[Z.of_nat INT_MAX Z.add].
    destruct st; cbn -[Z.of_nat INT_MAX Z.add]; [done|].
    unfold PageTable.get_least_recently_used_page.
    cbn -[Z.of_nat INT_MAX Z.add].
    rewrite Hm. done. }
  assert (∃ s', Simulation.perform_memory_access s (example_access 2 0)
                = Simulation.Returned s') as [s' Hstep].
  { rewrite perform_memory_access_unfold.
    unfold s, after_hits.
    cbn [Simulation.processes Simulation.process_id example_access
         example_after_first_access Simulation.page].
    rewrite lookup_insert_eq. cbn -[Z.of_nat INT_MAX Z.add table_step].
    unfold table_step. cbn -[Z.of_nat INT_MAX Z.add select_victim].
    pose proof (min_scan_in_range (victim_key st)
                  [example_row;
                   Simulation.assign_last_accessed_at (1 + Z.of_nat m)
                     (example_resident_row 0 0);
                   example_row] INT_MAX ltac:(done)) as Hin.
    pose proof (select_victim_scan st
                  {| PageTable.rows :=
                       [example_row;
                        Simulation.assign_last_accessed_at (1 + Z.of_nat m)
                          (example_resident_row 0 0);
                        example_row] |}) as Hsv.
    cbn [PageTable.rows] in Hsv. rewrite <-Hsv in Hin. clear Hsv.
    destruct (lookup_lt_is_Some_2 _ _ Hin) as [rv Hrv].
    rewrite Hrv. cbn -[Z.of_nat INT_MAX Z.add select_victim].
    rewrite list_lookup_insert_eq
      by (rewrite length_insert; simpl; lia).
    unfold conclude. cbn. by eexists. }
  cbn [access_log]. by rewrite Hclass, Hstep.
Qed.

(** C8 as stated fails on a trace that takes the clock past [INT_MAX]: page
    1 is loaded at time 0 and accessed again at every time up to [INT_MAX];
    the fault on page 2 that follows evicts page 1 under FIFO, while under
    LRU the scan selects page 0, which is not resident. *)
Lemma fifo_lru_differ_past_int_max :
  Simulation.max_frames
    (Simulation.flags (example_simulation false Simulation.FIFO 1)) = 1 ∧
  access_log
    (with_strategy Simulation.FIFO
       (Simulation.initialize_free_frames
          (example_simulation false Simulation.FIFO 1)))
    example_long_trace
  = Fault None :: repeat Hit (Z.to_nat INT_MAX) ++ [Fault (Some 1)] ∧
  access_log
    (with_strategy Simulation.LRU
       (Simulation.initialize_free_frames
          (example_simulation false Simulation.FIFO 1)))
    example_long_trace
  = Fault None :: repeat Hit (Z.to_nat INT_MAX) ++ [Fault (Some 0)] ∧
  access_log
    (with_strategy Simulation.LRU
       (Simulation.initialize_free_frames
          (example_simulation false Simulation.FIFO 1)))
    example_long_trace
  ≠ access_log
      (with_strategy Simulation.FIFO
         (Simulation.initialize_free_frames
            (example_simulation false Simulation.FIFO 1)))
      example_long_trace.
Proof.
  unfold example_long_trace.
  assert (∃ m, Z.to_nat INT_MAX = S m ∧ (1 + Z.of_nat m = INT_MAX)%Z)
    as (m & -> & Hm).
  { exists (Z.to_nat (INT_MAX - 1)). unfold INT_MAX. lia. }
  assert (∀ st,
            access_log
              (with_strategy st
                 (Simulation.initialize_free_frames
                    (example_simulation false Simulation.FIFO 1)))
              (example_access 1 0
               :: repeat (example_access 1 0) (S m) ++ [example_access 2 0])
            = Fault None
              :: repeat Hit (S m)
                 ++ [Fault (Some (match st with
                                  | Simulation.FIFO => 1
                                  | Simulation.LRU => 0
                                  end))]) as Hlog.
  { intros st.
    destruct (example_first_access st
                (repeat (example_access 1 0) (S m) ++ [example_access 2 0]))
      as [_ ->].
    destruct (access_hits (S m) (example_after_first_access st)
                (example_access 1 0)
                {| Process.num_bytes := 192;
                   Process.pages := repeat {| Page.size := 64 |} 3;
                   Process.page_table :=
                     {| PageTable.rows :=
                          [example_row; example_resident_row 0 0;
                           example_row] |};
                   Process.memory_accesses := 1;
                   Process.page_faults := 1 |}
                (example_resident_row 0 0) [example_access 2 0])
      as [_ ->]; [done..|].
    by rewrite (example_last_access st m Hm). }
  split_and!; [done|apply Hlog|apply Hlog|].
  rewrite !Hlog. intros [= Heq%app_inv_head]. discriminate Heq.
Qed.

Lemma example_hits_to_int_max st m :
  (1 + Z.of_nat m = INT_MAX)%Z →
  after_hits (example_after_first_access st) (example_access 1 0)
    {| Process.num_bytes := 192;
       Process.pages := repeat {| Page.size := 64 |} 3;
       Process.page_table :=
         {| PageTable.rows :=
              [example_row; example_resident_row 0 0; example_row] |};
       Process.memory_accesses := 1;
       Process.page_faults := 1 |}
    (example_resident_row 0 0) (S m)
  = example_at_int_max st (S m).
Proof.
  intros Hm. unfold after_hits, example_at_int_max.
  cbn [Simulation.time Simulation.flags Simulation.processes
       Simulation.virtual_addresses Simulation.frames Simulation.free_frames
       Simulation.page_faults Simulation.cout example_after_first_access
       Simulation.process_id Simulation.page example_access
       Process.num_bytes Process.pages Process.page_table
       Process.memory_accesses Process.page_faults PageTable.rows].
  rewrite Hm.
  replace (1 + Z.of_nat (S m))%Z with (INT_MAX + 1)%Z by lia.
  rewrite insert_singleton_eq. done.
Qed.

(** Under LRU the long trace ends with two resident pages for a budget of
    one frame, and with one frame more accounted for than there are. *)
Lemma lru_past_int_max :
  ∃ s,
    Simulation.access_loop
      (with_strategy Simulation.LRU
         (Simulation.initialize_free_frames
            (example_simulation false Simulation.FIFO 1)))
      example_long_trace
    = Simulation.Returned s ∧
    Simulation.max_frames (Simulation.flags s) = 1 ∧
    Process.get_rss <$> Simulation.processes s !! 7%Z = Some 2 ∧
    total_present s = 2 ∧
    length (Simulation.free_frames s) = 511.
Proof.
  unfold example_long_trace.
  assert (∃ m, Z.to_nat INT_MAX = S m ∧ (1 + Z.of_nat m = INT_MAX)%Z)
    as (m & -> & Hm).
  { exists (Z.to_nat (INT_MAX - 1)). unfold INT_MAX. lia. }
  destruct (example_first_access Simulation.LRU
              (repeat (example_access 1 0) (S m) ++ [example_access 2 0]))
    as [-> _].
  destruct (access_hits (S m) (example_after_first_access Simulation.LRU)
              (example_access 1 0)
              {| Process.num_bytes := 192;
                 Process.pages := repeat {| Page.size := 64 |} 3;
                 Process.page_table :=
                   {| PageTable.rows :=
                        [example_row; example_resident_row 0 0;
                         example_row] |};
                 Process.memory_accesses := 1;
                 Process.page_faults := 1 |}
              (example_resident_row 0 0) [example_access 2 0])
    as [-> _]; [done..|].
  rewrite (example_hits_to_int_max Simulation.LRU m Hm).
  generalize (S m). intros n.
  eexists. split; [vm_compute; reflexivity|].
  split_and!; vm_compute; reflexivity.
Qed.

(** C3 as stated fails twice.  With [max_frames = 0] the first access
    faults, takes the eviction path on an empty resident set and leaves one
    page resident.  With [max_frames = 1] under LRU, the long trace leaves
    two pages resident: once page 1 was last used at [INT_MAX] the scan
    selects page 0, which is not resident, and nothing is evicted. *)
Lemma budget_is_exceeded :
  ((s ← state_of (Simulation.access_loop
                    (Simulation.initialize_free_frames
                       (example_simulation false Simulation.FIFO 0))
                    [example_access 0 0]);
    proc ← Simulation.processes s !! 7%Z;
    Some (Process.get_rss proc, Simulation.max_frames (Simulation.flags s)))
   = Some (1, 0) ∧
   ¬ (∀ s, state_of (Simulation.access_loop
                       (Simulation.initialize_free_frames
                          (example_simulation false Simulation.FIFO 0))
                       [example_access 0 0]) = Some s →
           within_budget s)) ∧
  (∃ s proc,
     Simulation.access_loop
       (with_strategy Simulation.LRU
          (Simulation.initialize_free_frames
             (example_simulation false Simulation.FIFO 1)))
       example_long_trace
     = Simulation.Returned s ∧
     Simulation.max_frames (Simulation.flags s) = 1 ∧
     Simulation.processes s !! 7%Z = Some proc ∧
     Process.get_rss proc = 2 ∧
     ¬ within_budget s).
Proof.
  split.
  - split; [vm_compute; reflexivity|].
    intros Hall.
    destruct (state_of _) as [s|] eqn:Hs in Hall; [|by vm_compute in Hs].
    specialize (Hall s eq_refl).
    vm_compute in Hs. injection Hs as <-.
    specialize (Hall 7%Z _ eq_refl). vm_compute in Hall. lia.
  - destruct lru_past_int_max as (s & Hs & Hmax & Hrss & _).
    destruct (Simulation.processes s !! 7%Z) as [proc|] eqn:Hproc;
      [|discriminate Hrss].
    injection Hrss as Hrss.
    exists s, proc.
    split_and!; [exact Hs|exact Hmax|exact Hproc|exact Hrss|].
    intros Hbud. specialize (Hbud 7%Z proc Hproc). simpl in Hbud. lia.
Qed.

(** C4 as stated fails twice, on the same two runs: a page becomes resident
    on the eviction path without a frame leaving the free list, and the sum
    is [NUM_FRAMES + 1]. *)
Lemma accounting_is_broken :
  ((s ← state_of (Simulation.access_loop
                    (Simulation.initialize_free_frames
                       (example_simulation false Simulation.FIFO 0))
                    [example_access 0 0]);
    Some (total_present s, length (Simulation.free_frames s)))
   = Some (1, 512) ∧
   ¬ (∀ s, state_of (Simulation.access_loop
                       (Simulation.initialize_free_frames
                          (example_simulation false Simulation.FIFO 0))
                       [example_access 0 0]) = Some s →
           total_present s + length (Simulation.free_frames s)
           = Simulation.NUM_FRAMES)) ∧
  (∃ s,
     Simulation.access_loop
       (with_strategy Simulation.LRU
          (Simulation.initialize_free_frames
             (example_simulation false Simulation.FIFO 1)))
       example_long_trace
     = Simulation.Returned s ∧
     total_present s = 2 ∧ length (Simulation.free_frames s) = 511 ∧
     total_present s + length (Simulation.free_frames s)
     ≠ Simulation.NUM_FRAMES).
Proof.
  split.
  - split; [vm_compute; reflexivity|].
    intros Hall.
    destruct (state_of _) as [s|] eqn:Hs in Hall; [|by vm_compute in Hs].
    specialize (Hall s eq_refl).
    vm_compute in Hs. injection Hs as <-.
    vm_compute in Hall. discriminate Hall.
  - destruct lru_past_int_max as (s & Hs & _ & _ & Htot & Hfree).
    exists s. split_and!; [exact Hs|exact Htot|exact Hfree|].
    rewrite Htot, Hfree. unfold Simulation.NUM_FRAMES. lia.
Qed.

(* ===================================================================== *)
(** ** Runs whose behaviour is defined *)
(* ===================================================================== *)

Lemma total_present_le (m : gmap Z Process.t) mf :
  map_Forall (λ _ proc, Process.get_rss proc ≤ mf) m →
  map_fold (λ _ proc acc, Process.get_rss proc + acc) 0 m ≤ size m * mf.
Proof.
  induction m as [|pid proc m Hm Hfold IH] using map_first_key_ind.
  - intros _. by rewrite map_fold_empty.
  - intros [Hproc Hall]%map_Forall_insert; [|done].
    rewrite map_fold_insert_first_key by done.
    rewrite map_size_insert_None by done.
    specialize (IH Hall). simpl. lia.
Qed.

Lemma total_present_lt (m : gmap Z Process.t) mf pid proc :
  map_Forall (λ _ proc, Process.get_rss proc ≤ mf) m →
  m !! pid = Some proc → Process.get_rss proc < mf →
  map_fold (λ _ proc acc, Process.get_rss proc + acc) 0 m < size m * mf.
Proof.
  intros Hall Hproc Hlt.
  rewrite (map_fold_delete_L _ _ pid proc m); [| |done].
  2:{ intros. lia. }
  pose proof (total_present_le (delete pid m) mf
                (map_Forall_delete _ _ _ Hall)) as Hle.
  rewrite map_size_delete_Some in Hle by done.
  assert (0 < size m).
  { destruct (decide (size m = 0)) as [Hz%map_size_empty_inv|]; [|lia].
    subst m. by rewrite lookup_empty in Hproc. }
  destruct (size m) as [|n]; [lia|]. simpl in Hle |- *. lia.
Qed.

Lemma table_step_defined fl now page rows free :
  page < length rows →
  (count_present rows < Simulation.max_frames fl → free ≠ []) →
  is_Some (table_step fl now page rows free).
Proof.
  intros Hlt Hfree. unfold table_step.
  destruct (lookup_lt_is_Some_2 rows page Hlt) as [r ->]. simpl.
  destruct (PageTable.present r); [done|].
  destruct (Nat.ltb_spec (count_present rows) (Simulation.max_frames fl)).
  - destruct free as [|f free]; [by destruct Hfree|done].
  - rewrite select_victim_scan. simpl.
    assert (rows ≠ []) as Hne by (intros ->; simpl in Hlt; lia).
    pose proof (min_scan_in_range
                  (victim_key (Simulation.strategy fl)) rows INT_MAX Hne)
      as Hin.
    destruct (lookup_lt_is_Some_2 _ _ Hin) as [rv ->]. done.
Qed.

Lemma perform_memory_access_defined s va rest :
  well_configured s (va :: rest) → within_budget s → frames_accounted s →
  Simulation.perform_memory_access s va ≠ Simulation.Undefined.
Proof.
  intros (Hpids & Hpages & Hcap) Hbud [_ Hacc].
  apply Forall_cons in Hpids as [[proc Hproc] _].
  rewrite perform_memory_access_unfold, Hproc. cbv zeta.
  destruct (decide _) as [Hlt|]; [|done].
  destruct (table_step_defined (Simulation.flags s) (Simulation.time s)
              (Simulation.page va)
              (PageTable.rows (Process.page_table proc))
              (Simulation.free_frames s) Hlt) as [[[k rows'] free'] Hts].
  { rewrite <-get_rss_count. intros Hunder Hempty.
    pose proof (total_present_lt _ _ _ _ Hbud Hproc Hunder) as Htot.
    unfold total_present in Hacc. rewrite Hempty in Hacc. simpl in Hacc.
    lia. }
  rewrite Hts.
  pose proof (table_step_length _ _ _ _ _ _ _ _ Hts) as Hlen.
  destruct (lookup_lt_is_Some_2 rows' (Simulation.page va)) as [row ->];
    [lia|].
  unfold conclude. simpl.
  destruct (Simulation.verbose _); [|done].
  destruct (lookup_lt_is_Some_2 (Process.pages proc) (Simulation.page va))
    as [pg ->].
  { rewrite (Hpages _ _ Hproc). done. }
  by destruct (negb _).
Qed.

Lemma well_configured_step s va rest s' :
  well_configured s (va :: rest) →
  state_of (Simulation.perform_memory_access s va) = Some s' →
  well_configured s' rest.
Proof.
  intros (Hpids & Hpages & Hcap) Hs'.
  apply Forall_cons in Hpids as [_ Hpids].
  pose proof (perform_memory_access_step _ _ _ Hs')
    as (Hfl & _ & proc & Hproc &
        [(_ & _ & Hprocs & _)|(k & rows' & free' & Hts & Hprocs & _)]);
    unfold well_configured; rewrite Hfl, Hprocs.
  - split_and!.
    + eapply Forall_impl; [done|]. intros va' Hva'.
      by apply lookup_insert_is_Some'; right.
    + apply map_Forall_insert_2; [|done]. simpl. by apply (Hpages _ _ Hproc).
    + by rewrite map_size_insert_Some.
  - split_and!.
    + eapply Forall_impl; [done|]. intros va' Hva'.
      by apply lookup_insert_is_Some'; right.
    + apply map_Forall_insert_2; [|done]. simpl.
      rewrite (table_step_length _ _ _ _ _ _ _ _ Hts).
      by apply (Hpages _ _ Hproc).
    + by rewrite map_size_insert_Some.
Qed.

Lemma access_loop_defined trace : ∀ s,
  run_invariant (length trace) s → frames_accounted s →
  well_configured s trace →
  Simulation.access_loop s trace ≠ Simulation.Undefined.
Proof.
  induction trace as [|va trace IH]; intros s Hinv Hacc Hwc; [done|].
  pose proof (perform_memory_access_defined s va trace Hwc
                (proj1 (proj2 Hinv)) Hacc) as Hdef.
  simpl.
  destruct (Simulation.perform_memory_access s va) as [s1|s1|] eqn:Hstep;
    [|done|done].
  assert (state_of (Simulation.perform_memory_access s va) = Some s1)
    as Hs1 by (by rewrite Hstep).
  apply IH.
  - by apply (run_invariant_step _ s va).
  - exact (frames_accounted_step _ s va s1 Hinv Hacc Hs1).
  - exact (well_configured_step s va trace s1 Hwc Hs1).
Qed.

(** From a start in which no page is resident, a run over a well-configured
    trace that keeps the clock at or below [INT_MAX] has defined behaviour:
    it processes the whole trace or exits in a fatal fault. *)
Theorem run_is_defined s0 trace :
  all_rows absent s0 → Simulation.free_frames s0 = [] →
  1 ≤ Simulation.max_frames (Simulation.flags s0) →
  (Simulation.time s0 + Z.of_nat (length trace) ≤ INT_MAX)%Z →
  well_configured s0 trace →
  Simulation.access_loop (Simulation.initialize_free_frames s0) trace
  ≠ Simulation.Undefined.
Proof.
  intros Habs Hfree Hmax Htime Hwc.
  apply access_loop_defined.
  - by apply run_invariant_initial.
  - by apply frames_accounted_initial.
  - exact Hwc.
Qed.

(** The states [run] ends in: the corollary for the trace that the
    simulation holds. *)
Corollary run_within_budget_and_accounted s0 s :
  all_rows absent s0 → Simulation.free_frames s0 = [] →
  1 ≤ Simulation.max_frames (Simulation.flags s0) →
  (Simulation.time s0
   + Z.of_nat (length (Simulation.virtual_addresses s0)) ≤ INT_MAX)%Z →
  state_of (Simulation.run s0) = Some s →
  within_budget s ∧
  total_present s + length (Simulation.free_frames s)
  = Simulation.NUM_FRAMES.
Proof.
  intros Habs Hfree Hmax Htime Hs.
  destruct (access_loop_accounted (Simulation.virtual_addresses s0)
              (Simulation.initialize_free_frames s0) s)
    as [Hbud [_ Hacc]]; try done.
  - by apply run_invariant_initial.
  - by apply frames_accounted_initial.
Qed.

(* ===================================================================== *)
(** ** The page table on its own *)
(* ===================================================================== *)

Lemma count_present_filter rows :
  count_present rows
  = length (filter (λ r, PageTable.present r = true) rows).
Proof.
  induction rows as [|r rows IH]; [done|]. simpl.
  destruct (PageTable.present r) eqn:Hp.
  - rewrite filter_cons_True by done. simpl. by rewrite IH.
  - rewrite filter_cons_False by (by rewrite Hp). by rewrite IH.
Qed.

Lemma count_present_le rows : count_present rows ≤ length rows.
Proof.
  induction rows as [|r rows IH]; simpl; [lia|].
  destruct (PageTable.present r); lia.
Qed.

Lemma count_present_full rows :
  count_present rows = length rows →
  Forall (λ r, PageTable.present r = true) rows.
Proof.
  induction rows as [|r rows IH]; simpl; [by constructor|].
  pose proof (count_present_le rows).
  destruct (PageTable.present r) eqn:Hp; [|lia].
  intros Hc. constructor; [done|]. apply IH. lia.
Qed.

(** X1: [get_present_page_count] is the number of rows whose [present] bit
    is set; it is at most the size of the table, it is the size of the table
    only when every row is present, and it is 0 only when none is. *)
Theorem get_present_page_count_counts pt :
  PageTable.get_present_page_count pt
  = length (filter (λ r, PageTable.present r = true) (PageTable.rows pt)) ∧
  PageTable.get_present_page_count pt ≤ length (PageTable.rows pt) ∧
  (PageTable.get_present_page_count pt = length (PageTable.rows pt) →
   Forall (λ r, PageTable.present r = true) (PageTable.rows pt)) ∧
  (PageTable.get_present_page_count pt = 0 →
   Forall absent (PageTable.rows pt)).
Proof.
  unfold PageTable.get_present_page_count.
  rewrite present_loop_count. simpl.
  split_and!.
  - apply count_present_filter.
  - apply count_present_le.
  - apply count_present_full.
  - intros Hz. apply Forall_lookup. intros i r Hi.
    destruct (PageTable.present r) eqn:Hp; [|done].
    assert (0 < count_present (PageTable.rows pt)); [|lia].
    apply (resident_count_pos _ i). by exists r.
Qed.

Lemma get_present_page_count_counts_witness :
  PageTable.get_present_page_count example_table = 2 ∧
  (PageTable.get_present_page_count
     {| PageTable.rows := [example_resident_row 3 8] |} = 1 →
   Forall (λ r, PageTable.present r = true) [example_resident_row 3 8]).
Proof.
  split; [reflexivity|].
  apply (get_present_page_count_counts
           {| PageTable.rows := [example_resident_row 3 8] |}).
Defined.

(** X2: on a table that is not empty, [get_oldest_page] and
    [get_least_recently_used_page] return an index inside the table, so the
    row that [handle_page_fault] clears and reads the frame of exists. *)
Theorem victim_is_in_range pt :
  PageTable.rows pt ≠ [] →
  PageTable.get_oldest_page pt < length (PageTable.rows pt) ∧
  PageTable.get_least_recently_used_page pt < length (PageTable.rows pt).
Proof.
  intros Hne.
  unfold PageTable.get_oldest_page, PageTable.get_least_recently_used_page.
  rewrite oldest_loop_scan, lru_loop_scan.
  split; by apply min_scan_in_range.
Qed.

Lemma victim_is_in_range_witness :
  PageTable.rows example_table_at_int_max ≠ [] ∧
  PageTable.get_oldest_page example_table_at_int_max < 2 ∧
  PageTable.get_least_recently_used_page example_table_at_int_max < 2.
Proof.
  assert (PageTable.rows example_table_at_int_max ≠ []) as Hne
    by (intros [=]).
  split; [exact Hne|].
  exact (victim_is_in_range example_table_at_int_max Hne).
Defined.

(* ===================================================================== *)
(** ** One access, in full *)
(* ===================================================================== *)

Lemma conclude_same_but_cout s proc row va s' :
  state_of (conclude s proc row va) = Some s' → same_but_cout s s'.
Proof.
  unfold conclude, same_but_cout.
  destruct (Simulation.verbose _).
  - destruct (_ !! _); [|done].
    destruct (negb _); simpl; intros [= <-]; done.
  - simpl. by intros [= <-].
Qed.

(** Every field of the state an access ends in. *)
Lemma perform_memory_access_full s va s' :
  state_of (Simulation.perform_memory_access s va) = Some s' →
  ∃ proc,
    Simulation.processes s !! Simulation.process_id va = Some proc ∧
    ((length (PageTable.rows (Process.page_table proc)) ≤ Simulation.page va ∧
      Simulation.perform_memory_access s va = Simulation.Exited s' ∧
      s' = state_invalid_page s va proc)
     ∨ (Simulation.page va
        < length (PageTable.rows (Process.page_table proc)) ∧
        ∃ k rows' free',
          table_step (Simulation.flags s) (Simulation.time s)
            (Simulation.page va) (PageTable.rows (Process.page_table proc))
            (Simulation.free_frames s) = Some (k, rows', free') ∧
          same_but_cout (state_after s va proc k rows' free') s')).
Proof.
  rewrite perform_memory_access_unfold.
  destruct (Simulation.processes s !! _) as [proc|] eqn:Hproc; [|done].
  cbv zeta. destruct (decide _) as [Hlt|Hge].
  - destruct (table_step _ _ _ _ _) as [[[k rows'] free']|] eqn:Hts; [|done].
    destruct (rows' !! _) as [row|]; [|done].
    intros Hs'%conclude_same_but_cout.
    exists proc. split; [done|]. right. split; [done|].
    by exists k, rows', free'.
  - simpl. intros [= <-]. exists proc. split; [done|]. left.
    split_and!; [lia|done..].
Qed.

(** The row of the page that a fault or a hit has just served. *)
Lemma table_step_served fl now page rows free k rows' free' :
  table_step fl now page rows free = Some (k, rows', free') →
  ∃ r r', rows !! page = Some r ∧ rows' !! page = Some r' ∧
    PageTable.present r' = true ∧
    PageTable.last_accessed_at r' = now ∧
    (if is_hit k
     then PageTable.present r = true ∧
          PageTable.loaded_at r' = PageTable.loaded_at r ∧
          PageTable.frame r' = PageTable.frame r
     else PageTable.present r = false ∧ PageTable.loaded_at r' = now).
Proof.
  intros Hts.
  pose proof (table_step_length _ _ _ _ _ _ _ _ Hts) as Hlen.
  destruct (table_step_cases _ _ _ _ _ _ _ _ Hts)
    as (r & Hr & [(Hp & -> & -> & _)|[(Hp & _ & f & _ & -> & -> & _)
                 |(Hp & _ & rv & _ & -> & -> & _)]]);
    exists r; eexists; (split; [done|]);
    (split; [apply list_lookup_insert_eq;
             rewrite ?length_insert; by eapply lookup_lt_Some|]);
    simpl; by split_and!.
Qed.

(** X3: an access that returns leaves its page present, last accessed at the
    clock of the access, and counts one more access for its process.  A hit
    changes nothing else: the row keeps its frame and its load time, every
    other row, both fault counters, the frame log and the free list are as
    before.  A fault sets the load time to the clock as well, adds one to
    the fault counter of the process and to the global one, and appends one
    entry for this process and page to the frame log. *)
Theorem access_serves_its_page s va s' :
  Simulation.perform_memory_access s va = Simulation.Returned s' →
  ∃ proc proc' r r' k,
    Simulation.processes s !! Simulation.process_id va = Some proc ∧
    Simulation.processes s' !! Simulation.process_id va = Some proc' ∧
    classify s va = Some k ∧
    PageTable.rows (Process.page_table proc) !! Simulation.page va = Some r ∧
    PageTable.rows (Process.page_table proc') !! Simulation.page va
    = Some r' ∧
    PageTable.present r' = true ∧
    PageTable.last_accessed_at r' = Simulation.time s ∧
    Process.memory_accesses proc' = S (Process.memory_accesses proc) ∧
    if is_hit k then
      PageTable.present r = true ∧
      PageTable.loaded_at r' = PageTable.loaded_at r ∧
      PageTable.frame r' = PageTable.frame r ∧
      PageTable.rows (Process.page_table proc')
      = <[Simulation.page va := r']>
          (PageTable.rows (Process.page_table proc)) ∧
      Process.page_faults proc' = Process.page_faults proc ∧
      Simulation.page_faults s' = Simulation.page_faults s ∧
      Simulation.frames s' = Simulation.frames s ∧
      Simulation.free_frames s' = Simulation.free_frames s
    else
      PageTable.present r = false ∧
      PageTable.loaded_at r' = Simulation.time s ∧
      Process.page_faults proc' = S (Process.page_faults proc) ∧
      Simulation.page_faults s' = S (Simulation.page_faults s) ∧
      Simulation.frames s'
      = Simulation.frames s
        ++ [{| Simulation.frame_process := Simulation.process_id va;
               Simulation.frame_page := Simulation.page va |}].
Proof.
  intros Hstep.
  assert (state_of (Simulation.perform_memory_access s va) = Some s')
    as (proc & Hproc & [(_ & Hex & _)|(Hlt & k & rows' & free' & Hts & Hsame)])
         %perform_memory_access_full by (by rewrite Hstep).
  { congruence. }
  destruct Hsame as (_ & Hprocs & _ & Hfr & Hff & _ & Hpf).
  simpl in Hprocs, Hfr, Hff, Hpf.
  destruct (table_step_served _ _ _ _ _ _ _ _ Hts)
    as (r & r' & Hr & Hr' & Hp' & Hlast & Hkind).
  exists proc, (process_after proc k rows'), r, r', k.
  rewrite Hprocs, lookup_insert_eq, Hfr, Hff, Hpf.
  rewrite (table_step_classify _ _ _ _ _ _ Hproc Hts).
  split_and!; try done.
  destruct (table_step_cases _ _ _ _ _ _ _ _ Hts)
    as (r0 & Hr0 & [(Hp & -> & -> & ->)|[(Hp & _ & f & _ & -> & -> & _)
                   |(Hp & _ & rv & _ & -> & -> & _)]]); simpl in *.
  - destruct Hkind as (? & ? & ?).
    rewrite list_lookup_insert_eq in Hr' by (by eapply lookup_lt_Some).
    injection Hr' as <-. assert (r0 = r) as -> by congruence.
    by split_and!.
  - destruct Hkind as [? ?]. by split_and!.
  - destruct Hkind as [? ?]. by split_and!.
Qed.

Lemma access_serves_its_page_witness :
  ∃ s' proc' r',
    Simulation.perform_memory_access
      (example_after_first_access Simulation.FIFO) (example_access 1 5)
    = Simulation.Returned s' ∧
    Simulation.processes s' !! 7%Z = Some proc' ∧
    PageTable.rows (Process.page_table proc') !! 1 = Some r' ∧
    PageTable.present r' = true ∧
    PageTable.last_accessed_at r' = 1%Z.
Proof.
  assert (∃ s', Simulation.perform_memory_access
                  (example_after_first_access Simulation.FIFO)
                  (example_access 1 5) = Simulation.Returned s')
    as [s' Hs'] by (eexists; vm_compute; reflexivity).
  destruct (access_serves_its_page _ _ _ Hs')
    as (proc & proc' & r & r' & k & _ & Hproc' & _ & _ & Hr' & Hp' & Hl & _).
  by exists s', proc', r'.
Defined.

(* ===================================================================== *)
(** ** What a run leaves alone *)
(* ===================================================================== *)

Lemma same_shape_refl proc : same_shape proc proc.
Proof. by split_and!. Qed.

Lemma same_shape_trans p1 p2 p3 :
  same_shape p1 p2 → same_shape p2 p3 → same_shape p1 p3.
Proof. intros (? & ? & ?) (? & ? & ?). split_and!; congruence. Qed.

Lemma perform_memory_access_shape s va s' :
  state_of (Simulation.perform_memory_access s va) = Some s' →
  ∃ proc proc',
    Simulation.processes s !! Simulation.process_id va = Some proc ∧
    Simulation.processes s'
    = <[Simulation.process_id va := proc']> (Simulation.processes s) ∧
    same_shape proc proc'.
Proof.
  intros (proc & Hproc & [(_ & _ & ->)|(_ & k & rows' & free' & Hts & Hsame)])
    %perform_memory_access_full.
  - eexists proc, _. split; [done|]. split.
    + unfold state_invalid_page, Simulation.print_verbose.
      by destruct (Simulation.verbose _).
    + by split_and!.
  - destruct Hsame as (_ & Hprocs & _). simpl in Hprocs.
    exists proc, (process_after proc k rows'). split_and!; try done.
    split_and!; try done. simpl. by eapply table_step_length.
Qed.

(** The processes along the access loop. *)
Lemma access_loop_run_shape trace : ∀ s0 s,
  state_of (Simulation.access_loop s0 trace) = Some s →
  ∀ pid,
    (Simulation.processes s0 !! pid = None →
     Simulation.processes s !! pid = None) ∧
    (∀ proc0,
       Simulation.processes s0 !! pid = Some proc0 →
       ∃ proc,
         Simulation.processes s !! pid = Some proc ∧
         same_shape proc0 proc ∧
         (pid ∉ Simulation.process_id <$> trace → proc = proc0)).
Proof.
  induction trace as [|va trace IH]; intros s0 s; simpl.
  { intros [= <-] pid. split; [done|]. intros proc0 Hp. exists proc0.
    split_and!; [done|apply same_shape_refl|done]. }
  assert (∀ s1,
            state_of (Simulation.perform_memory_access s0 va) = Some s1 →
            ∀ pid,
              (Simulation.processes s0 !! pid = None →
               Simulation.processes s1 !! pid = None) ∧
              (∀ proc0,
                 Simulation.processes s0 !! pid = Some proc0 →
                 ∃ proc,
                   Simulation.processes s1 !! pid = Some proc ∧
                   same_shape proc0 proc ∧
                   (pid ≠ Simulation.process_id va → proc = proc0)))
    as Hone.
  { intros s1 (proc & proc' & Hproc & -> & Hshape)
      %perform_memory_access_shape pid.
    destruct (decide (pid = Simulation.process_id va)) as [->|Hne].
    - rewrite lookup_insert_eq. split; [congruence|].
      intros proc0 Hp0. assert (proc0 = proc) as -> by congruence.
      by exists proc'.
    - rewrite lookup_insert_ne by done. split; [done|].
      intros proc0 Hp0. exists proc0.
      split_and!; [done|apply same_shape_refl|done]. }
  destruct (Simulation.perform_memory_access s0 va) as [s1|s1|] eqn:Hstep;
    simpl; [| |done].
  - intros Hs pid.
    destruct (Hone s1 eq_refl pid) as [Hnone Hsome].
    destruct (IH _ _ Hs pid) as [IHnone IHsome].
    split; [by intros ?%Hnone%IHnone|].
    intros proc0 (proc1 & Hp1 & Hsh1 & Heq1)%Hsome.
    destruct (IHsome proc1 Hp1) as (proc & Hp & Hsh & Heq).
    exists proc. split_and!; [done|by eapply same_shape_trans|].
    intros Hnotin. apply not_elem_of_cons in Hnotin as [Hne Hnotin].
    rewrite Heq, Heq1; done.
  - intros [= <-] pid.
    destruct (Hone s1 eq_refl pid) as [Hnone Hsome].
    split; [done|].
    intros proc0 (proc1 & Hp1 & Hsh1 & Heq1)%Hsome.
    exists proc1. split_and!; [done..|].
    intros Hnotin. apply not_elem_of_cons in Hnotin as [Hne Hnotin].
    by apply Heq1.
Qed.

(** X4: a run neither creates nor removes a process and never resizes one:
    in every state it ends in, each process of the start is still there with
    the same size, the same pages and a page table of the same length, and a
    process that no access of the trace names is unchanged altogether. *)
Theorem run_keeps_processes_in_shape trace : ∀ s0 s,
  state_of (Simulation.access_loop s0 trace) = Some s →
  ∀ pid,
    (Simulation.processes s0 !! pid = None →
     Simulation.processes s !! pid = None) ∧
    (∀ proc0,
       Simulation.processes s0 !! pid = Some proc0 →
       ∃ proc,
         Simulation.processes s !! pid = Some proc ∧
         same_shape proc0 proc ∧
         (pid ∉ Simulation.process_id <$> trace → proc = proc0)).
Proof. apply access_loop_run_shape. Qed.

Lemma run_keeps_processes_in_shape_witness :
  ∃ s proc,
    state_of (Simulation.access_loop
                (Simulation.initialize_free_frames
                   (example_simulation false Simulation.FIFO 1))
                [example_access 0 0; example_access 1 0])
    = Some s ∧
    Simulation.processes s !! 7%Z = Some proc ∧
    same_shape (example_process 3) proc ∧
    Simulation.processes s !! 8%Z = None.
Proof.
  assert (∃ s, state_of (Simulation.access_loop
                           (Simulation.initialize_free_frames
                              (example_simulation false Simulation.FIFO 1))
                           [example_access 0 0; example_access 1 0])
               = Some s) as [s Hs] by (eexists; vm_compute; reflexivity).
  destruct (run_keeps_processes_in_shape _ _ _ Hs 7%Z) as [_ H7].
  destruct (H7 (example_process 3) eq_refl) as (proc & Hproc & Hshape & _).
  destruct (run_keeps_processes_in_shape _ _ _ Hs 8%Z) as [H8 _].
  exists s, proc. split_and!; [done..|]. by apply H8.
Defined.

(* ===================================================================== *)
(** ** The counters *)
(* ===================================================================== *)

Lemma map_sum_insert g (m : gmap Z Process.t) pid proc proc' :
  m !! pid = Some proc →
  map_sum g (<[pid := proc']> m) + g proc = map_sum g m + g proc'.
Proof.
  intros Hm. unfold map_sum.
  rewrite <-(insert_delete_eq m pid proc').
  rewrite map_fold_insert_L.
  - rewrite (map_fold_delete_L _ _ pid proc m); [lia| |done].
    intros. lia.
  - intros. lia.
  - apply lookup_delete_eq.
Qed.

(** How one access moves the counters. *)
Lemma perform_memory_access_counters s va s' :
  state_of (Simulation.perform_memory_access s va) = Some s' →
  Simulation.time s' = Simulation.time s ∧
  map_sum Process.memory_accesses (Simulation.processes s')
  = S (map_sum Process.memory_accesses (Simulation.processes s)) ∧
  ∃ d,
    Simulation.page_faults s' = d + Simulation.page_faults s ∧
    map_sum Process.page_faults (Simulation.processes s')
    = d + map_sum Process.page_faults (Simulation.processes s) ∧
    length (Simulation.frames s') = d + length (Simulation.frames s) ∧
    ∀ pid proc',
      Simulation.processes s' !! pid = Some proc' →
      ∃ proc,
        Simulation.processes s !! pid = Some proc ∧
        Process.memory_accesses proc ≤ Process.memory_accesses proc' ∧
        Process.page_faults proc' + Process.memory_accesses proc
        ≤ Process.page_faults proc + Process.memory_accesses proc'.
Proof.
  intros (proc & Hproc & [(_ & _ & ->)|(_ & k & rows' & free' & Hts & Hsame)])
    %perform_memory_access_full.
  - assert (Simulation.processes (state_invalid_page s va proc)
            = <[Simulation.process_id va :=
                  Process.set_memory_accesses
                    (S (Process.memory_accesses proc)) proc]>
                (Simulation.processes s)) as Hprocs.
    { unfold state_invalid_page, Simulation.print_verbose.
      by destruct (Simulation.verbose _). }
    rewrite Hprocs.
    pose proof (map_sum_insert Process.memory_accesses _ _ _
                  (Process.set_memory_accesses
                     (S (Process.memory_accesses proc)) proc) Hproc) as Hma.
    pose proof (map_sum_insert Process.page_faults _ _ _
                  (Process.set_memory_accesses
                     (S (Process.memory_accesses proc)) proc) Hproc) as Hpf.
    simpl in Hma, Hpf.
    split_and!.
    + unfold state_invalid_page, Simulation.print_verbose.
      by destruct (Simulation.verbose _).
    + lia.
    + exists 0. split_and!.
      * unfold state_invalid_page, Simulation.print_verbose.
        by destruct (Simulation.verbose _).
      * lia.
      * unfold state_invalid_page, Simulation.print_verbose.
        by destruct (Simulation.verbose _).
      * intros pid proc'.
        destruct (decide (pid = Simulation.process_id va)) as [->|Hne].
        -- rewrite lookup_insert_eq. intros [= <-]. exists proc.
           simpl. split_and!; [done|lia..].
        -- rewrite lookup_insert_ne by done. intros Hp. exists proc'.
           split_and!; [done|lia..].
  - destruct Hsame as (_ & Hprocs & _ & Hfr & _ & Htm & Hpfs).
    simpl in Hprocs, Hfr, Htm, Hpfs. rewrite Hprocs, Hfr, Hpfs.
    pose proof (map_sum_insert Process.memory_accesses _ _ _
                  (process_after proc k rows') Hproc) as Hma.
    pose proof (map_sum_insert Process.page_faults _ _ _
                  (process_after proc k rows') Hproc) as Hpf.
    simpl in Hma, Hpf.
    split_and!; [done|lia|].
    exists (if is_hit k then 0 else 1).
    destruct (is_hit k) eqn:Hk; simpl.
    + split_and!; [done|lia|done|].
      intros pid proc'.
      destruct (decide (pid = Simulation.process_id va)) as [->|Hne].
      * rewrite lookup_insert_eq. intros [= <-]. exists proc.
        simpl. rewrite Hk. split_and!; [done|lia..].
      * rewrite lookup_insert_ne by done. intros Hp. exists proc'.
        split_and!; [done|lia..].
    + split_and!; [done|lia|rewrite length_app; simpl; lia|].
      intros pid proc'.
      destruct (decide (pid = Simulation.process_id va)) as [->|Hne].
      * rewrite lookup_insert_eq. intros [= <-]. exists proc.
        simpl. rewrite Hk. split_and!; [done|lia..].
      * rewrite lookup_insert_ne by done. intros Hp. exists proc'.
        split_and!; [done|lia..].
Qed.

(** The counters along the access loop. *)
Lemma access_loop_counters trace : ∀ s0 s,
  state_of (Simulation.access_loop s0 trace) = Some s →
  Simulation.page_faults s
  + map_sum Process.page_faults (Simulation.processes s0)
  = Simulation.page_faults s0
    + map_sum Process.page_faults (Simulation.processes s) ∧
  length (Simulation.frames s) + Simulation.page_faults s0
  = length (Simulation.frames s0) + Simulation.page_faults s ∧
  map_sum Process.memory_accesses (Simulation.processes s)
  ≤ map_sum Process.memory_accesses (Simulation.processes s0)
    + length trace ∧
  (map_Forall
     (λ _ proc, Process.page_faults proc ≤ Process.memory_accesses proc)
     (Simulation.processes s0) →
   map_Forall
     (λ _ proc, Process.page_faults proc ≤ Process.memory_accesses proc)
     (Simulation.processes s)) ∧
  (Simulation.access_loop s0 trace = Simulation.Returned s →
   map_sum Process.memory_accesses (Simulation.processes s)
   = map_sum Process.memory_accesses (Simulation.processes s0)
     + length trace ∧
   Simulation.time s = (Simulation.time s0 + Z.of_nat (length trace))%Z).
Proof.
  induction trace as [|va trace IH]; intros s0 s; simpl.
  { intros [= <-].
    split_and!; first [done | lia | (intros _; split; lia)]. }
  assert (∀ s1,
            state_of (Simulation.perform_memory_access s0 va) = Some s1 →
            map_Forall
              (λ _ proc,
                 Process.page_faults proc ≤ Process.memory_accesses proc)
              (Simulation.processes s0) →
            map_Forall
              (λ _ proc,
                 Process.page_faults proc ≤ Process.memory_accesses proc)
              (Simulation.processes s1)) as Hle.
  { intros s1 (_ & _ & d & _ & _ & _ & Hper)%perform_memory_access_counters
      Hall pid proc' Hp'.
    destruct (Hper pid proc' Hp') as (proc & Hp & _ & Hd).
    specialize (Hall pid proc Hp). simpl in Hall. lia. }
  destruct (Simulation.perform_memory_access s0 va) as [s1|s1|] eqn:Hstep;
    simpl; [| |done].
  - intros Hs.
    destruct (perform_memory_access_counters s0 va s1)
      as (Htm & Hma & d & Hpf & Hsum & Hfr & _); [by rewrite Hstep|].
    destruct (IH _ _ Hs) as (IH1 & IH2 & IH3 & IH4 & IH5).
    simpl in IH1, IH2, IH3, IH4, IH5.
    split_and!; try lia.
    + intros Hall. apply IH4. by apply Hle.
    + intros Hret. destruct (IH5 Hret) as [IH6 IH7]. split; lia.
  - intros [= <-].
    destruct (perform_memory_access_counters s0 va s1)
      as (Htm & Hma & d & Hpf & Hsum & Hfr & _); [by rewrite Hstep|].
    split_and!; try lia.
    + by apply Hle.
    + intros [=].
Qed.

(** X5: along a run the counters stay consistent.  The global fault counter,
    the sum of the fault counters of the processes and the frame log grow by
    the same amount; no process counts more faults than accesses if none did
    at the start; the access counters grow by one for every access started,
    and when the whole trace is processed they have grown by its length. *)
Theorem counters_are_consistent trace : ∀ s0 s,
  state_of (Simulation.access_loop s0 trace) = Some s →
  Simulation.page_faults s
  + map_sum Process.page_faults (Simulation.processes s0)
  = Simulation.page_faults s0
    + map_sum Process.page_faults (Simulation.processes s) ∧
  length (Simulation.frames s) + Simulation.page_faults s0
  = length (Simulation.frames s0) + Simulation.page_faults s ∧
  map_sum Process.memory_accesses (Simulation.processes s)
  ≤ map_sum Process.memory_accesses (Simulation.processes s0)
    + length trace ∧
  (map_Forall
     (λ _ proc, Process.page_faults proc ≤ Process.memory_accesses proc)
     (Simulation.processes s0) →
   map_Forall
     (λ _ proc, Process.page_faults proc ≤ Process.memory_accesses proc)
     (Simulation.processes s)) ∧
  (Simulation.access_loop s0 trace = Simulation.Returned s →
   map_sum Process.memory_accesses (Simulation.processes s)
   = map_sum Process.memory_accesses (Simulation.processes s0)
     + length trace).
Proof.
  intros s0 s Hs.
  destruct (access_loop_counters trace s0 s Hs) as (H1 & H2 & H3 & H4 & H5).
  split_and!; try done. intros Hret. by destruct (H5 Hret).
Qed.

Lemma counters_are_consistent_witness :
  ∃ s,
    Simulation.access_loop
      (Simulation.initialize_free_frames
         (example_simulation false Simulation.LRU 2))
      [example_access 0 0; example_access 1 0; example_access 0 0;
       example_access 2 0]
    = Simulation.Returned s ∧
    Simulation.page_faults s
    = map_sum Process.page_faults (Simulation.processes s) ∧
    length (Simulation.frames s) = Simulation.page_faults s ∧
    map_sum Process.memory_accesses (Simulation.processes s) = 4.
Proof.
  assert (∃ s, Simulation.access_loop
                 (Simulation.initialize_free_frames
                    (example_simulation false Simulation.LRU 2))
                 [example_access 0 0; example_access 1 0; example_access 0 0;
                  example_access 2 0] = Simulation.Returned s)
    as [s Hs] by (eexists; vm_compute; reflexivity).
  destruct (counters_are_consistent _ _ s ltac:(by rewrite Hs))
    as (H1 & H2 & _ & _ & H5).
  pose proof (H5 Hs) as H6.
  assert (map_sum Process.page_faults
            (Simulation.processes
               (Simulation.initialize_free_frames
                  (example_simulation false Simulation.LRU 2))) = 0)
    as Hz by (vm_compute; reflexivity).
  assert (map_sum Process.memory_accesses
            (Simulation.processes
               (Simulation.initialize_free_frames
                  (example_simulation false Simulation.LRU 2))) = 0)
    as Hz' by (vm_compute; reflexivity).
  rewrite Hz in H1. rewrite Hz' in H6. simpl in H1, H2, H6.
  exists s. split_and!; [done|lia..].
Defined.

(* ===================================================================== *)
(** ** The frame pool *)
(* ===================================================================== *)

Lemma table_step_free fl now page rows free k rows' free' n :
  table_step fl now page rows free = Some (k, rows', free') →
  n ≤ Simulation.NUM_FRAMES → free = seq n (Simulation.NUM_FRAMES - n) →
  (k ≠ Fault None ∧ free' = free)
  ∨ (k = Fault None ∧ S n ≤ Simulation.NUM_FRAMES ∧
     free' = seq (S n) (Simulation.NUM_FRAMES - S n) ∧
     ∃ r, rows !! page = Some r ∧ PageTable.present r = false ∧
          rows' = <[page := Simulation.loaded_row n now]> rows).
Proof.
  intros Hts Hn ->.
  destruct (table_step_cases _ _ _ _ _ _ _ _ Hts)
    as (r & Hr & [(Hp & -> & -> & ->)|[(Hp & _ & f & Hf & -> & -> & ->)
                 |(Hp & _ & rv & _ & -> & -> & ->)]]);
    [by left| |by left].
  right.
  destruct (Simulation.NUM_FRAMES - n) as [|m] eqn:Hm; [done|].
  simpl in Hf. injection Hf as <-.
  assert (Simulation.NUM_FRAMES - S n = m) as -> by lia.
  split_and!; [done|lia| |by exists r].
  change (seq n (S m)) with (n :: seq (S n) m).
  apply remove_front. apply (NoDup_seq n (S m)).
Qed.

Lemma free_from_initial s0 :
  Simulation.free_frames s0 = [] →
  free_from 0 (Simulation.initialize_free_frames s0).
Proof.
  intros Hfree. split; [lia|].
  unfold Simulation.initialize_free_frames, Simulation.NUM_FRAMES.
  cbn [Simulation.free_frames Simulation.set_free_frames].
  rewrite Hfree. apply app_nil_l.
Qed.

Lemma perform_memory_access_free s va s' n :
  free_from n s →
  state_of (Simulation.perform_memory_access s va) = Some s' →
  ∃ n', n ≤ n' ∧ free_from n' s'.
Proof.
  intros [Hn Hfree]
    (proc & Hproc & [(_ & _ & ->)|(_ & k & rows' & free' & Hts & Hsame)])
    %perform_memory_access_full.
  - exists n. split; [done|]. split; [done|].
    unfold state_invalid_page, Simulation.print_verbose.
    by destruct (Simulation.verbose _).
  - destruct Hsame as (_ & _ & _ & _ & Hff & _). simpl in Hff.
    destruct (table_step_free _ _ _ _ _ _ _ _ n Hts Hn Hfree)
      as [[_ ->]|(_ & Hn' & -> & _)].
    + exists n. split; [done|]. split; [done|]. by rewrite Hff.
    + exists (S n). split; [lia|]. split; [done|]. by rewrite Hff.
Qed.

(** X6: frames are handed out in increasing order and never come back.  In
    every state of a run the free list is [k, k+1, ..., NUM_FRAMES-1] for
    some [k]: a fault under budget takes [k], the lowest-numbered free
    frame, and nothing ever adds to the list. *)
Theorem free_list_is_a_suffix s0 trace s :
  Simulation.free_frames s0 = [] →
  state_of (Simulation.access_loop
              (Simulation.initialize_free_frames s0) trace) = Some s →
  ∃ k, k ≤ Simulation.NUM_FRAMES ∧
       Simulation.free_frames s = seq k (Simulation.NUM_FRAMES - k).
Proof.
  intros Hfree.
  apply (access_loop_invariant
           (λ _ s, ∃ k, free_from k s)
           (λ s, ∃ k, k ≤ Simulation.NUM_FRAMES ∧
                      Simulation.free_frames s
                      = seq k (Simulation.NUM_FRAMES - k))).
  - intros _ s1 va s' [k Hk] Hstep.
    destruct (perform_memory_access_free s1 va s' k Hk) as (k' & _ & Hk');
      [by rewrite Hstep|].
    by exists k'.
  - intros _ s1 va s' [k Hk] Hstep.
    destruct (perform_memory_access_free s1 va s' k Hk) as (k' & _ & Hk');
      [by rewrite Hstep|].
    by exists k'.
  - intros s1 [k Hk]. by exists k.
  - exists 0. by apply free_from_initial.
Qed.

Lemma free_list_is_a_suffix_witness :
  ∃ s k,
    state_of (Simulation.access_loop
                (Simulation.initialize_free_frames
                   (example_simulation false Simulation.FIFO 2))
                [example_access 2 0; example_access 0 0; example_access 1 0])
    = Some s ∧
    k ≤ Simulation.NUM_FRAMES ∧
    Simulation.free_frames s = seq k (Simulation.NUM_FRAMES - k).
Proof.
  assert (∃ s, state_of (Simulation.access_loop
                           (Simulation.initialize_free_frames
                              (example_simulation false Simulation.FIFO 2))
                           [example_access 2 0; example_access 0 0;
                            example_access 1 0]) = Some s)
    as [s Hs] by (eexists; vm_compute; reflexivity).
  destruct (free_list_is_a_suffix
              (example_simulation false Simulation.FIFO 2) _ s eq_refl Hs)
    as (k & Hk & Hfree).
  exists s, k. split; [exact Hs|]. split; [exact Hk|exact Hfree].
Defined.

Lemma owns_insert s s' pid proc' pid' i f :
  Simulation.processes s'
  = <[pid := proc']> (Simulation.processes s) →
  owns s' pid' i f →
  (pid' = pid ∧ row_owns (PageTable.rows (Process.page_table proc')) i f)
  ∨ (pid' ≠ pid ∧ owns s pid' i f).
Proof.
  intros Hprocs (proc & Hproc & Hown). rewrite Hprocs in Hproc.
  destruct (decide (pid' = pid)) as [->|Hne].
  - rewrite lookup_insert_eq in Hproc. injection Hproc as <-. by left.
  - rewrite lookup_insert_ne in Hproc by done. right. split; [done|].
    by exists proc.
Qed.

(** The pages that are resident after an access were resident before it, in
    the same frames, except the page that a fault brings in: it takes the
    front free frame, or the frame of the victim. *)
Lemma table_step_owns fl now page rows free k rows' free' n :
  table_step fl now page rows free = Some (k, rows', free') →
  Forall (stamped_before now) rows → (now ≤ INT_MAX)%Z →
  1 ≤ Simulation.max_frames fl →
  n ≤ Simulation.NUM_FRAMES → free = seq n (Simulation.NUM_FRAMES - n) →
  (free' = free ∧ ∀ i f, row_owns rows' i f → row_owns rows i f)
  ∨ ∃ fnew v,
      (∀ i f, row_owns rows' i f →
              (i = page ∧ f = fnew)
              ∨ (i ≠ page ∧ i ≠ v ∧ row_owns rows i f)) ∧
      ((fnew = n ∧ S n ≤ Simulation.NUM_FRAMES ∧
        free' = seq (S n) (Simulation.NUM_FRAMES - S n))
       ∨ (free' = free ∧ v ≠ page ∧ row_owns rows v fnew)).
Proof.
  intros Hts Hst Hnow Hmax Hn Hfree.
  pose proof (table_step_count _ _ _ _ _ _ _ _ Hts Hst Hnow Hmax) as Hc.
  destruct (table_step_free _ _ _ _ _ _ _ _ n Hts Hn Hfree)
    as [[Hk Hfree']|(-> & Hn' & Hfree' & r & Hr & Hp & ->)].
  - destruct (table_step_cases _ _ _ _ _ _ _ _ Hts)
      as (r & Hr & [(Hp & -> & -> & _)|[(_ & _ & f & _ & -> & _)
                   |(Hp & _ & rv & Hv & -> & -> & _)]]); [|done|].
    + left. split; [done|].
      intros i f (x & Hx & Hpx & Hfx).
      destruct (decide (i = page)) as [->|Hne].
      * rewrite list_lookup_insert_eq in Hx by (by eapply lookup_lt_Some).
        injection Hx as <-. by exists r.
      * rewrite list_lookup_insert_ne in Hx by done. by exists x.
    + destruct Hc as (_ & _ & _ & (rv' & Hv' & Hpv & _) & _).
      assert (rv' = rv) as -> by congruence.
      set (v := select_victim _ _) in *.
      assert (v ≠ page) as Hne by (intros ->; congruence).
      right. exists (PageTable.frame rv), v. split.
      * intros i f (x & Hx & Hpx & Hfx).
        destruct (decide (i = page)) as [->|Hip].
        { rewrite list_lookup_insert_eq in Hx
            by (rewrite length_insert; by eapply lookup_lt_Some).
          injection Hx as <-. by left. }
        rewrite list_lookup_insert_ne in Hx by done.
        destruct (decide (i = v)) as [->|Hiv].
        { rewrite list_lookup_insert_eq in Hx by (by eapply lookup_lt_Some).
          injection Hx as <-. done. }
        rewrite list_lookup_insert_ne in Hx by done.
        right. split_and!; [done..|]. by exists x.
      * right. split_and!; [done..|]. by exists rv.
  - right. exists n, page. split; [|by left].
    intros i f (x & Hx & Hpx & Hfx).
    destruct (decide (i = page)) as [->|Hip].
    + rewrite list_lookup_insert_eq in Hx by (by eapply lookup_lt_Some).
      injection Hx as <-. by left.
    + rewrite list_lookup_insert_ne in Hx by done.
      right. split_and!; [done..|]. by exists x.
Qed.

Lemma frames_exclusive_same s s' k :
  (∀ pid i f, owns s' pid i f → owns s pid i f) →
  frames_exclusive k s → frames_exclusive k s'.
Proof.
  intros Hsub [Hlt Huniq]. split.
  - intros pid i f Ho. by eapply Hlt, Hsub.
  - intros pid i pid' i' f Ho Ho'. eapply Huniq; by apply Hsub.
Qed.

Lemma frames_exclusive_grow s k k' :
  k ≤ k' → frames_exclusive k s → frames_exclusive k' s.
Proof.
  intros Hle [Hlt Huniq]. split; [|done].
  intros pid i f Ho. specialize (Hlt pid i f Ho). lia.
Qed.

(** One access keeps the frames of resident pages distinct and apart from
    the free list. *)
Lemma perform_memory_access_exclusive n s va s' k :
  run_invariant (S n) s → free_from k s → frames_exclusive k s →
  state_of (Simulation.perform_memory_access s va) = Some s' →
  ∃ k', free_from k' s' ∧ frames_exclusive k' s'.
Proof.
  intros (Hst & Hbud & Hmax & Htime) [Hk Hfree] Hex
    (proc & Hproc & [(_ & _ & ->)|(_ & a & rows' & free' & Hts & Hsame)])
    %perform_memory_access_full.
  - exists k. split.
    + split; [done|]. unfold state_invalid_page, Simulation.print_verbose.
      by destruct (Simulation.verbose _).
    + apply (frames_exclusive_same s); [|done].
      intros pid i f Ho.
      assert (Simulation.processes (state_invalid_page s va proc)
              = <[Simulation.process_id va :=
                    Process.set_memory_accesses
                      (S (Process.memory_accesses proc)) proc]>
                  (Simulation.processes s)) as Hprocs.
      { unfold state_invalid_page, Simulation.print_verbose.
        by destruct (Simulation.verbose _). }
      destruct (owns_insert _ _ _ _ _ _ _ Hprocs Ho) as [[-> Hr]|[_ Ho']];
        [|done].
      by exists proc.
  - destruct Hsame as (_ & Hprocs & _ & _ & Hff & _).
    cbn [state_after Simulation.processes Simulation.free_frames]
      in Hprocs, Hff.
    assert (Forall (stamped_before (Simulation.time s))
              (PageTable.rows (Process.page_table proc))) as Hstp
      by exact (Hst _ _ Hproc).
    assert (∀ i f, row_owns (PageTable.rows (Process.page_table proc)) i f →
                   owns s (Simulation.process_id va) i f) as Hold
      by (intros i f Hr; by exists proc).
    destruct (table_step_owns _ _ _ _ _ _ _ _ k Hts Hstp ltac:(lia) Hmax
                Hk Hfree)
      as [[-> Hsub]|(fnew & v & Hsub & Hnew)].
    + exists k. split; [split; [done|]; by rewrite Hff|].
      apply (frames_exclusive_same s); [|done].
      intros pid i f Ho.
      destruct (owns_insert _ _ _ _ _ _ _ Hprocs Ho) as [[-> Hr]|[_ Ho']];
        [|done].
      apply Hold, Hsub, Hr.
    + assert (∀ pid i f, owns s' pid i f →
                (pid = Simulation.process_id va ∧ i = Simulation.page va
                 ∧ f = fnew)
                ∨ ((pid ≠ Simulation.process_id va
                    ∨ (i ≠ Simulation.page va ∧ i ≠ v))
                   ∧ owns s pid i f)) as Hchar.
      { intros pid i f Ho.
        destruct (owns_insert _ _ _ _ _ _ _ Hprocs Ho) as [[-> Hr]|[Hne Ho']].
        - destruct (Hsub i f Hr) as [[-> ->]|(Hip & Hiv & Hr')].
          + by left.
          + right. split; [by right|]. by apply Hold.
        - right. split; [by left|done]. }
      destruct Hex as [Hlt Huniq].
      assert (∀ pid i, (pid ≠ Simulation.process_id va
                        ∨ (i ≠ Simulation.page va ∧ i ≠ v)) →
                       owns s pid i fnew → False) as Hfresh.
      { intros pid i Hne Ho.
        destruct Hnew as [(-> & _)|(_ & _ & Hv)].
        - specialize (Hlt _ _ _ Ho). lia.
        - destruct (Huniq _ _ _ _ _ Ho (Hold _ _ Hv)) as [-> ->].
          destruct Hne as [?|[_ ?]]; done. }
      assert (∃ k', k ≤ k' ∧ fnew < k' ∧ free_from k' s')
        as (k' & Hkk' & Hfk & Hfr).
      { destruct Hnew as [(-> & Hk' & ->)|(-> & _ & Hv)].
        - exists (S k). split_and!; [lia..|]. split; [done|]. by rewrite Hff.
        - exists k. split_and!; [lia| |].
          + by eapply Hlt, Hold.
          + split; [done|]. by rewrite Hff. }
      exists k'. split; [done|]. split.
      * intros pid i f [(_ & _ & ->)|[_ Ho]]%Hchar; [done|].
        specialize (Hlt _ _ _ Ho). lia.
      * intros pid i pid' i' f
          [(-> & -> & ->)|[Hne Ho]]%Hchar [(-> & -> & Hf)|[Hne' Ho']]%Hchar.
        -- done.
        -- by destruct (Hfresh _ _ Hne' Ho').
        -- subst f. by destruct (Hfresh _ _ Hne Ho).
        -- by eapply Huniq.
Qed.

Lemma frames_exclusive_initial s0 :
  all_rows absent s0 → frames_exclusive 0 s0.
Proof.
  intros Habs.
  assert (∀ pid i f, owns s0 pid i f → False) as Hnone.
  { intros pid i f (proc & Hproc & r & Hr & Hp & _).
    pose proof (Habs _ _ Hproc) as Hall.
    rewrite Forall_lookup in Hall. specialize (Hall _ _ Hr).
    unfold absent in Hall. congruence. }
  split.
  - intros pid i f Ho. by destruct (Hnone _ _ _ Ho).
  - intros pid i pid' i' f Ho. by destruct (Hnone _ _ _ Ho).
Qed.

Lemma exclusive_step n s va s' :
  (run_invariant (S n) s ∧ ∃ k, free_from k s ∧ frames_exclusive k s) →
  state_of (Simulation.perform_memory_access s va) = Some s' →
  ∃ k, free_from k s' ∧ frames_exclusive k s'.
Proof.
  intros [Hinv (k & Hfr & Hex)] Hs'.
  by eapply perform_memory_access_exclusive.
Qed.

(** X7: no frame is shared.  Take a run that starts with nothing resident,
    with a budget of at least one frame and the clock at or below INT_MAX.
    Its behaviour is defined (no [front()] of an empty free list, no index
    out of range) when every access names a process of the simulation,
    every process has a page for each row of its table and max_frames
    frames for each process fit in the pool.  In every state that a run of
    defined behaviour reaches, two resident pages (of the same or of
    different processes) never hold the same frame, and a frame held by a
    resident page is below NUM_FRAMES and is not in the free list. *)
Theorem resident_pages_hold_distinct_frames s0 trace :
  all_rows absent s0 → Simulation.free_frames s0 = [] →
  1 ≤ Simulation.max_frames (Simulation.flags s0) →
  (Simulation.time s0 + Z.of_nat (length trace) ≤ INT_MAX)%Z →
  (well_configured s0 trace →
   Simulation.access_loop (Simulation.initialize_free_frames s0) trace
   ≠ Simulation.Undefined) ∧
  (∀ s,
     state_of (Simulation.access_loop
                 (Simulation.initialize_free_frames s0) trace) = Some s →
     (∀ pid i pid' i' f,
        owns s pid i f → owns s pid' i' f → pid = pid' ∧ i = i') ∧
     (∀ pid i f,
        owns s pid i f →
        f < Simulation.NUM_FRAMES ∧ f ∉ Simulation.free_frames s)).
Proof.
  intros Habs Hfree Hmax Htime. split.
  { intros Hwc. apply access_loop_defined.
    - by apply run_invariant_initial.
    - by apply frames_accounted_initial.
    - exact Hwc. }
  intros s.
  apply (access_loop_invariant
           (λ n s, run_invariant n s
                   ∧ ∃ k, free_from k s ∧ frames_exclusive k s)
           (λ s, (∀ pid i pid' i' f,
                    owns s pid i f → owns s pid' i' f → pid = pid' ∧ i = i') ∧
                 (∀ pid i f,
                    owns s pid i f →
                    f < Simulation.NUM_FRAMES
                    ∧ f ∉ Simulation.free_frames s))).
  - intros n s1 va s' HI Hstep. split.
    + eapply run_invariant_step; [apply HI|done].
    + assert (∃ k, free_from k s' ∧ frames_exclusive k s') as Hk; [|exact Hk].
      eapply exclusive_step; [done|]. by rewrite Hstep.
  - intros n s1 va s' HI Hstep.
    destruct (exclusive_step n s1 va s' HI) as (k & [Hk Hfr] & Hlt & Huniq);
      [by rewrite Hstep|].
    split; [done|]. intros pid i f Ho. specialize (Hlt _ _ _ Ho).
    split; [lia|]. rewrite Hfr, elem_of_seq. lia.
  - intros s1 (_ & k & [Hk Hfr] & Hlt & Huniq).
    split; [done|]. intros pid i f Ho. specialize (Hlt _ _ _ Ho).
    split; [lia|]. rewrite Hfr, elem_of_seq. lia.
  - split; [by apply run_invariant_initial|].
    exists 0. split; [by apply free_from_initial|].
    exact (frames_exclusive_initial s0 Habs).
Qed.

Lemma resident_pages_hold_distinct_frames_witness :
  Simulation.access_loop
    (Simulation.initialize_free_frames
       (example_simulation false Simulation.FIFO 2))
    [example_access 2 0; example_access 0 0; example_access 1 0]
  ≠ Simulation.Undefined ∧
  ∃ s,
    state_of (Simulation.access_loop
                (Simulation.initialize_free_frames
                   (example_simulation false Simulation.FIFO 2))
                [example_access 2 0; example_access 0 0; example_access 1 0])
    = Some s ∧
    owns s 7 0 1 ∧
    (∀ pid i pid' i' f,
       owns s pid i f → owns s pid' i' f → pid = pid' ∧ i = i') ∧
    (∀ pid i f,
       owns s pid i f →
       f < Simulation.NUM_FRAMES ∧ f ∉ Simulation.free_frames s).
Proof.
  assert (∃ s, state_of (Simulation.access_loop
                           (Simulation.initialize_free_frames
                              (example_simulation false Simulation.FIFO 2))
                           [example_access 2 0; example_access 0 0;
                            example_access 1 0]) = Some s
               ∧ owns s 7 0 1)
    as (s & Hs & Ho).
  { eexists. split; [vm_compute; reflexivity|].
    eexists. split; [vm_compute; reflexivity|].
    eexists. split_and!; vm_compute; reflexivity. }
  assert (all_rows absent (example_simulation false Simulation.FIFO 2))
    as Habs.
  { apply map_Forall_singleton. repeat constructor. }
  assert (1 ≤ 2) as Hmax by lia.
  assert (0 + Z.of_nat 3 ≤ INT_MAX)%Z as Htime by (vm_compute; intros [=]).
  assert (well_configured (example_simulation false Simulation.FIFO 2)
            [example_access 2 0; example_access 0 0; example_access 1 0])
    as Hwc.
  { split_and!.
    - repeat constructor; by eexists.
    - apply map_Forall_singleton. reflexivity.
    - vm_compute. lia. }
  destruct (resident_pages_hold_distinct_frames
              (example_simulation false Simulation.FIFO 2)
              [example_access 2 0; example_access 0 0; example_access 1 0]
              Habs eq_refl Hmax Htime) as [Hdef Hall].
  split; [exact (Hdef Hwc)|].
  exists s. split; [exact Hs|]. split; [exact Ho|]. exact (Hall s Hs).
Defined.

(* ===================================================================== *)
(** ** Verbose and quiet runs *)
(* ===================================================================== *)

Lemma table_step_flags fl fl' now page rows free :
  Simulation.strategy fl' = Simulation.strategy fl →
  Simulation.max_frames fl' = Simulation.max_frames fl →
  table_step fl' now page rows free = table_step fl now page rows free.
Proof. intros Hst Hmf. unfold table_step. by rewrite Hst, Hmf. Qed.

Lemma same_data_refl s : same_data s s.
Proof. by split_and!. Qed.

(** A quiet access does what the verbose access does, and prints nothing. *)
Lemma perform_memory_access_quiet s1 s2 va s1' :
  same_data s1 s2 → Simulation.verbose (Simulation.flags s2) = false →
  Simulation.perform_memory_access s1 va = Simulation.Returned s1' →
  ∃ s2', Simulation.perform_memory_access s2 va = Simulation.Returned s2' ∧
         same_data s1' s2' ∧
         Simulation.verbose (Simulation.flags s2') = false ∧
         Simulation.cout s2' = Simulation.cout s2.
Proof.
  intros (Hst & Hmf & Hprocs & Hva & Hfr & Hff & Htm & Hpf) Hq.
  rewrite !perform_memory_access_unfold, Hprocs.
  destruct (Simulation.processes s1 !! _) as [proc|]; [|done].
  cbv zeta. destruct (decide _) as [Hlt|Hge]; [|done].
  rewrite Hff, Htm.
  rewrite (table_step_flags (Simulation.flags s1) (Simulation.flags s2))
    by done.
  destruct (table_step _ _ _ _ _) as [[[k rows'] free']|]; [|done].
  destruct (rows' !! _) as [row|]; [|done].
  intros Hret.
  assert (state_of (conclude (state_after s1 va proc k rows' free')
                      (process_after proc k rows') row va) = Some s1')
    as Hsame%conclude_same_but_cout by (by rewrite Hret).
  destruct Hsame as (Hfl' & Hprocs' & Hva' & Hfr' & Hff' & Htm' & Hpf').
  exists (state_after s2 va proc k rows' free').
  split; [unfold conclude; simpl; by rewrite Hq|].
  split; [|split; [done|simpl; by rewrite Hq]].
  split_and!; simpl.
  - by rewrite Hfl'.
  - by rewrite Hfl'.
  - by rewrite Hprocs', Hprocs.
  - by rewrite Hva'.
  - by rewrite Hfr', Hfr.
  - by rewrite Hff'.
  - by rewrite Htm'.
  - by rewrite Hpf', Hpf.
Qed.

Lemma access_loop_quiet trace :
  ∀ s1 s2 s1',
    same_data s1 s2 → Simulation.verbose (Simulation.flags s2) = false →
    Simulation.access_loop s1 trace = Simulation.Returned s1' →
    ∃ s2', Simulation.access_loop s2 trace = Simulation.Returned s2' ∧
           same_data s1' s2' ∧
           Simulation.cout s2' = Simulation.cout s2.
Proof.
  induction trace as [|va trace IH]; intros s1 s2 s1' Hsame Hq; simpl.
  - intros [= <-]. by exists s2.
  - destruct (Simulation.perform_memory_access s1 va) as [t1| |] eqn:Hstep;
      [|done..].
    destruct (perform_memory_access_quiet s1 s2 va t1 Hsame Hq Hstep)
      as (t2 & -> & Hsame' & Hq' & Hcout).
    intros Hrest.
    destruct (IH (Simulation.set_time (Simulation.time t1 + 1)%Z t1)
                (Simulation.set_time (Simulation.time t2 + 1)%Z t2) s1')
      as (s2' & Hloop & Hsame'' & Hcout'); [|done|done|].
    + destruct Hsame' as (? & ? & ? & ? & ? & ? & Htm & ?).
      split_and!; simpl; try done. by rewrite Htm.
    + exists s2'. split; [done|]. split; [done|]. by rewrite Hcout'.
Qed.

(** X8: the verbose flag only adds output and the offset check.  When the
    access loop returns under either setting of the flag, it returns in quiet
    mode too, with the same page tables, counters, frame log, free list and
    clock, and the quiet loop prints nothing. *)
Theorem quiet_run_agrees_with_verbose_run vb s0 trace s :
  Simulation.access_loop (with_verbose vb s0) trace = Simulation.Returned s →
  ∃ s', Simulation.access_loop (with_verbose false s0) trace
        = Simulation.Returned s' ∧
        same_data s s' ∧
        Simulation.cout s' = Simulation.cout s0.
Proof.
  intros Hrun.
  destruct (access_loop_quiet trace (with_verbose vb s0)
              (with_verbose false s0) s) as (s' & Hloop & Hsame & Hcout);
    [by split_and!|done|done|].
  by exists s'.
Qed.

Lemma quiet_run_agrees_with_verbose_run_witness :
  ∃ s s',
    Simulation.access_loop
      (with_verbose true
         (Simulation.initialize_free_frames
            (example_simulation true Simulation.LRU 2)))
      [example_access 0 0; example_access 1 5; example_access 0 63;
       example_access 2 1]
    = Simulation.Returned s ∧
    Simulation.cout s ≠ [] ∧
    Simulation.access_loop
      (with_verbose false
         (Simulation.initialize_free_frames
            (example_simulation true Simulation.LRU 2)))
      [example_access 0 0; example_access 1 5; example_access 0 63;
       example_access 2 1]
    = Simulation.Returned s' ∧
    same_data s s' ∧
    Simulation.cout s' = [].
Proof.
  assert (∃ s, Simulation.access_loop
                 (with_verbose true
         (Simulation.initialize_free_frames
            (example_simulation true Simulation.LRU 2)))
                 [example_access 0 0; example_access 1 5; example_access 0 63;
                  example_access 2 1] = Simulation.Returned s
               ∧ Simulation.cout s ≠ [])
    as (s & Hs & Hout).
  { eexists. split; [vm_compute; reflexivity|]. vm_compute. intros [=]. }
  destruct (quiet_run_agrees_with_verbose_run true _ _ s Hs)
    as (s' & Hs' & Hsame & Hcout).
  exists s, s'. split; [exact Hs|]. split; [exact Hout|].
  split; [exact Hs'|]. split; [exact Hsame|exact Hcout].
Defined.

Lemma reported_faults_app out out' :
  reported_faults (out ++ out') = reported_faults out + reported_faults out'.
Proof. unfold reported_faults. by rewrite filter_app, length_app. Qed.

(** A verbose access reports a page fault exactly when it counts one. *)
Lemma perform_memory_access_reports s va s' :
  Simulation.verbose (Simulation.flags s) = true →
  state_of (Simulation.perform_memory_access s va) = Some s' →
  reported_faults (Simulation.cout s') + Simulation.page_faults s
  = reported_faults (Simulation.cout s) + Simulation.page_faults s'.
Proof.
  intros Hvb. rewrite perform_memory_access_unfold.
  destruct (Simulation.processes s !! _) as [proc|]; [|done].
  cbv zeta. destruct (decide _) as [Hlt|Hge].
  - destruct (table_step _ _ _ _ _) as [[[k rows'] free']|]; [|done].
    destruct (rows' !! _) as [row|]; [|done].
    unfold conclude. cbn [state_after Simulation.flags]. rewrite Hvb.
    destruct (_ !! _) as [pg|]; [|done].
    destruct (negb _); simpl; intros [= <-]; simpl; rewrite Hvb;
      rewrite !reported_faults_app; destruct k; simpl;
      unfold reported_faults; simpl; lia.
  - simpl. intros [= <-]. unfold state_invalid_page, Simulation.print_verbose.
    rewrite Hvb. simpl. rewrite !reported_faults_app.
    unfold reported_faults. simpl. lia.
Qed.

(** X9: the verbose log reports exactly the faults that are counted.  From
    a verbose start, in every state the access loop reaches, also one it
    exits in, the number of PAGE FAULT reports printed since the start is
    the growth of the simulation's page-fault counter; hits, physical
    addresses and segmentation-fault reports add none. *)
Theorem verbose_log_reports_every_fault trace :
  ∀ s0 s,
    Simulation.verbose (Simulation.flags s0) = true →
    state_of (Simulation.access_loop s0 trace) = Some s →
    reported_faults (Simulation.cout s) + Simulation.page_faults s0
    = reported_faults (Simulation.cout s0) + Simulation.page_faults s.
Proof.
  induction trace as [|va trace IH]; intros s0 s Hvb; simpl.
  - by intros [= <-].
  - destruct (Simulation.perform_memory_access s0 va) as [s1|s1|] eqn:Hstep;
      simpl; [|intros [= <-]|done].
    + assert (state_of (Simulation.perform_memory_access s0 va) = Some s1)
        as Hs1 by (by rewrite Hstep).
      pose proof (perform_memory_access_reports _ _ _ Hvb Hs1) as Hrep.
      pose proof (perform_memory_access_step _ _ _ Hs1) as (Hfl & _).
      intros Hs.
      assert (reported_faults (Simulation.cout s)
              + Simulation.page_faults s1
              = reported_faults (Simulation.cout s1)
                + Simulation.page_faults s) as Hrest.
      { apply (IH (Simulation.set_time (Simulation.time s1 + 1)%Z s1) s);
          [|done]. simpl. by rewrite Hfl. }
      lia.
    + apply (perform_memory_access_reports s0 va); [done|]. by rewrite Hstep.
Qed.

Lemma verbose_log_reports_every_fault_witness :
  ∃ s,
    state_of (Simulation.access_loop
                (Simulation.initialize_free_frames
                   (example_simulation true Simulation.LRU 2))
                [example_access 0 0; example_access 1 5; example_access 0 63;
                 example_access 2 1]) = Some s ∧
    Simulation.page_faults s = 3 ∧
    reported_faults (Simulation.cout s) + 0 = 0 + Simulation.page_faults s.
Proof.
  assert (∃ s, state_of (Simulation.access_loop
                           (Simulation.initialize_free_frames
                              (example_simulation true Simulation.LRU 2))
                           [example_access 0 0; example_access 1 5;
                            example_access 0 63; example_access 2 1]) = Some s
               ∧ Simulation.page_faults s = 3)
    as (s & Hs & Hpf).
  { eexists. split; vm_compute; reflexivity. }
  exists s. split; [exact Hs|]. split; [exact Hpf|].
  exact (verbose_log_reports_every_fault _
           (Simulation.initialize_free_frames
              (example_simulation true Simulation.LRU 2)) s eq_refl Hs).
Defined.

(* ===================================================================== *)
(** ** Resident set and fault count *)
(* ===================================================================== *)

(** One access keeps the resident set of every process at the smaller of
    its fault count and the budget. *)
Lemma perform_memory_access_fills n s va s' :
  run_invariant (S n) s →
  map_Forall
    (λ _ proc,
       Process.get_rss proc
       = Process.page_faults proc `min` Simulation.max_frames (Simulation.flags s))
    (Simulation.processes s) →
  state_of (Simulation.perform_memory_access s va) = Some s' →
  map_Forall
    (λ _ proc,
       Process.get_rss proc
       = Process.page_faults proc `min` Simulation.max_frames (Simulation.flags s))
    (Simulation.processes s').
Proof.
  intros (Hst & Hbud & Hmax & Htime) Hfill
    (proc & Hproc & [(_ & _ & ->)|(_ & k & rows' & free' & Hts & Hsame)])
    %perform_memory_access_full.
  - assert (Simulation.processes (state_invalid_page s va proc)
            = <[Simulation.process_id va :=
                  Process.set_memory_accesses
                    (S (Process.memory_accesses proc)) proc]>
                (Simulation.processes s)) as ->.
    { unfold state_invalid_page, Simulation.print_verbose.
      by destruct (Simulation.verbose _). }
    apply map_Forall_insert_2; [|done].
    exact (Hfill _ _ Hproc).
  - destruct Hsame as (_ & -> & _).
    cbn [state_after Simulation.processes].
    apply map_Forall_insert_2; [|done].
    pose proof (Hfill _ _ Hproc) as Hp. pose proof (Hbud _ _ Hproc) as Hb.
    cbv beta in Hp, Hb.
    rewrite get_rss_count in Hp, Hb. rewrite get_rss_count.
    cbn [process_after Process.page_table PageTable.rows Process.page_faults].
    assert (Forall (stamped_before (Simulation.time s))
              (PageTable.rows (Process.page_table proc))) as Hstp
      by exact (Hst _ _ Hproc).
    pose proof (table_step_count _ _ _ _ _ _ _ _ Hts Hstp ltac:(lia) Hmax)
      as Hc.
    destruct k as [|[v|]]; cbn [is_hit].
    + destruct Hc as [-> _]. done.
    + destruct Hc as (Hge & -> & _). lia.
    + destruct Hc as (Hlt & -> & _). lia.
Qed.

(** X10: the resident set of a process grows by one page with each of its
    faults until it reaches the budget, and stays there.  In a run that
    starts with nothing resident and no faults counted, with a budget of at
    least one frame and the clock at or below INT_MAX, every process has
    get_rss() = min(page_faults, max_frames) in every state the access loop
    reaches; so no page is evicted before the process holds max_frames
    pages, and every fault after that evicts one. *)
Theorem resident_set_fills_the_budget s0 trace s :
  all_rows absent s0 →
  map_Forall (λ _ proc, Process.page_faults proc = 0)
    (Simulation.processes s0) →
  1 ≤ Simulation.max_frames (Simulation.flags s0) →
  (Simulation.time s0 + Z.of_nat (length trace) ≤ INT_MAX)%Z →
  state_of (Simulation.access_loop s0 trace) = Some s →
  map_Forall
    (λ _ proc,
       Process.get_rss proc
       = Process.page_faults proc
           `min` Simulation.max_frames (Simulation.flags s0))
    (Simulation.processes s).
Proof.
  intros Habs Hzero Hmax Htime.
  set (P := λ s : Simulation.t,
         map_Forall
           (λ _ proc,
              Process.get_rss proc
              = Process.page_faults proc
                  `min` Simulation.max_frames (Simulation.flags s0))
           (Simulation.processes s)).
  apply (access_loop_invariant
           (λ n s, run_invariant n s
                   ∧ Simulation.flags s = Simulation.flags s0 ∧ P s) P).
  - intros n s1 va s' (Hinv & Hfl & HP) Hstep.
    assert (state_of (Simulation.perform_memory_access s1 va) = Some s')
      as Hs' by (by rewrite Hstep).
    pose proof (perform_memory_access_step _ _ _ Hs') as (Hfl' & _).
    split_and!.
    + by eapply run_invariant_step.
    + simpl. by rewrite Hfl'.
    + assert (P s') as HP'; [|exact HP'].
      unfold P in *. rewrite <- Hfl in *.
      by eapply perform_memory_access_fills.
  - intros n s1 va s' (Hinv & Hfl & HP) Hstep.
    assert (state_of (Simulation.perform_memory_access s1 va) = Some s')
      as Hs' by (by rewrite Hstep).
    unfold P in *. rewrite <- Hfl in *.
    by eapply perform_memory_access_fills.
  - by intros s1 (_ & _ & HP).
  - split_and!; [by apply run_invariant_initial|done|].
    intros pid proc Hproc. cbv beta.
    rewrite (Hzero _ _ Hproc), get_rss_count. simpl.
    pose proof (Habs _ _ Hproc) as Hall. cbv beta in Hall.
    induction Hall as [|r rows Hr _ IH]; [done|].
    unfold absent in Hr. simpl. by rewrite Hr.
Qed.

Lemma resident_set_fills_the_budget_witness :
  ∃ s proc,
    state_of (Simulation.access_loop
                (Simulation.initialize_free_frames
                   (example_simulation false Simulation.LRU 2))
                [example_access 0 0; example_access 1 5; example_access 0 63;
                 example_access 2 1]) = Some s ∧
    Simulation.processes s !! 7%Z = Some proc ∧
    Process.page_faults proc = 3 ∧
    Process.get_rss proc = 2.
Proof.
  assert (∃ s proc,
            state_of (Simulation.access_loop
                        (Simulation.initialize_free_frames
                           (example_simulation false Simulation.LRU 2))
                        [example_access 0 0; example_access 1 5;
                         example_access 0 63; example_access 2 1]) = Some s
            ∧ Simulation.processes s !! 7%Z = Some proc
            ∧ Process.page_faults proc = 3)
    as (s & proc & Hs & Hproc & Hpf).
  { do 2 eexists. split_and!; vm_compute; reflexivity. }
  exists s, proc. split; [exact Hs|]. split; [exact Hproc|].
  split; [exact Hpf|].
  assert (all_rows absent (example_simulation false Simulation.LRU 2))
    as Habs.
  { apply map_Forall_singleton. repeat constructor. }
  assert (map_Forall (λ _ proc, Process.page_faults proc = 0)
            (Simulation.processes
               (example_simulation false Simulation.LRU 2))) as Hzero.
  { apply map_Forall_singleton. reflexivity. }
  assert (1 ≤ 2) as Hmax by lia.
  assert (0 + Z.of_nat 4 ≤ INT_MAX)%Z as Htime by (vm_compute; intros [=]).
  pose proof (resident_set_fills_the_budget
                (Simulation.initialize_free_frames
                   (example_simulation false Simulation.LRU 2))
                [example_access 0 0; example_access 1 5;
                 example_access 0 63; example_access 2 1]
                s Habs Hzero Hmax Htime Hs 7%Z proc Hproc) as Hrss.
  cbv beta in Hrss. rewrite Hrss, Hpf. reflexivity.
Defined.

(* ===================================================================== *)
(** ** Runs over valid accesses *)
(* ===================================================================== *)

Lemma perform_memory_access_returns s va rest :
  well_configured s (va :: rest) → within_budget s → frames_accounted s →
  valid_access s va →
  ∃ s', Simulation.perform_memory_access s va = Simulation.Returned s'.
Proof.
  intros (Hpids & Hpages & Hcap) Hbud [_ Hacc]
    (proc & Hproc & Hlt%is_valid_page_lt & Hoff).
  rewrite perform_memory_access_unfold, Hproc. cbv zeta.
  destruct (decide _) as [_|]; [|done].
  destruct (table_step_defined (Simulation.flags s) (Simulation.time s)
              (Simulation.page va)
              (PageTable.rows (Process.page_table proc))
              (Simulation.free_frames s) Hlt) as [[[k rows'] free'] Hts].
  { rewrite <-get_rss_count. intros Hunder Hempty.
    pose proof (total_present_lt _ _ _ _ Hbud Hproc Hunder) as Htot.
    unfold total_present in Hacc. rewrite Hempty in Hacc. simpl in Hacc.
    lia. }
  rewrite Hts.
  pose proof (table_step_length _ _ _ _ _ _ _ _ Hts) as Hlen.
  destruct (lookup_lt_is_Some_2 rows' (Simulation.page va)) as [row ->];
    [lia|].
  unfold conclude. cbn [state_after Simulation.flags process_after
                          Process.pages].
  destruct (Simulation.verbose _); [|by eexists].
  destruct (Hoff eq_refl) as (pg & -> & ->). by eexists.
Qed.

Lemma valid_access_step s va s' va' :
  state_of (Simulation.perform_memory_access s va) = Some s' →
  valid_access s va' → valid_access s' va'.
Proof.
  intros Hs' (proc0 & Hproc0 & Hpage & Hoff).
  pose proof (perform_memory_access_step _ _ _ Hs') as (Hfl & _).
  destruct (perform_memory_access_shape _ _ _ Hs')
    as (proc & proc' & Hproc & Hprocs & Hnb & Hpg & Hlen).
  unfold valid_access. rewrite Hprocs, Hfl.
  destruct (decide (Simulation.process_id va' = Simulation.process_id va))
    as [Heq|Hne].
  - rewrite Heq, lookup_insert_eq. rewrite Heq, Hproc in Hproc0.
    injection Hproc0 as <-.
    exists proc'. split; [done|]. split.
    + apply is_valid_page_lt. rewrite Hlen. by apply is_valid_page_lt.
    + by rewrite Hpg.
  - rewrite lookup_insert_ne by done. by exists proc0.
Qed.

Lemma access_loop_returns trace : ∀ s,
  run_invariant (length trace) s → frames_accounted s →
  well_configured s trace → Forall (valid_access s) trace →
  ∃ s', Simulation.access_loop s trace = Simulation.Returned s' ∧
        Simulation.time s' = (Simulation.time s + Z.of_nat (length trace))%Z.
Proof.
  induction trace as [|va trace IH]; intros s Hinv Hacc Hwc Hval.
  - exists s. split; [done|]. simpl. lia.
  - apply Forall_cons in Hval as [Hva Hval].
    destruct (perform_memory_access_returns s va trace Hwc
                (proj1 (proj2 Hinv)) Hacc Hva) as [s1 Hstep].
    assert (state_of (Simulation.perform_memory_access s va) = Some s1)
      as Hs1 by (by rewrite Hstep).
    pose proof (perform_memory_access_step _ _ _ Hs1) as (_ & Htm & _).
    destruct (IH (Simulation.set_time (Simulation.time s1 + 1)%Z s1))
      as (s' & Hloop & Htime).
    + by apply (run_invariant_step _ s va).
    + exact (frames_accounted_step _ s va s1 Hinv Hacc Hs1).
    + exact (well_configured_step s va trace s1 Hwc Hs1).
    + eapply Forall_impl; [exact Hval|]. intros va' Hva'.
      exact (valid_access_step s va s1 va' Hs1 Hva').
    + exists s'. cbn [Simulation.access_loop]. rewrite Hstep.
      split; [done|]. rewrite Htime. cbn [Simulation.time Simulation.set_time].
      rewrite Htm. cbn [length]. lia.
Qed.

(** X11: a run over valid accesses processes the whole trace.  From a start
    with nothing resident and a budget of at least one frame, when
    max_frames frames for each process fit in the pool, every process has a
    page for each row of its table, the clock stays at or below INT_MAX and
    every access of the trace names a process of the simulation, a page of
    its table and (in verbose mode) a valid offset, the access loop returns
    after the last access: no fatal report, no call of front() on an empty
    free list, no index out of range; and the clock has advanced by one for
    each access. *)
Theorem valid_trace_is_processed s0 trace :
  all_rows absent s0 → Simulation.free_frames s0 = [] →
  1 ≤ Simulation.max_frames (Simulation.flags s0) →
  (Simulation.time s0 + Z.of_nat (length trace) ≤ INT_MAX)%Z →
  well_configured s0 trace →
  Forall (valid_access s0) trace →
  ∃ s, Simulation.access_loop (Simulation.initialize_free_frames s0) trace
       = Simulation.Returned s ∧
       Simulation.time s = (Simulation.time s0 + Z.of_nat (length trace))%Z.
Proof.
  intros Habs Hfree Hmax Htime Hwc Hval.
  apply (access_loop_returns trace (Simulation.initialize_free_frames s0)).
  - by apply run_invariant_initial.
  - by apply frames_accounted_initial.
  - exact Hwc.
  - exact Hval.
Qed.

Lemma valid_trace_is_processed_witness :
  ∃ s, Simulation.access_loop
         (Simulation.initialize_free_frames
            (example_simulation true Simulation.LRU 2))
         [example_access 0 0; example_access 1 5; example_access 0 63;
          example_access 2 1]
       = Simulation.Returned s ∧
       Simulation.time s = 4%Z.
Proof.
  assert (all_rows absent (example_simulation true Simulation.LRU 2))
    as Habs.
  { apply map_Forall_singleton. repeat constructor. }
  assert (1 ≤ 2) as Hmax by lia.
  assert (0 + Z.of_nat 4 ≤ INT_MAX)%Z as Htime by (vm_compute; intros [=]).
  assert (well_configured (example_simulation true Simulation.LRU 2)
            [example_access 0 0; example_access 1 5; example_access 0 63;
             example_access 2 1]) as Hwc.
  { split_and!.
    - repeat constructor; by eexists.
    - apply map_Forall_singleton. reflexivity.
    - vm_compute. lia. }
  assert (Forall (valid_access (example_simulation true Simulation.LRU 2))
            [example_access 0 0; example_access 1 5; example_access 0 63;
             example_access 2 1]) as Hval.
  { repeat constructor;
      (eexists; split; [vm_compute; reflexivity|];
       split; [reflexivity|]; intros _; eexists; split; reflexivity). }
  exact (valid_trace_is_processed
           (example_simulation true Simulation.LRU 2)
           [example_access 0 0; example_access 1 5; example_access 0 63;
            example_access 2 1] Habs eq_refl Hmax Htime Hwc Hval).
Defined.

(* ===================================================================== *)
(** ** The summary *)
(* ===================================================================== *)

Lemma entries_Permutation m : entries m ≡ₚ map_to_list m.
Proof. apply merge_sort_Permutation. Qed.

Lemma elem_of_entries m pid proc :
  (pid, proc) ∈ entries m ↔ m !! pid = Some proc.
Proof. by rewrite entries_Permutation, elem_of_map_to_list. Qed.

Lemma strictly_ascending (l : list (Z * Process.t)) :
  Sorted pid_le l → NoDup l.*1 → StronglySorted Z.lt l.*1.
Proof.
  intros Hs%Sorted_StronglySorted; [|intros x y z; unfold pid_le; lia].
  induction Hs as [|x l Hl IH Hx]; intros Hnd; [constructor|].
  rewrite fmap_cons in Hnd. apply NoDup_cons in Hnd as [Hnotin Hnd].
  rewrite fmap_cons. constructor; [by apply IH|].
  apply Forall_fmap, Forall_forall. intros y Hy. simpl.
  rewrite Forall_forall in Hx. specialize (Hx y Hy). unfold pid_le in Hx.
  assert (x.1 ≠ y.1); [|lia].
  intros Heq. apply Hnotin. rewrite Heq. apply list_elem_of_fmap.
  by exists y.
Qed.

Lemma entries_ascending m : StronglySorted Z.lt (entries m).*1.
Proof.
  apply strictly_ascending.
  - apply (@Sorted_merge_sort _ pid_le pid_le_dec).
    intros x y. unfold pid_le. lia.
  - rewrite entries_Permutation. apply NoDup_fst_map_to_list.
Qed.

Lemma map_sum_entries g m :
  map_sum g m = sum_list_with (λ e, g e.2) (entries m).
Proof.
  rewrite entries_Permutation. unfold map_sum.
  rewrite map_fold_foldr, sum_list_with_foldr.
  induction (map_to_list m) as [|[pid proc] l IH]; [done|].
  simpl. by rewrite IH.
Qed.

Lemma sum_list_with_fmap {A B} (f : A → B) (g : B → nat) (l : list A) :
  sum_list_with g (f <$> l) = sum_list_with (g ∘ f) l.
Proof. induction l as [|x l IH]; simpl; [done|]. by f_equal. Qed.

Lemma access_loop_virtual_addresses trace s0 s :
  state_of (Simulation.access_loop s0 trace) = Some s →
  Simulation.virtual_addresses s = Simulation.virtual_addresses s0.
Proof.
  assert (∀ s1 va s',
            state_of (Simulation.perform_memory_access s1 va) = Some s' →
            Simulation.virtual_addresses s' = Simulation.virtual_addresses s1)
    as Hstep.
  { intros s1 va s'
      (proc & _ & [(_ & _ & ->)|(_ & k & rows' & free' & _ & Hsame)])
      %perform_memory_access_full.
    - unfold state_invalid_page, Simulation.print_verbose.
      by destruct (Simulation.verbose _).
    - by destruct Hsame as (_ & _ & -> & _). }
  apply (access_loop_invariant
           (λ _ s, Simulation.virtual_addresses s
                   = Simulation.virtual_addresses s0)
           (λ s, Simulation.virtual_addresses s
                 = Simulation.virtual_addresses s0)); [| |done..].
  - intros _ s1 va s' <- Hret. simpl. apply (Hstep s1 va). by rewrite Hret.
  - intros _ s1 va s' <- Hret. apply (Hstep s1 va). by rewrite Hret.
Qed.

(** X12: the totals of the summary agree with its process lines.  Take a
    run from a start with nothing resident, all counters at zero, a budget
    of at least one frame and the clock at or below INT_MAX.  When every
    access is valid (its process exists, [is_valid_page] holds and, in
    verbose mode, [is_valid_offset]), every process has a page for each row
    of its table and max_frames frames for each process fit in the pool,
    [run] reaches [print_summary] with defined behaviour.  Whenever it does,
    the output is, in the format chosen by [csv], one line for each process
    in strictly ascending order of the process ids, then the totals; the
    ACCESSES column sums to the printed total of memory accesses (the length
    of the trace), the FAULTS column to the printed total of page faults,
    and the RSS column plus the printed number of free frames is
    NUM_FRAMES. *)
Theorem summary_totals_agree csv s0 :
  all_rows absent s0 → Simulation.free_frames s0 = [] →
  1 ≤ Simulation.max_frames (Simulation.flags s0) →
  (Simulation.time s0
   + Z.of_nat (length (Simulation.virtual_addresses s0)) ≤ INT_MAX)%Z →
  map_Forall
    (λ _ proc,
       Process.memory_accesses proc = 0 ∧ Process.page_faults proc = 0)
    (Simulation.processes s0) →
  Simulation.page_faults s0 = 0 →
  (well_configured s0 (Simulation.virtual_addresses s0) →
   Forall (valid_access s0) (Simulation.virtual_addresses s0) →
   ∃ s out, run_and_print csv s0 = (Simulation.Returned s, out)) ∧
  (∀ s out,
     run_and_print csv s0 = (Simulation.Returned s, out) →
     ∃ lines total_faults free_remaining,
       out = lines ++ [OutTotals csv (length (Simulation.virtual_addresses s0))
                         total_faults free_remaining] ∧
       lines = process_line csv <$> entries (Simulation.processes s) ∧
       StronglySorted Z.lt (entries (Simulation.processes s)).*1 ∧
       (∀ pid, is_Some (Simulation.processes s0 !! pid)
               ↔ pid ∈ (entries (Simulation.processes s)).*1) ∧
       sum_list_with line_accesses lines
       = length (Simulation.virtual_addresses s0) ∧
       sum_list_with line_faults lines = total_faults ∧
       sum_list_with line_rss lines + free_remaining = Simulation.NUM_FRAMES).
Proof.
  intros Habs Hfree Hmax Htime Hzero Hpf0.
  assert (run_invariant (length (Simulation.virtual_addresses s0))
            (Simulation.initialize_free_frames s0)) as Hinv
    by (by apply run_invariant_initial).
  assert (frames_accounted (Simulation.initialize_free_frames s0)) as Hacc0
    by (by apply frames_accounted_initial).
  split.
  { intros Hwc Hval. unfold run_and_print, Simulation.run.
    destruct (access_loop_returns (Simulation.virtual_addresses s0)
                (Simulation.initialize_free_frames s0) Hinv Hacc0 Hwc Hval)
      as (s & Hrun & _).
    change (Simulation.virtual_addresses
              (Simulation.initialize_free_frames s0))
      with (Simulation.virtual_addresses s0).
    rewrite Hrun. by eexists _, _. }
  intros s out. unfold run_and_print.
  destruct (Simulation.run s0) as [s'| |] eqn:Hrun; [|done..].
  intros [= -> <-]. unfold Simulation.run in Hrun.
  assert (state_of (Simulation.access_loop
                      (Simulation.initialize_free_frames s0)
                      (Simulation.virtual_addresses s0)) = Some s) as Hs
    by (by rewrite Hrun).
  pose proof (access_loop_virtual_addresses _ _ _ Hs) as Hva.
  destruct (access_loop_counters _ _ _ Hs) as (Hpf & _ & _ & _ & Hret).
  destruct (Hret Hrun) as [Hma _].
  destruct (access_loop_accounted _ _ _ Hinv Hacc0 Hs) as [_ [_ Hacc]].
  assert (∀ g, (∀ pid proc, Simulation.processes s0 !! pid = Some proc →
                            g proc = 0) →
               map_sum g (Simulation.processes s0) = 0) as Hsum0.
  { intros g Hg. rewrite map_sum_entries.
    assert (Forall (λ e, g e.2 = 0) (entries (Simulation.processes s0)))
      as Hall.
    { apply Forall_forall. intros [pid proc] Hin%elem_of_entries.
      by apply (Hg pid). }
    induction Hall as [|e l He _ IH]; [done|]. simpl. lia. }
  change (Simulation.processes (Simulation.initialize_free_frames s0))
    with (Simulation.processes s0) in Hpf, Hma.
  change (Simulation.page_faults (Simulation.initialize_free_frames s0))
    with (Simulation.page_faults s0) in Hpf.
  rewrite (Hsum0 Process.memory_accesses) in Hma
    by (intros pid proc Hp; apply (Hzero pid proc Hp)).
  rewrite (Hsum0 Process.page_faults) in Hpf
    by (intros pid proc Hp; apply (Hzero pid proc Hp)).
  exists (process_line csv <$> entries (Simulation.processes s)),
    (Simulation.page_faults s), (length (Simulation.free_frames s)).
  split_and!.
  - unfold print_summary, summary_block. rewrite Hva.
    change (Simulation.virtual_addresses
              (Simulation.initialize_free_frames s0))
      with (Simulation.virtual_addresses s0).
    destruct csv; simpl; [done|by rewrite app_nil_r].
  - done.
  - apply entries_ascending.
  - intros pid. rewrite list_elem_of_fmap. split.
    + intros [proc0 Hp0].
      destruct (proj2 (access_loop_run_shape _ _ _ Hs pid) proc0 Hp0)
        as (proc & Hp & _).
      exists (pid, proc). split; [done|]. by apply elem_of_entries.
    + intros ([pid' proc] & -> & Hin%elem_of_entries). simpl in *.
      destruct (Simulation.processes s0 !! pid') as [proc0|] eqn:Hp0;
        [by eexists|].
      pose proof (proj1 (access_loop_run_shape _ _ _ Hs pid') Hp0) as Hnone.
      congruence.
  - rewrite sum_list_with_fmap, <-(map_sum_entries Process.memory_accesses).
    change (Simulation.virtual_addresses
              (Simulation.initialize_free_frames s0))
      with (Simulation.virtual_addresses s0) in Hma. lia.
  - rewrite sum_list_with_fmap, <-(map_sum_entries Process.page_faults). lia.
  - rewrite sum_list_with_fmap, <-(map_sum_entries Process.get_rss).
    exact Hacc.
Qed.

Lemma summary_totals_agree_witness :
  ∃ s out lines total_faults free_remaining,
    run_and_print true example_two_processes = (Simulation.Returned s, out) ∧
    line_pid <$> out = [Some 3%Z; Some 7%Z; None] ∧
    out = lines ++ [OutTotals true 5 total_faults free_remaining] ∧
    lines = process_line true <$> entries (Simulation.processes s) ∧
    StronglySorted Z.lt (entries (Simulation.processes s)).*1 ∧
    (∀ pid, is_Some (Simulation.processes example_two_processes !! pid)
            ↔ pid ∈ (entries (Simulation.processes s)).*1) ∧
    sum_list_with line_accesses lines = 5 ∧
    sum_list_with line_faults lines = total_faults ∧
    sum_list_with line_rss lines + free_remaining = Simulation.NUM_FRAMES.
Proof.
  assert (∃ s out,
            run_and_print true example_two_processes
            = (Simulation.Returned s, out)
            ∧ line_pid <$> out = [Some 3%Z; Some 7%Z; None])
    as (s & out & Hrun & Hpids).
  { do 2 eexists. split; vm_compute; reflexivity. }
  assert (all_rows absent example_two_processes) as Habs.
  { unfold all_rows, example_two_processes.
    cbn [Simulation.processes].
    apply map_Forall_insert_2; [|apply map_Forall_singleton];
      repeat constructor. }
  assert (map_Forall
            (λ _ proc,
               Process.memory_accesses proc = 0
               ∧ Process.page_faults proc = 0)
            (Simulation.processes example_two_processes)) as Hzero.
  { unfold example_two_processes. cbn [Simulation.processes].
    apply map_Forall_insert_2; [|apply map_Forall_singleton];
      split; reflexivity. }
  assert (1 ≤ 2) as Hmax by lia.
  assert (0 + Z.of_nat 5 ≤ INT_MAX)%Z as Htime by (vm_compute; intros [=]).
  destruct (summary_totals_agree true example_two_processes
              Habs eq_refl Hmax Htime Hzero eq_refl) as [_ Hsum].
  destruct (Hsum s out Hrun)
    as (lines & total_faults & free_remaining & Hconcl).
  exists s, out, lines, total_faults, free_remaining.
  split; [exact Hrun|]. split; [exact Hpids|]. exact Hconcl.
Defined.

(* ===================================================================== *)
(** ** Time stamps of resident pages *)
(* ===================================================================== *)

(** A row that is resident after an access is a row that was resident
    before it, or the row of the page accessed, stamped with the clock: its
    [last_accessed_at] is the clock, and its [loaded_at] is the clock (a
    fault) or what it was (a hit). *)
Lemma table_step_resident fl now page rows free k rows' free' i r' :
  table_step fl now page rows free = Some (k, rows', free') →
  rows' !! i = Some r' → PageTable.present r' = true →
  (i ≠ page ∧ rows !! i = Some r')
  ∨ (i = page ∧ PageTable.last_accessed_at r' = now ∧
     (PageTable.loaded_at r' = now
      ∨ ∃ r, rows !! page = Some r ∧ PageTable.present r = true ∧
             PageTable.loaded_at r' = PageTable.loaded_at r)).
Proof.
  intros Hts Hr' Hp'.
  destruct (table_step_cases _ _ _ _ _ _ _ _ Hts)
    as (r & Hr & [(Hp & _ & -> & _)|[(_ & _ & f & _ & _ & -> & _)
                 |(_ & _ & rv & Hv & _ & -> & _)]]).
  - destruct (decide (i = page)) as [->|Hne].
    + rewrite list_lookup_insert_eq in Hr' by (by eapply lookup_lt_Some).
      injection Hr' as <-. right. split_and!; [done..|]. right. by exists r.
    + rewrite list_lookup_insert_ne in Hr' by done. by left.
  - destruct (decide (i = page)) as [->|Hne].
    + rewrite list_lookup_insert_eq in Hr' by (by eapply lookup_lt_Some).
      injection Hr' as <-. right. split_and!; [done..|]. by left.
    + rewrite list_lookup_insert_ne in Hr' by done. by left.
  - set (v := select_victim _ _) in *.
    destruct (decide (i = page)) as [->|Hne].
    + rewrite list_lookup_insert_eq in Hr'
        by (rewrite length_insert; by eapply lookup_lt_Some).
      injection Hr' as <-. right. split_and!; [done..|]. by left.
    + rewrite list_lookup_insert_ne in Hr' by done.
      destruct (decide (i = v)) as [->|Hiv].
      * rewrite list_lookup_insert_eq in Hr' by (by eapply lookup_lt_Some).
        injection Hr' as <-. done.
      * rewrite list_lookup_insert_ne in Hr' by done. by left.
Qed.

(** The same for the resident pages of the simulation. *)
Lemma perform_memory_access_resident s va s' pid i r' :
  state_of (Simulation.perform_memory_access s va) = Some s' →
  resident_at s' pid i r' →
  ((pid ≠ Simulation.process_id va ∨ i ≠ Simulation.page va)
   ∧ resident_at s pid i r')
  ∨ (pid = Simulation.process_id va ∧ i = Simulation.page va ∧
     PageTable.last_accessed_at r' = Simulation.time s ∧
     (PageTable.loaded_at r' = Simulation.time s
      ∨ ∃ r, resident_at s pid i r ∧
             PageTable.loaded_at r' = PageTable.loaded_at r)).
Proof.
  intros (proc & Hproc
          & [(Hlen & _ & ->)|(_ & k & rows' & free' & Hts & Hsame)])
    %perform_memory_access_full (proc' & Hproc' & Hr' & Hp').
  - assert (Simulation.processes (state_invalid_page s va proc)
            = <[Simulation.process_id va :=
                  Process.set_memory_accesses
                    (S (Process.memory_accesses proc)) proc]>
                (Simulation.processes s)) as Hprocs.
    { unfold state_invalid_page, Simulation.print_verbose.
      by destruct (Simulation.verbose _). }
    rewrite Hprocs in Hproc'. left.
    destruct (decide (pid = Simulation.process_id va)) as [->|Hne].
    + rewrite lookup_insert_eq in Hproc'. injection Hproc' as <-.
      simpl in Hr'. split; [|by exists proc]. right. intros ->.
      apply lookup_lt_Some in Hr'. lia.
    + rewrite lookup_insert_ne in Hproc' by done.
      split; [by left|]. by exists proc'.
  - destruct Hsame as (_ & Hprocs & _). simpl in Hprocs.
    rewrite Hprocs in Hproc'.
    destruct (decide (pid = Simulation.process_id va)) as [->|Hne].
    + rewrite lookup_insert_eq in Hproc'. injection Hproc' as <-.
      simpl in Hr'.
      destruct (table_step_resident _ _ _ _ _ _ _ _ _ _ Hts Hr' Hp')
        as [[Hne Hr]|(-> & Hla & Hld)].
      * left. split; [by right|]. by exists proc.
      * right. split_and!; [done..|].
        destruct Hld as [?|(r & Hr & Hp & Hld)]; [by left|].
        right. exists r. split; [|done]. by exists proc.
    + rewrite lookup_insert_ne in Hproc' by done. left.
      split; [by left|]. by exists proc'.
Qed.

Lemma resident_at_stamped s pid i r :
  all_rows (stamped_before (Simulation.time s)) s →
  resident_at s pid i r →
  (PageTable.loaded_at r < Simulation.time s)%Z
  ∧ (PageTable.last_accessed_at r < Simulation.time s)%Z.
Proof.
  intros Hst (proc & Hproc & Hr & Hp).
  pose proof (Hst _ _ Hproc) as Hall. cbv beta in Hall.
  rewrite Forall_lookup in Hall. by apply (Hall _ _ Hr).
Qed.

Lemma perform_memory_access_distinct s va s' :
  all_rows (stamped_before (Simulation.time s)) s →
  stamps_distinct PageTable.loaded_at s →
  stamps_distinct PageTable.last_accessed_at s →
  state_of (Simulation.perform_memory_access s va) = Some s' →
  stamps_distinct PageTable.loaded_at s'
  ∧ stamps_distinct PageTable.last_accessed_at s'.
Proof.
  intros Hst Hld Hla Hs'. split.
  - intros pid i r pid' i' r' Hr Hr' Heq.
    destruct (perform_memory_access_resident _ _ _ _ _ _ Hs' Hr)
      as [[Hne Hold]|(-> & -> & _ & Hnew)];
      destruct (perform_memory_access_resident _ _ _ _ _ _ Hs' Hr')
        as [[Hne' Hold']|(-> & -> & _ & Hnew')]; [by eapply Hld| | |done].
    + destruct (resident_at_stamped _ _ _ _ Hst Hold) as [Hlt _].
      destruct Hnew' as [Hnow|(r0 & Hr0 & Hnow)]; [lia|].
      destruct (Hld _ _ _ _ _ _ Hold Hr0) as [-> ->]; [congruence|].
      by destruct Hne.
    + destruct (resident_at_stamped _ _ _ _ Hst Hold') as [Hlt _].
      destruct Hnew as [Hnow|(r0 & Hr0 & Hnow)]; [lia|].
      destruct (Hld _ _ _ _ _ _ Hold' Hr0) as [-> ->]; [congruence|].
      by destruct Hne'.
  - intros pid i r pid' i' r' Hr Hr' Heq.
    destruct (perform_memory_access_resident _ _ _ _ _ _ Hs' Hr)
      as [[Hne Hold]|(-> & -> & Hnow & _)];
      destruct (perform_memory_access_resident _ _ _ _ _ _ Hs' Hr')
        as [[Hne' Hold']|(-> & -> & Hnow' & _)]; [by eapply Hla| | |done].
    + destruct (resident_at_stamped _ _ _ _ Hst Hold) as [_ Hlt]. lia.
    + destruct (resident_at_stamped _ _ _ _ Hst Hold') as [_ Hlt]. lia.
Qed.

Lemma stamps_distinct_initial key s0 :
  all_rows absent s0 → stamps_distinct key s0.
Proof.
  intros Habs pid i r pid' i' r' (proc & Hproc & Hr & Hp) _ _.
  pose proof (Habs _ _ Hproc) as Hall. cbv beta in Hall.
  rewrite Forall_lookup in Hall. specialize (Hall _ _ Hr).
  unfold absent in Hall. congruence.
Qed.

(** X13: in a run no two resident pages carry the same time stamp.  From a
    start with nothing resident, with the clock at or below INT_MAX, in
    every state the access loop reaches the resident pages of all processes
    have pairwise different [loaded_at] and pairwise different
    [last_accessed_at], because the clock advances with every access; so
    two resident pages never tie in the comparisons of [get_oldest_page] and
    [get_least_recently_used_page].  (The clock is an integer without
    wrap-around here; the bound keeps it in the range of an int.) *)
Theorem resident_stamps_are_distinct s0 trace s :
  all_rows absent s0 →
  (Simulation.time s0 + Z.of_nat (length trace) ≤ INT_MAX)%Z →
  state_of (Simulation.access_loop s0 trace) = Some s →
  stamps_distinct PageTable.loaded_at s
  ∧ stamps_distinct PageTable.last_accessed_at s.
Proof.
  intros Habs _.
  apply (access_loop_invariant
           (λ _ s, all_rows (stamped_before (Simulation.time s)) s
                   ∧ stamps_distinct PageTable.loaded_at s
                   ∧ stamps_distinct PageTable.last_accessed_at s)
           (λ s, stamps_distinct PageTable.loaded_at s
                 ∧ stamps_distinct PageTable.last_accessed_at s)).
  - intros _ s1 va s' (Hst & Hld & Hla) Hstep.
    assert (state_of (Simulation.perform_memory_access s1 va) = Some s')
      as Hs' by (by rewrite Hstep).
    split.
    + exact (perform_memory_access_stamped s1 va s' Hst Hs').
    + exact (perform_memory_access_distinct s1 va s' Hst Hld Hla Hs').
  - intros _ s1 va s' (Hst & Hld & Hla) Hstep.
    apply (perform_memory_access_distinct s1 va); [done..|].
    by rewrite Hstep.
  - by intros s1 (_ & Hld & Hla).
  - split_and!.
    + by apply all_rows_absent_stamped.
    + by apply stamps_distinct_initial.
    + by apply stamps_distinct_initial.
Qed.

Lemma resident_stamps_are_distinct_witness :
  ∃ s,
    state_of (Simulation.access_loop
                (Simulation.initialize_free_frames example_two_processes)
                (Simulation.virtual_addresses example_two_processes))
    = Some s ∧
    resident_at s 7 1 (Simulation.loaded_row 0 4) ∧
    stamps_distinct PageTable.loaded_at s ∧
    stamps_distinct PageTable.last_accessed_at s.
Proof.
  assert (∃ s,
            state_of (Simulation.access_loop
                        (Simulation.initialize_free_frames
                           example_two_processes)
                        (Simulation.virtual_addresses example_two_processes))
            = Some s
            ∧ resident_at s 7 1 (Simulation.loaded_row 0 4))
    as (s & Hs & Hres).
  { eexists. split; [vm_compute; reflexivity|].
    eexists. split_and!; vm_compute; reflexivity. }
  assert (all_rows absent example_two_processes) as Habs.
  { unfold all_rows, example_two_processes.
    cbn [Simulation.processes].
    apply map_Forall_insert_2; [|apply map_Forall_singleton];
      repeat constructor. }
  assert (0 + Z.of_nat 5 ≤ INT_MAX)%Z as Htime by (vm_compute; intros [=]).
  exists s. split; [exact Hs|]. split; [exact Hres|].
  exact (resident_stamps_are_distinct
           (Simulation.initialize_free_frames example_two_processes)
           (Simulation.virtual_addresses example_two_processes) s
           Habs Htime Hs).
Defined.

(* ===================================================================== *)
(** ** The offset check and the time stamps, access by access *)
(* ===================================================================== *)





(** The stamps that one access writes. *)
Lemma perform_memory_access_stamp_change s va s' :
  all_rows (stamped_before (Simulation.time s)) s →
  state_of (Simulation.perform_memory_access s va) = Some s' →
  stamp_change s va s'.
Proof.
  intros Hst
    (proc & Hproc & [(Hge & _ & ->)|(Hlt & k & rows' & free' & Hts & Hsame)])
    %perform_memory_access_full.
  - exists proc,
      (Process.set_memory_accesses (S (Process.memory_accesses proc)) proc).
    split; [done|]. split.
    + unfold state_invalid_page, Simulation.print_verbose.
      destruct (Simulation.verbose _); simpl; by rewrite lookup_insert_eq.
    + by rewrite (classify_invalid_page s va proc Hproc Hge).
  - destruct Hsame as (_ & Hprocs & _). simpl in Hprocs.
    exists proc, (process_after proc k rows').
    split; [done|]. split; [by rewrite Hprocs, lookup_insert_eq|].
    rewrite (table_step_classify _ _ _ _ _ _ Hproc Hts).
    destruct (table_step_served _ _ _ _ _ _ _ _ Hts)
      as (r & r' & Hr & Hr' & Hp' & Hlast & Hkind).
    exists r, r'. cbn [process_after Process.page_table PageTable.rows].
    split_and!; [done..| |].
    + destruct (is_hit k).
      * destruct Hkind as (Hp & Hld & _). split; [done|].
        pose proof (Hst _ _ Hproc) as Hall. cbv beta in Hall.
        rewrite Forall_lookup in Hall. by destruct (Hall _ _ Hr Hp).
      * by destruct Hkind.
    + intros i x' Hne Hx'.
      destruct (table_step_cases _ _ _ _ _ _ _ _ Hts)
        as (r0 & Hr0 & [(_ & _ & -> & _)|[(_ & _ & f & _ & _ & -> & _)
                       |(_ & _ & rv & Hv & _ & -> & _)]]).
      * rewrite list_lookup_insert_ne in Hx' by done. by exists x'.
      * rewrite list_lookup_insert_ne in Hx' by done. by exists x'.
      * rewrite list_lookup_insert_ne in Hx' by done.
        set (v := select_victim _ _) in *.
        destruct (decide (i = v)) as [->|Hiv].
        -- rewrite list_lookup_insert_eq in Hx' by (by eapply lookup_lt_Some).
           injection Hx' as <-. by exists rv.
        -- rewrite list_lookup_insert_ne in Hx' by done. by exists x'.
Qed.

(** Stamps before the clock and in order, after a prefix of the trace. *)
Lemma access_loop_stamped_ordered prefix : ∀ s0 s,
  all_rows (stamped_before (Simulation.time s0)) s0 → all_rows ordered s0 →
  Simulation.access_loop s0 prefix = Simulation.Returned s →
  all_rows (stamped_before (Simulation.time s)) s ∧ all_rows ordered s ∧
  Simulation.time s = (Simulation.time s0 + Z.of_nat (length prefix))%Z.
Proof.
  induction prefix as [|va prefix IH]; intros s0 s Hst Hord; simpl.
  - intros [= <-]. split_and!; [done..|lia].
  - destruct (Simulation.perform_memory_access s0 va) as [s1|s1|] eqn:Hstep;
      [|done..].
    assert (state_of (Simulation.perform_memory_access s0 va) = Some s1)
      as Hs1 by (by rewrite Hstep).
    pose proof (perform_memory_access_step _ _ _ Hs1) as (_ & Htm & _).
    intros Hloop.
    destruct (IH (Simulation.set_time (Simulation.time s1 + 1)%Z s1) s)
      as (Hst' & Hord' & Htime); [| |done|].
    + exact (perform_memory_access_stamped s0 va s1 Hst Hs1).
    + exact (perform_memory_access_ordered s0 va s1 Hst Hord Hs1).
    + split_and!; [done..|]. rewrite Htime. simpl. lia.
Qed.

Lemma access_loop_ordered trace s0 s :
  all_rows (stamped_before (Simulation.time s0)) s0 → all_rows ordered s0 →
  state_of (Simulation.access_loop s0 trace) = Some s →
  all_rows ordered s.
Proof.
  intros Hst Hord.
  apply (access_loop_invariant
           (λ _ s, all_rows (stamped_before (Simulation.time s)) s ∧
                   all_rows ordered s)
           (all_rows ordered)).
  - intros _ s1 va s' [Hst1 Ho] Hstep.
    assert (state_of (Simulation.perform_memory_access s1 va) = Some s')
      as Hs' by (by rewrite Hstep).
    split.
    + exact (perform_memory_access_stamped s1 va s' Hst1 Hs').
    + exact (perform_memory_access_ordered s1 va s' Hst1 Ho Hs').
  - intros _ s1 va s' [Hst1 Ho] Hstep.
    apply (perform_memory_access_ordered s1 va s' Hst1 Ho).
    by rewrite Hstep.
  - by intros s1 [_ Ho].
  - by split.
Qed.

(** C7: from a start in which no page is resident and every entry has
    [loaded_at <= last_accessed_at], while the clock stays at or below
    [INT_MAX], every entry of every process has
    [loaded_at <= last_accessed_at] before and after every access (and in
    the state a fatal fault exits in).  At each access the clock has
    advanced by one for every access made before; a fault sets [loaded_at]
    and [last_accessed_at] of its page to the clock; a hit sets only
    [last_accessed_at] to the clock and keeps [loaded_at], which lies
    before the clock; no other row of the table changes a time stamp. *)
Theorem loaded_at_le_last_accessed_at s0 trace :
  all_rows absent s0 → all_rows ordered s0 →
  (Simulation.time s0 + Z.of_nat (length trace) ≤ INT_MAX)%Z →
  (∀ s, state_of (Simulation.access_loop s0 trace) = Some s →
        all_rows ordered s) ∧
  (∀ prefix va rest s s',
     trace = prefix ++ va :: rest →
     Simulation.access_loop s0 prefix = Simulation.Returned s →
     state_of (Simulation.perform_memory_access s va) = Some s' →
     Simulation.time s = (Simulation.time s0 + Z.of_nat (length prefix))%Z ∧
     (Simulation.time s < INT_MAX)%Z ∧
     all_rows ordered s ∧ all_rows ordered s' ∧
     stamp_change s va s').
Proof.
  intros Habs Hord Htime.
  pose proof (all_rows_absent_stamped (Simulation.time s0) s0 Habs) as Hst.
  split.
  - intros s. by apply access_loop_ordered.
  - intros prefix va rest s s' -> Hprefix Hs'.
    rewrite length_app in Htime. simpl in Htime.
    destruct (access_loop_stamped_ordered prefix s0 s Hst Hord Hprefix)
      as (Hst1 & Hord1 & Htm).
    split_and!; [done|lia|done| |].
    + exact (perform_memory_access_ordered s va s' Hst1 Hord1 Hs').
    + exact (perform_memory_access_stamp_change s va s' Hst1 Hs').
Qed.

Lemma loaded_at_le_last_accessed_at_witness :
  ∃ s s' s'',
    Simulation.access_loop
      (Simulation.initialize_free_frames
         (example_simulation false Simulation.FIFO 2))
      [example_access 0 0; example_access 1 0] = Simulation.Returned s ∧
    Simulation.perform_memory_access s (example_access 0 0)
    = Simulation.Returned s' ∧
    state_of (Simulation.access_loop
                (Simulation.initialize_free_frames
                   (example_simulation false Simulation.FIFO 2))
                [example_access 0 0; example_access 1 0;
                 example_access 0 0; example_access 2 0])
    = Some s'' ∧
    Simulation.time s = 2%Z ∧
    stamp_change s (example_access 0 0) s' ∧
    all_rows ordered s' ∧ all_rows ordered s''.
Proof.
  assert (∃ s s' s'',
            Simulation.access_loop
              (Simulation.initialize_free_frames
                 (example_simulation false Simulation.FIFO 2))
              [example_access 0 0; example_access 1 0]
            = Simulation.Returned s ∧
            Simulation.perform_memory_access s (example_access 0 0)
            = Simulation.Returned s' ∧
            state_of (Simulation.access_loop
                        (Simulation.initialize_free_frames
                           (example_simulation false Simulation.FIFO 2))
                        [example_access 0 0; example_access 1 0;
                         example_access 0 0; example_access 2 0])
            = Some s'')
    as (s & s' & s'' & Hs & Hs' & Hs'').
  { do 3 eexists. split_and!; vm_compute; reflexivity. }
  assert (all_rows absent (example_simulation false Simulation.FIFO 2))
    as Habs.
  { apply map_Forall_singleton. repeat constructor. }
  assert (all_rows ordered (example_simulation false Simulation.FIFO 2))
    as Hord.
  { apply map_Forall_singleton. repeat constructor; vm_compute; intros [=]. }
  assert (0 + Z.of_nat 4 ≤ INT_MAX)%Z as Htime by (vm_compute; intros [=]).
  destruct (loaded_at_le_last_accessed_at
              (Simulation.initialize_free_frames
                 (example_simulation false Simulation.FIFO 2))
              [example_access 0 0; example_access 1 0;
               example_access 0 0; example_access 2 0]
              Habs Hord Htime) as [Hfinal Hstep].
  assert (state_of (Simulation.perform_memory_access s (example_access 0 0))
          = Some s') as Hstate by (rewrite Hs'; reflexivity).
  destruct (Hstep [example_access 0 0; example_access 1 0]
              (example_access 0 0) [example_access 2 0] s s'
              eq_refl Hs Hstate) as (Htm & _ & _ & Hord' & Hch).
  exists s, s', s''.
  split; [exact Hs|]. split; [exact Hs'|]. split; [exact Hs''|].
  split; [exact Htm|]. split; [exact Hch|]. split; [exact Hord'|].
  exact (Hfinal s'' Hs'').
Defined.
